(** * Meta-schedule core of TVM: argument descriptors, the compute-location
      mutator and the artifact-cleanup callback.

    Shallow embedding of
    - [src/meta_schedule/arg_info.cc]
    - [src/meta_schedule/mutator/mutate_compute_location.cc]
    - [src/meta_schedule/measure_callback/remove_build_artifact.cc]

    C++ exceptions ([LOG(FATAL)], [CHECK], [ICHECK], failed casts) are values
    of an error monad; objects mutated through pointers ([TRandState*], the
    traced schedule, the vector of candidates) are threaded explicitly. *)

From stdpp Require Import base option list gmap strings pretty.
From Stdlib Require Import ZArith Lia.

Local Open Scope string_scope.
Local Open Scope Z_scope.
Local Open Scope list_scope.

Set Warnings "-register-all".

(** ** Runtime values *)

(** [DLDataType]: type code, bit width and lane count. *)
Record DataType := mkDataType { code : Z; bits : Z; lanes : Z }.

#[global] Instance DataType_eq_dec : EqDecision DataType.
Proof. solve_decision. Defined.

(** [kDLFloat = 2]; [DataType::Float(32)]. *)
Definition kDLFloat : Z := 2.
Definition Float32 : DataType := mkDataType kDLFloat 32 1.

(** [ffi::Any] as far as the embedded code inspects it: the null value,
    integers ([Integer]), strings, arrays ([ffi::ArrayObj]), and any other
    object, known by its type key and its address. *)
Inductive Any :=
| AnyNone
| AnyInt (value : Z)
| AnyStr (s : string)
| AnyArray (elems : list Any)
| AnyObject (type_key : string) (addr : positive).

(** [tir::Var] (include/tvm/tir/var.h): a variable is identified by its
    address; [name_hint] is only a hint. *)
Record Var := mkVar { var_addr : positive; name_hint : string }.

(** [GlobalVar]: the key of [IRModule::functions]. *)
Record GlobalVar := mkGlobalVar { gv_addr : positive; gv_name_hint : string }.

(** [tir::attr::kIsEntryFunc]. *)
Definition kIsEntryFunc : string := "tir.is_entry_func".

(** [ArgInfo]; [TensorInfo] is its only variant.  [shape] is an
    [ffi::Shape], a sequence of [int64_t]. *)
Inductive ArgInfo :=
| TensorInfo (dtype : DataType) (shape : list Z).

(** The expression language of the program representation is external to the
    embedded files: [PrimExpr] is its type of expressions and [AsVector] is
    [support::AsVector<PrimExpr, int64_t>], which turns a buffer shape into
    integers. *)
Class TirLang := {
  PrimExpr : Type;
  AsVector : list PrimExpr → list Z
}.

(** The string form of a [DLDataType] ([DLDataTypeToString],
    [StringToDLDataType]) is external as well; parsing may fail. *)
Class DTypeCodec := {
  DLDataTypeToString : DataType → string;
  StringToDLDataType : string → option DataType
}.

Section ProgramModel.
Context `{TirLang}.

(** [tir::Buffer], the fields read by [ArgInfo::FromPrimFunc]. *)
Record Buffer := mkBuffer { dtype : DataType; shape : list PrimExpr }.

(** [tir::PrimFunc]: parameters, the map from parameters (by address) to
    buffers, and the integer-valued attributes. *)
Record PrimFunc := mkPrimFunc {
  params : list Var;
  buffer_map : gmap positive Buffer;
  attrs : gmap string Z
}.

(** [BaseFunc]: a [tir::PrimFunc] or a function of another kind (a Relax
    function, an extern function, ...). *)
Inductive BaseFunc :=
| BFPrim (func : PrimFunc)
| BFOther (type_key : string).

(** [base_func.as<tir::PrimFuncNode>()] *)
Definition as_PrimFunc (base_func : BaseFunc) : option PrimFunc :=
  match base_func with
  | BFPrim func => Some func
  | BFOther _ => None
  end.

(** [IRModule]: [functions] lists the entries of [mod->functions] in the
    order in which the map is iterated. *)
Record IRModule := mkIRModule { functions : list (GlobalVar * BaseFunc) }.

(** Modelled from the spec: [HasNonzeroAttr] (declared in the function
    headers, not part of the embedded files); a function is "explicitly
    flagged as entry" when the attribute is present and nonzero. *)
Definition HasNonzeroAttr (func : PrimFunc) (attr_key : string) : bool :=
  match attrs func !! attr_key with
  | Some v => negb (v =? 0)
  | None => false
  end.

(** ** Errors *)

(** The pieces streamed into an error message with [<<]. *)
Inductive Piece :=
| Text (s : string)
| ShowModule (mod_ : IRModule)
| ShowObject (obj : Any)
| ShowVar (v : Var).

(** Outcome of a call: a value, or a thrown error with its message. *)
Inductive Exc (A : Type) :=
| Ok (a : A)
| Throw (what : list Piece).
#[global] Arguments Ok {A} a.
#[global] Arguments Throw {A} what.

Definition bind {A B} (m : Exc A) (k : A → Exc B) : Exc B :=
  match m with
  | Ok a => k a
  | Throw what => Throw what
  end.

(** ** [FindEntryFunc] *)

(** The loop of [FindEntryFunc] (arg_info.cc, lines 37-50): either the
    function returns from inside the loop ([inl]), or the loop ends with the
    final values of [num_prim_func], [main_func] and [last_func] ([inr]).
    The counter is an [int]; it counts the functions of one module and is
    kept as an integer without wrap-around. *)
Fixpoint FindEntryFunc_loop (fs : list (GlobalVar * BaseFunc))
    (num_prim_func : Z) (main_func last_func : option PrimFunc)
  : PrimFunc + (Z * option PrimFunc * option PrimFunc) :=
  match fs with
  | [] => inr (num_prim_func, main_func, last_func)
  | (gv, base_func) :: rest =>
      match as_PrimFunc base_func with
      | Some func =>
          if HasNonzeroAttr func kIsEntryFunc then inl func
          else
            FindEntryFunc_loop rest (num_prim_func + 1)
              (if String.eqb (gv_name_hint gv) "main" then Some func else main_func)
              (Some func)
      | None => FindEntryFunc_loop rest num_prim_func main_func last_func
      end
  end.

Definition msg_no_prim_func (mod_ : IRModule) : list Piece :=
  [Text "ValueError: Cannot find any PrimFunc in the given IRModule: "; ShowModule mod_].

Definition msg_multiple_prim_funcs (mod_ : IRModule) : list Piece :=
  [Text (String.append
           "ValueError: Multiple PrimFuncs exist in the IRModule, but none of them are "
           "annotated with `kIsEntryFunc`, i.e. `tir.is_entry_func`");
   ShowModule mod_].

(** [GetRef<tir::PrimFunc>(ptr)]; a null pointer is an error. *)
Definition GetRef (ptr : option PrimFunc) : Exc PrimFunc :=
  match ptr with
  | Some func => Ok func
  | None => Throw [Text "null pointer"]
  end.

Definition FindEntryFunc (mod_ : IRModule) : Exc PrimFunc :=
  match FindEntryFunc_loop (functions mod_) 0 None None with
  | inl func => Ok func
  | inr (num_prim_func, main_func, last_func) =>
      match main_func with
      | Some func => Ok func
      | None =>
          if num_prim_func =? 0 then Throw (msg_no_prim_func mod_)
          else if 1 <? num_prim_func then Throw (msg_multiple_prim_funcs mod_)
          else GetRef last_func
      end
  end.

(** ** [ArgInfo::FromPrimFunc] and [ArgInfo::FromEntryFunc] *)

Definition msg_unsupported_argument (arg : Var) : list Piece :=
  [Text "ValueError: Unsupported argument type: "; ShowVar arg].

(** The loop over [func->params]; [result] is the array built so far. *)
Fixpoint FromPrimFunc_loop (func : PrimFunc) (args : list Var)
    (result : list ArgInfo) : Exc (list ArgInfo) :=
  match args with
  | [] => Ok result
  | arg :: rest =>
      match buffer_map func !! var_addr arg with
      | Some buffer =>
          FromPrimFunc_loop func rest
            (result ++ [TensorInfo (dtype buffer) (AsVector (shape buffer))])
      | None => Throw (msg_unsupported_argument arg)
      end
  end.

Definition FromPrimFunc (func : PrimFunc) : Exc (list ArgInfo) :=
  FromPrimFunc_loop func (params func) [].

(** [tir::transform::RemoveWeightLayoutRewriteBlock(skip_ndarray_rewrite)],
    a pass of the program representation, taken as given. *)
Variable RemoveWeightLayoutRewriteBlock : bool → IRModule → IRModule.

Definition FromEntryFunc (mod_ : IRModule) (remove_preproc : bool)
  : Exc (list ArgInfo) :=
  if remove_preproc then
    let new_mod := RemoveWeightLayoutRewriteBlock true mod_ in
    bind (FindEntryFunc new_mod) FromPrimFunc
  else bind (FindEntryFunc mod_) FromPrimFunc.

(** ** JSON form of [ArgInfo] *)

Context `{DTypeCodec}.

(** Modelled from the spec: [support::AsArray] (support/array.h is not among
    the embedded files); the shape is serialized as an int64 array, one
    [Integer] per extent. *)
Definition AsArray (shape : list Z) : list Any := AnyInt <$> shape.

(** [TensorInfoNode::AsJSON] *)
Definition AsJSON (self : ArgInfo) : Any :=
  match self with
  | TensorInfo dtype shape =>
      let tag := "TENSOR" in
      let dtype := DLDataTypeToString dtype in
      let shape := AsArray shape in
      AnyArray [AnyStr tag; AnyStr dtype; AnyArray shape]
  end.

(** [json_array->at(i)]: throws when [i] is out of range. *)
Definition at_ (json_array : list Any) (i : nat) : Exc Any :=
  match json_array !! i with
  | Some x => Ok x
  | None => Throw [Text "IndexError: index out of range"]
  end.

(** [x.cast<ObjectRef>()]: every value modelled by [Any] is an object or
    null, and casts. *)
Definition cast_ObjectRef (x : Any) : Exc Any := Ok x.

(** [x.cast<String>()]: throws unless [x] holds a string. *)
Definition cast_String (x : Any) : Exc string :=
  match x with
  | AnyStr s => Ok s
  | _ => Throw [Text "TypeError: cannot convert to String"]
  end.

(** Modelled from the spec: [AsIntArray] (meta_schedule/utils.h is not among
    the embedded files); it accepts an int64 array and nothing else. *)
Fixpoint AsIntArray_elems (elems : list Any) : Exc (list Z) :=
  match elems with
  | [] => Ok []
  | AnyInt v :: rest => bind (AsIntArray_elems rest) (λ vs, Ok (v :: vs))
  | _ :: _ => Throw [Text "TypeError: Expect an integer"]
  end.

Definition AsIntArray (obj : Any) : Exc (list Z) :=
  match obj with
  | AnyArray elems => AsIntArray_elems elems
  | _ => Throw [Text "TypeError: Expect an array"]
  end.

Definition msg_check_failed (cond : string) : list Piece :=
  [Text "Check failed: "; Text cond].

Definition msg_unable_to_parse (json_obj : Any) : list Piece :=
  [Text "ValueError: Unable to parse the JSON object: "; ShowObject json_obj].

(** The [catch] clauses of both [FromJSON] functions.  They catch what the
    [try] blocks throw (failed [CHECK]s and casts; the clause "includes
    tvm::Error and dmlc::Error"), and append the caught error's [what()] to
    the message about [json_obj]. *)
Definition msg_unable_to_parse_because (json_obj : Any) (what : list Piece)
  : list Piece :=
  msg_unable_to_parse json_obj ++ Text "\nThe error is: " :: what.

(** The [try] block of [TensorInfo::FromJSON] (lines 134-142). *)
Definition TensorInfo_FromJSON_try (json_obj : Any) : Exc (DataType * list Z) :=
  match json_obj with
  | AnyArray json_array =>
      if (length json_array =? 3)%nat then
        bind (at_ json_array 1) (λ x1,
        bind (cast_String x1) (λ dtype_str,
        match StringToDLDataType dtype_str with
        | None => Throw [Text "unknown type "; Text dtype_str]
        | Some dtype =>
            bind (at_ json_array 2) (λ x2,
            bind (cast_ObjectRef x2) (λ obj,
            bind (AsIntArray obj) (λ shape, Ok (dtype, shape))))
        end))
      else Throw (msg_check_failed "json_array && json_array->size() == 3")
  | _ => Throw (msg_check_failed "json_array && json_array->size() == 3")
  end.

(** [TensorInfo::FromJSON]; an [Integer] of the shape is modelled by its
    [IntValue()]. *)
Definition TensorInfo_FromJSON (json_obj : Any) : Exc ArgInfo :=
  match TensorInfo_FromJSON_try json_obj with
  | Throw what => Throw (msg_unable_to_parse_because json_obj what)
  | Ok (dtype, shape) => Ok (TensorInfo dtype shape)
  end.

(** The [try] block of [ArgInfo::FromJSON] (lines 74-76). *)
Definition ArgInfo_FromJSON_tag (json_obj : Any) : Exc string :=
  match json_obj with
  | AnyArray json_array =>
      if (1 <=? length json_array)%nat then
        bind (at_ json_array 0) cast_String
      else Throw (msg_check_failed "json_array && json_array->size() >= 1")
  | _ => Throw (msg_check_failed "json_array && json_array->size() >= 1")
  end.

(** [ArgInfo::FromJSON] *)
Definition ArgInfo_FromJSON (json_obj : Any) : Exc ArgInfo :=
  match ArgInfo_FromJSON_tag json_obj with
  | Throw what => Throw (msg_unable_to_parse_because json_obj what)
  | Ok tag =>
      if String.eqb tag "TENSOR" then TensorInfo_FromJSON json_obj
      else Throw (msg_unable_to_parse json_obj)
  end.

End ProgramModel.

(** ** Traces *)

(** Modelled from the spec: [InstructionKind] (declared with the trace
    model, which is not among the embedded files), an identifier resolved
    against a global registry of primitives.  An entry is known by the name
    it is registered under, so that [same_as] on two entries is equality of
    names. *)
Definition InstructionKind := string.

Definition InstructionKind_Get (name : string) : InstructionKind := name.

Definition same_as (a b : InstructionKind) : bool := String.eqb a b.

(** Modelled from the spec: [Instruction] and [Trace] (the trace model is not
    among the embedded files).  An instruction carries its kind, its symbolic
    inputs, its attributes and an optional decision; a trace is the ordered
    sequence of its instructions. *)
Record Instruction := mkInstruction {
  kind : InstructionKind;
  inputs : list Any;
  inst_attrs : list Any;
  decision : option Any
}.

Record Trace := mkTrace { insts : list Instruction }.

(** Modelled from the spec: [Trace::GetDecision] (not among the embedded
    files), the decision recorded for an instruction, null when it has none. *)
Definition GetDecision (inst : Instruction) : Any :=
  match decision inst with
  | Some d => d
  | None => AnyNone
  end.

(** ** Checked calls *)

(** The pieces streamed into the message of an error raised outside the
    tensor-program code: text, a value, or another object, named by the
    expression that is printed. *)
Inductive MsgPiece :=
| Str (s : string)
| Val (v : Any)
| Shown (expr : string).

(** Outcome of a call that may fail an [ICHECK] or a cast, or throw. *)
Inductive Checked (A : Type) :=
| Done (a : A)
| Fatal (msg : list MsgPiece).
Arguments Done {A} a.
Arguments Fatal {A} msg.

Definition and_then {A B} (m : Checked A) (k : A → Checked B) : Checked B :=
  match m with
  | Done a => k a
  | Fatal msg => Fatal msg
  end.

(** ** Builder results and the artifact-cleanup callback *)

(** Modelled from the spec: [BuilderResult] (declared in the builder
    headers, not among the embedded files): the path of the built artifact,
    or an error message. *)
Record BuilderResult := mkBuilderResult {
  artifact_path : option string;
  error_msg : option string
}.

(** The external removal capability.  [GetGlobal] is the registry of global
    functions, as far as the callback uses it: the function registered
    under a name, if there is one.  The removal function acts on the world
    outside the program (the build directories on disk); a call of it
    returns or throws, and leaves the world as it is at that moment. *)
Class RemovalCapability := {
  World : Type;
  GetGlobal : string → option (string → World → Checked unit * World)
}.

Module RemoveBuildArtifactNode.
Section Callback.
Context `{RemovalCapability}.
(** The arguments [Apply] receives and does not read. *)
Variables TaskScheduler MeasureCandidate RunnerResult : Type.

(** [ffi::Function::GetGlobalRequired(name)]: the function registered under
    [name], an error when there is none (the text of the error is in the
    FFI headers, which are not among the embedded files). *)
Definition GetGlobalRequired (name : string)
  : Checked (string → World → Checked unit * World) :=
  match GetGlobal name with
  | Some f => Done f
  | None => Fatal [Str "Function "; Str name; Str " not found"]
  end.

(** What a run of the callback has done so far: the world as the calls of
    [f_rm] left it, and the arguments of these calls, in order. *)
Record Effects := mkEffects { world : World; removed : list string }.

(** One call [f_rm(path)]: whether it returned or threw, and the effects
    with this call among them. *)
Definition call_f_rm (f_rm : string → World → Checked unit * World)
    (path : string) (st : Effects) : Checked unit * Effects :=
  let '(r, w) := f_rm path (world st) in
  (r, {| world := w; removed := removed st ++ [path] |}).

(** The loop over [builder_results] (remove_build_artifact.cc, lines 34-38).
    Nothing catches what [f_rm] throws: the loop ends with it. *)
Fixpoint Apply_loop (f_rm : string → World → Checked unit * World)
    (builder_results : list BuilderResult) (st : Effects)
  : Checked unit * Effects :=
  match builder_results with
  | [] => (Done tt, st)
  | build_result :: rest =>
      match artifact_path build_result with
      | Some path =>
          match call_f_rm f_rm path st with
          | (Done _, st') => Apply_loop f_rm rest st'
          | (Fatal msg, st') => (Fatal msg, st')
          end
      | None => Apply_loop f_rm rest st
      end
  end.

(** [Apply] (remove_build_artifact.cc, lines 28-39).  The function-local
    static [f_rm] is looked up when [Apply] first runs, and again at the
    next run when the lookup threw; the registry of the model does not
    change, so every run finds the same.  The profiler scope of line 33 has
    no part in the model. *)
Definition Apply (task_scheduler : TaskScheduler) (task_id : Z)
    (measure_candidates : list MeasureCandidate)
    (builder_results : list BuilderResult)
    (runner_results : list RunnerResult) (st : Effects)
  : Checked unit * Effects :=
  match GetGlobalRequired "meta_schedule.remove_build_dir" with
  | Fatal msg => (Fatal msg, st)
  | Done f_rm => Apply_loop f_rm builder_results st
  end.

End Callback.
End RemoveBuildArtifactNode.

(** ** The schedule engine *)

(** The schedule engine and the random-number primitives are consumed
    through a narrow interface.  A [Schedule] value is the traced schedule at
    one point of a replay, together with the bindings of the random
    variables produced so far.  [ForkSeed] and [SampleInt] both advance the
    state behind the [TRandState*] they are given: they return their result
    and the state afterwards. *)
Class ScheduleEngine `{TirLang} := {
  Schedule : Type;
  StmtSRef : Type;
  TRandState : Type;
  ForkSeed : TRandState → TRandState * TRandState;
  SampleInt : TRandState → Z → Z → Z * TRandState;
  SaveJSON : IRModule → string;
  LoadJSON : string → Exc IRModule;
  Traced : IRModule → TRandState → Schedule;
  IsPostproc : InstructionKind → bool;
  (** the instruction's symbolic inputs, resolved in the current replay *)
  TranslateInputRVs : Schedule → list Any → list Any;
  (** [sch->GetSRef(Downcast<tir::BlockRV>(rv))] *)
  GetSRef : Schedule → Any → Exc StmtSRef;
  (** [CollectComputeLocation(sch->state(), block_sref)]: the legal
      compute-at locations of a block, as references and as indices *)
  CollectComputeLocation : Schedule → StmtSRef → list StmtSRef * list Z;
  (** the primitive registered for the instruction's kind, applied to the
      schedule; it fails with a [ScheduleError] when the decision is invalid
      for the current program state *)
  f_apply_to_schedule :
    Schedule → Instruction → list Any → list Any → Any → Exc Schedule;
  (** [trace->WithDecision(inst, decision, remove_postproc)] *)
  WithDecision : Trace → Instruction → Any → bool → Trace
}.

(** Modelled from the spec: [TuneContext] (not among the embedded files);
    of its fields only the target program is read here. *)
Record TuneContext `{TirLang} := mkTuneContext { mod_ : option IRModule }.

Module MutateComputeLocationNode.
Section Mutator.
Context `{ScheduleEngine}.

(** The state of a [MutateComputeLocationNode]: the JSON form of the workload. *)
Record t := mk { json_mod_ : string }.

(** [InitializeWithTuneContext]; [context->mod.value()] throws when the
    context has no module. *)
Definition InitializeWithTuneContext (self : t) (context : TuneContext) : Exc t :=
  match mod_ context with
  | Some m => Ok {| json_mod_ := SaveJSON m |}
  | None => Throw [Text "Back optional access"]
  end.

(** [Clone]: a copy of the node. *)
Definition Clone (self : t) : t := {| json_mod_ := json_mod_ self |}.

(** [struct Candidate] *)
Record Candidate := mkCandidate { inst : Instruction; locs : list Z }.

(** Modelled from the spec: the removal of post-processing instructions done
    by [ApplyToSchedule] and [WithDecision] when [remove_postproc] is set:
    the trailing instructions tagged as post-processing are stripped. *)
Fixpoint strip_postproc (l : list Instruction) : list Instruction :=
  match l with
  | [] => []
  | i :: rest =>
      match strip_postproc rest with
      | [] => if IsPostproc (kind i) then [] else [i]
      | rest' => i :: rest'
      end
  end.

(** Modelled from the spec: [Trace::ApplyToSchedule] (not among the embedded
    files).  The instructions are replayed in order on the schedule; for each
    one the decision provider sees the instruction, its resolved inputs, its
    attributes and its recorded decision, and returns the decision to apply;
    then the primitive of the instruction's kind is applied.  The provider is
    a closure over mutable data of its caller: [C] is the type of that data. *)
Fixpoint ApplyToSchedule_loop {C : Type}
    (decision_provider :
       Schedule → Instruction → list Any → list Any → Any → C → Exc (Any * C))
    (l : list Instruction) (sch : Schedule) (c : C) : Exc (Schedule * C) :=
  match l with
  | [] => Ok (sch, c)
  | i :: rest =>
      let inputs := TranslateInputRVs sch (inputs i) in
      bind (decision_provider sch i inputs (inst_attrs i) (GetDecision i) c)
        (λ '(decision, c'),
           bind (f_apply_to_schedule sch i inputs (inst_attrs i) decision)
             (λ sch', ApplyToSchedule_loop decision_provider rest sch' c'))
  end.

(** Modelled from the spec: the entry point of [Trace::ApplyToSchedule],
    which strips the post-processing first when [remove_postproc] is set. *)
Definition ApplyToSchedule {C : Type} (trace : Trace) (sch : Schedule)
    (remove_postproc : bool)
    (decision_provider :
       Schedule → Instruction → list Any → list Any → Any → C → Exc (Any * C))
    (c : C) : Exc (Schedule * C) :=
  ApplyToSchedule_loop decision_provider
    (if remove_postproc then strip_postproc (insts trace) else insts trace)
    sch c.

(** The conversion of an [int64_t] to [int] in [int old_decision = ...->value]. *)
Definition to_int (v : Z) : Z := (v + 2 ^ 31) mod 2 ^ 32 - 2 ^ 31.

(** [Downcast<Integer>(decision)->value] *)
Definition Downcast_Integer (decision : Any) : Exc Z :=
  match decision with
  | AnyInt value => Ok value
  | _ => Throw [Text "Downcast to Integer failed"]
  end.

(** [std::find(first, last, x) - first]: the position of the first [x]. *)
Fixpoint find (x : Z) (l : list Z) : option nat :=
  match l with
  | [] => None
  | y :: rest => if y =? x then Some 0%nat else S <$> find x rest
  end.

(** [v.erase(v.begin() + k)]; erasing past the end, which the source never
    does on vectors of equal length, leaves the vector as it is. *)
Definition erase {A} (k : nat) (v : list A) : list A := delete k v.

Definition inst_sample_compute_location : InstructionKind :=
  InstructionKind_Get "SampleComputeLocation".

(** The lambda [f_decision_provider] of [FindCandidates] (lines 89-114).  It
    reads the schedule [sch] at the moment of the call and appends to
    [candidates]. *)
Definition f_decision_provider (sch : Schedule) (i : Instruction)
    (inputs attrs : list Any) (decision : Any) (candidates : list Candidate)
  : Exc (Any * list Candidate) :=
  if same_as (kind i) inst_sample_compute_location then
    (* Step 1. Extract the instruction input and the old decision. *)
    if (length inputs =? 1)%nat then
      bind (at_ inputs 0) (λ input0,
      bind (GetSRef sch input0) (λ block_sref,
      bind (Downcast_Integer decision) (λ value,
      let old_decision := to_int value in
      (* Step 2. Collect all the compute_at locations. *)
      let '(location_srefs, location_indices) :=
        CollectComputeLocation sch block_sref in
      (* Step 3. Remove the old decision. *)
      let '(location_srefs, location_indices) :=
        match find old_decision location_indices with
        | Some k => (erase k location_srefs, erase k location_indices)
        | None => (location_srefs, location_indices)
        end in
      if (length location_srefs =? length location_indices)%nat then
        (* Step 4. Add a new candidate if a compute-at position remains. *)
        match location_srefs with
        | [] => Ok (decision, candidates)
        | _ :: _ => Ok (decision, candidates ++ [mkCandidate i location_indices])
        end
      else Throw (msg_check_failed "location_srefs.size() == location_indices.size()"))))
    else Throw (msg_check_failed "inputs.size() == 1")
  else Ok (decision, candidates).

(** [FindCandidates]: the candidates, or the error thrown, and the random
    state as [ForkSeed] left it.  C++ leaves the order in which the
    arguments of [Schedule::Traced] are evaluated open; here [ForkSeed]
    comes first, which shows only in the random state left behind when
    [LoadJSON] throws. *)
Definition FindCandidates (self : t) (trace : Trace) (rand_state : TRandState)
  : Exc (list Candidate) * TRandState :=
  let '(seed, rand_state) := ForkSeed rand_state in
  (bind (LoadJSON (json_mod_ self)) (λ m,
     let sch := Traced m seed in
     bind (ApplyToSchedule trace sch true f_decision_provider [])
       (λ '(_, candidates), Ok candidates)),
   rand_state).

(** [v[i]] for an index computed by [SampleInt]; an index outside the vector
    has no defined behaviour in the source and is an error here. *)
Definition vector_at {A} (v : list A) (i : Z) : Exc A :=
  if 0 <=? i then
    match v !! Z.to_nat i with
    | Some x => Ok x
    | None => Throw [Text "index out of range"]
    end
  else Throw [Text "index out of range"].

(** [Apply]: [Ok None] is the empty optional ("no mutation"). *)
Definition Apply (self : t) (trace : Trace) (rand_state : TRandState)
  : Exc (option Trace) * TRandState :=
  let '(r, rand_state) := FindCandidates self trace rand_state in
  match r with
  | Throw what => (Throw what, rand_state)
  | Ok candidates =>
      match candidates with
      | [] => (Ok None, rand_state)
      | _ :: _ =>
          let '(k1, rand_state) :=
            SampleInt rand_state 0 (Z.of_nat (length candidates)) in
          match vector_at candidates k1 with
          | Throw what => (Throw what, rand_state)
          | Ok candidate =>
              let '(k2, rand_state) :=
                SampleInt rand_state 0 (Z.of_nat (length (locs candidate))) in
              match vector_at (locs candidate) k2 with
              | Throw what => (Throw what, rand_state)
              | Ok loc =>
                  (Ok (Some (WithDecision trace (inst candidate) (AnyInt loc) true)),
                   rand_state)
              end
          end
      end
  end.

End Mutator.
End MutateComputeLocationNode.

(** ** Vocabulary of the statements *)

Section EntryFuncVocabulary.
Context `{TirLang}.

(** No [PrimFunc] among the entries [l] carries a nonzero entry-function flag. *)
Definition no_entry_flag (l : list (GlobalVar * BaseFunc)) : Prop :=
  ∀ gv f, (gv, BFPrim f) ∈ l → HasNonzeroAttr f kIsEntryFunc = false.

(** No [PrimFunc] among the entries [l] is named "main". *)
Definition no_main (l : list (GlobalVar * BaseFunc)) : Prop :=
  ∀ gv f, (gv, BFPrim f) ∈ l → gv_name_hint gv ≠ "main".

(** The entries [l] contain no [PrimFunc] at all. *)
Definition no_prim_func (l : list (GlobalVar * BaseFunc)) : Prop :=
  ∀ gv f, (gv, BFPrim f) ∉ l.

Definition is_prim_func (e : GlobalVar * BaseFunc) : bool :=
  match as_PrimFunc e.2 with
  | Some _ => true
  | None => false
  end.

(** The module with every function that is not a [PrimFunc] left out. *)
Definition only_prim_funcs (m : IRModule) : IRModule :=
  {| functions := List.filter is_prim_func (functions m) |}.

(** The descriptor [FromPrimFunc] emits for a parameter bound to [buffer]. *)
Definition TensorInfo_of (buffer : Buffer) : ArgInfo :=
  TensorInfo (dtype buffer) (AsVector (shape buffer)).

End EntryFuncVocabulary.

Section JSONVocabulary.

(** The string tag of a serialized descriptor: the first element of the
    array, when the payload is an array that starts with a string. *)
Definition tag_of (json_obj : Any) : option string :=
  match json_obj with
  | AnyArray (AnyStr tag :: _) => Some tag
  | _ => None
  end.

(** The number of elements of the payload, when it is an array. *)
Definition arity_of (json_obj : Any) : option nat :=
  match json_obj with
  | AnyArray elems => Some (length elems)
  | _ => None
  end.

End JSONVocabulary.

Section ReplayVocabulary.
Context `{ScheduleEngine}.
Import MutateComputeLocationNode.

(** A decision provider that changes nothing and records, for each
    instruction replayed, the schedule it is about to be applied to. *)
Definition observe (sch : Schedule) (i : Instruction)
    (inputs attrs : list Any) (decision : Any)
    (seen : list (Schedule * Instruction))
  : Exc (Any * list (Schedule * Instruction)) :=
  Ok (decision, seen ++ [(sch, i)]).

(** The replay of [trace] (post-processing removed) on the mutator's
    workload with the recorded decisions: the instructions replayed, each
    with the program state it met, or the error that stopped the replay. *)
Definition replay (self : t) (trace : Trace) (seed : TRandState)
  : Exc (list (Schedule * Instruction)) :=
  bind (LoadJSON (json_mod_ self)) (λ m,
    bind (ApplyToSchedule trace (Traced m seed) true observe [])
      (λ '(_, seen), Ok seen)).

(** The values of the C++ type [int]. *)
Definition is_int (v : Z) : Prop := - 2 ^ 31 ≤ v < 2 ^ 31.

(** [srefs] and [idxs] are the legal compute-at locations of the block that
    instruction [i] samples for, recomputed in program state [sch]. *)
Definition legal_locations (sch : Schedule) (i : Instruction)
    (srefs : list StmtSRef) (idxs : list Z) : Prop :=
  ∃ b block_sref,
    TranslateInputRVs sch (inputs i) = [b] ∧
    GetSRef sch b = Ok block_sref ∧
    CollectComputeLocation sch block_sref = (srefs, idxs).

(** Instruction [i], met in state [sch], has no legal compute-at location
    other than its recorded decision. *)
Definition no_alternative (sch : Schedule) (i : Instruction) : Prop :=
  ∃ d srefs idxs,
    GetDecision i = AnyInt d ∧
    legal_locations sch i srefs idxs ∧
    length srefs = length idxs ∧
    Forall is_int idxs ∧ NoDup idxs ∧
    ∀ x, x ∈ idxs → x = d.

(** Candidate [c] is what [FindCandidates] records for its instruction when
    it meets it in state [sch]: the instruction is a [SampleComputeLocation]
    with an integer decision [d], and [locs c] are the legal locations with
    the first occurrence of [d] (as an [int]) erased, at least one. *)
Definition recorded_in (sch : Schedule) (c : Candidate) : Prop :=
  kind (inst c) = inst_sample_compute_location ∧
  ∃ d srefs idxs,
    GetDecision (inst c) = AnyInt d ∧
    legal_locations sch (inst c) srefs idxs ∧
    locs c ≠ [] ∧
    (find (to_int d) idxs = None ∧ locs c = idxs
     ∨ ∃ k, find (to_int d) idxs = Some k ∧ locs c = erase k idxs).

End ReplayVocabulary.

(** ** A small instance of the external interfaces

    Concrete collaborators on which the statements below are exercised:
    integer expressions, a one-entry data-type table, a file system that is
    a list of paths, and a schedule engine whose programs have a single
    block with three compute-at locations and a block with only one. *)
Module Sample.

Definition lang : TirLang := {| PrimExpr := Z; AsVector := λ l, l |}.

Definition codec : DTypeCodec := {|
  DLDataTypeToString := λ d, if decide (d = Float32) then "float32" else "void";
  StringToDLDataType := λ s, if String.eqb s "float32" then Some Float32 else None
|}.

Definition no_pass : bool → @IRModule lang → @IRModule lang := λ _ m, m.

(** A disk, as the build directories that exist on it: removing one that
    exists deletes it, removing one that does not exist fails. *)
Definition remove_build_dir (path : string) (w : list string)
  : Checked unit * list string :=
  if bool_decide (path ∈ w)
  then (Done tt, List.filter (λ p, negb (String.eqb p path)) w)
  else (Fatal [Str "No such file or directory: "; Str path], w).

Definition disk : RemovalCapability := {|
  World := list string;
  GetGlobal := λ name,
    if String.eqb name "meta_schedule.remove_build_dir"
    then Some remove_build_dir else None
|}.


(** Block 1 can only stay at the root (location -1); every other block may
    also move to loop 0 or loop 1. *)
Definition locations (block : positive) : list positive * list Z :=
  if (block =? 1)%positive then ([1%positive], [-1])
  else ([1; 2; 3]%positive, [-1; 0; 1]).

Definition set_decision (i : Instruction) (d : Any) : Instruction :=
  {| kind := kind i; inputs := inputs i; inst_attrs := inst_attrs i;
     decision := Some d |}.

(** Instructions are told apart by their kind and the blocks they work on. *)
Definition blocks_of (i : Instruction) : list positive :=
  omap (λ x, match x with AnyObject _ addr => Some addr | _ => None end) (inputs i).

Definition same_inst (j i : Instruction) : bool :=
  String.eqb (kind j) (kind i) && bool_decide (blocks_of j = blocks_of i).

Definition engine : @ScheduleEngine lang := {|
  Schedule := nat;
  StmtSRef := positive;
  TRandState := Z;
  ForkSeed := λ s, ((s * 32767) mod 1999999973, (s * 1999999967) mod 2147483647);
  SampleInt := λ s lo hi, (lo + s mod (hi - lo), (s * 48271) mod 2147483647);
  SaveJSON := λ _, "{}";
  LoadJSON := λ s,
    if String.eqb s "{}" then Ok {| functions := [] |}
    else Throw [Text "cannot parse"];
  Traced := λ _ _, 0%nat;
  IsPostproc := λ k, String.eqb k "EnterPostproc";
  TranslateInputRVs := λ _ l, l;
  GetSRef := λ _ rv,
    match rv with
    | AnyObject _ addr => Ok addr
    | _ => Throw [Text "not a block"]
    end;
  CollectComputeLocation := λ _ b, locations b;
  f_apply_to_schedule := λ sch _ _ _ _, Ok (S sch);
  WithDecision := λ trace i d _,
    {| insts := (λ j, if same_inst j i then set_decision j d else j) <$> insts trace |}
|}.

Definition f32_buffer : @Buffer lang :=
  @mkBuffer lang Float32 ([1; 224; 224; 3] : list Z).

Definition a : Var := {| var_addr := 1; name_hint := "a" |}.
Definition b : Var := {| var_addr := 2; name_hint := "b" |}.

(** A function of two tensor parameters, a function with an unbound
    parameter, and a flagged variant of the first. *)
Definition matmul : @PrimFunc lang :=
  {| params := [a; b];
     buffer_map := <[1%positive := f32_buffer]> (<[2%positive := f32_buffer]> ∅);
     attrs := ∅ |}.

Definition scalar_arg : @PrimFunc lang :=
  {| params := [a; b];
     buffer_map := <[1%positive := f32_buffer]> ∅;
     attrs := ∅ |}.

Definition flagged : @PrimFunc lang :=
  {| params := [a]; buffer_map := <[1%positive := f32_buffer]> ∅;
     attrs := <[kIsEntryFunc := 1]> ∅ |}.

Definition gv_main : GlobalVar := {| gv_addr := 1; gv_name_hint := "main" |}.
Definition gv_foo : GlobalVar := {| gv_addr := 2; gv_name_hint := "foo" |}.
Definition gv_bar : GlobalVar := {| gv_addr := 3; gv_name_hint := "bar" |}.

(** Two functions, neither flagged, one of them named "main". *)
Definition mod_main_foo : @IRModule lang :=
  {| functions := [(gv_main, BFPrim matmul); (gv_foo, BFPrim scalar_arg)] |}.

(** Two functions, neither flagged, none named "main". *)
Definition mod_foo_bar : @IRModule lang :=
  {| functions := [(gv_foo, BFPrim matmul); (gv_bar, BFPrim scalar_arg)] |}.

(** One [PrimFunc] among functions of other kinds. *)
Definition mod_mixed : @IRModule lang :=
  {| functions := [(gv_main, BFOther "relax.expr.Function"); (gv_foo, BFPrim matmul);
                   (gv_bar, BFOther "relax.expr.ExternFunc")] |}.

Definition block (addr : positive) : Any := AnyObject "tir.BlockRV" addr.

Definition sample_compute_location (blk : positive) (d : Z) : Instruction :=
  {| kind := "SampleComputeLocation"; inputs := [block blk]; inst_attrs := [];
     decision := Some (AnyInt d) |}.

Definition get_block : Instruction :=
  {| kind := "GetBlock"; inputs := []; inst_attrs := [AnyStr "C"; AnyStr "main"];
     decision := None |}.

Definition enter_postproc : Instruction :=
  {| kind := "EnterPostproc"; inputs := []; inst_attrs := []; decision := None |}.

(** The only [SampleComputeLocation] samples for block 1, whose single legal
    location is the recorded one. *)
Definition trace_fixed : Trace :=
  {| insts := [get_block; sample_compute_location 1 (-1); enter_postproc] |}.

(** The [SampleComputeLocation] samples for block 2, which has two other
    legal locations. *)
Definition trace_free : Trace :=
  {| insts := [get_block; sample_compute_location 2 0; enter_postproc] |}.

Definition mutator : @MutateComputeLocationNode.t := {| MutateComputeLocationNode.json_mod_ := "{}" |}.

End Sample.

(** ** Further vocabulary: the [PrimFunc]s of a module *)

Section PrimFuncVocabulary.
Context `{TirLang}.

(** The entries of a function table that are [PrimFunc]s, in iteration order. *)
Definition prim_entries (l : list (GlobalVar * BaseFunc))
  : list (GlobalVar * PrimFunc) :=
  omap (λ e, (λ f, (e.1, f)) <$> as_PrimFunc e.2) l.

Definition prim_funcs (m : IRModule) : list (GlobalVar * PrimFunc) :=
  prim_entries (functions m).

Definition is_entry (p : GlobalVar * PrimFunc) : bool :=
  HasNonzeroAttr p.2 kIsEntryFunc.

Definition is_main (p : GlobalVar * PrimFunc) : bool :=
  String.eqb (gv_name_hint p.1) "main".

End PrimFuncVocabulary.

(** ** Further sample inputs *)
Module MoreSamples.

(** A module without functions, and one with functions of other kinds only. *)
Definition mod_empty : @IRModule Sample.lang := {| functions := [] |}.

Definition mod_relax_only : @IRModule Sample.lang :=
  {| functions := [(Sample.gv_main, BFOther "relax.expr.Function")] |}.

Definition c : Var := {| var_addr := 3; name_hint := "c" |}.

(** A function whose first parameter is bound and whose second and third
    are not. *)
Definition two_unbound : @PrimFunc Sample.lang :=
  {| params := [Sample.a; Sample.b; c];
     buffer_map := <[1%positive := Sample.f32_buffer]> ∅;
     attrs := ∅ |}.

(** A serialized descriptor with a tag of another variant, and one with a
    shape that holds a string. *)
Definition json_other_tag : Any :=
  AnyArray [AnyStr "SCALAR"; AnyStr "float32"; AnyArray [AnyInt 4; AnyInt 8]].

Definition json_tensor : Any :=
  AnyArray [AnyStr "TENSOR"; AnyStr "float32"; AnyArray [AnyInt 4; AnyInt 8]].

Definition json_bad_shape : Any :=
  AnyArray [AnyStr "TENSOR"; AnyStr "float32"; AnyArray [AnyInt 4; AnyStr "n"]].

End MoreSamples.

(** ** Further vocabulary: replays *)

Section ReplayVocabularyMore.
Context `{ScheduleEngine}.
Import MutateComputeLocationNode.

(** Every legal compute-at location of the block of instruction [i], in
    state [sch], is the recorded decision of [i] (read as an [int]). *)
Definition only_decision (sch : Schedule) (i : Instruction) : Prop :=
  ∃ d srefs idxs,
    GetDecision i = AnyInt d ∧
    legal_locations sch i srefs idxs ∧
    ∀ x, x ∈ idxs → x = to_int d.

(** [SampleInt] returns a value of the range it is asked for. *)
Definition SampleInt_in_range : Prop :=
  ∀ rand_state lo hi, lo < hi → lo ≤ (SampleInt rand_state lo hi).1 < hi.


End ReplayVocabularyMore.

(** ** Further sample inputs for the mutator *)
Module MutatorSamples.

(** A mutator that was never initialized: its workload is the empty string. *)
Definition fresh : @MutateComputeLocationNode.t :=
  {| MutateComputeLocationNode.json_mod_ := "" |}.


(** The sample engine with a primitive that rejects what it is given:
    "Split" fails with a schedule error. *)
Definition strict_engine : @ScheduleEngine Sample.lang := {|
  Schedule := @Schedule _ Sample.engine;
  StmtSRef := @StmtSRef _ Sample.engine;
  TRandState := @TRandState _ Sample.engine;
  ForkSeed := @ForkSeed _ Sample.engine;
  SampleInt := @SampleInt _ Sample.engine;
  SaveJSON := @SaveJSON _ Sample.engine;
  LoadJSON := @LoadJSON _ Sample.engine;
  Traced := @Traced _ Sample.engine;
  IsPostproc := @IsPostproc _ Sample.engine;
  TranslateInputRVs := @TranslateInputRVs _ Sample.engine;
  GetSRef := @GetSRef _ Sample.engine;
  CollectComputeLocation := @CollectComputeLocation _ Sample.engine;
  f_apply_to_schedule := λ sch i inputs attrs decision,
    if String.eqb (kind i) "Split"
    then Throw [Text "ScheduleError: the loop cannot be split"]
    else @f_apply_to_schedule _ Sample.engine sch i inputs attrs decision;
  WithDecision := @WithDecision _ Sample.engine
|}.

(** A trace without any [SampleComputeLocation]: a block is fetched and one
    of its loops is split. *)
Definition split : Instruction :=
  {| kind := "Split"; inputs := [Sample.block 1; AnyInt 4]; inst_attrs := [];
     decision := None |}.

Definition trace_split : Trace := {| insts := [Sample.get_block; split] |}.

End MutatorSamples.

(** * Target kinds and Relax helpers

    Shallow embedding of the functions of
    - [src/target/target_kind.cc]
    - [src/relax/backend/contrib/utils.cc]
    that work on strings, attribute maps and parameter lists. *)

(** ** Casts *)

(** The double quote, which the messages put around names. *)
Definition dquote : string := String (Ascii.ascii_of_nat 34) EmptyString.

(** [Downcast<String>(v)] and [v.cast<std::string>()] *)
Definition Downcast_String (v : Any) : Checked string :=
  match v with
  | AnyStr s => Done s
  | _ => Fatal [Str "Downcast to String failed: "; Val v]
  end.

(** [v.try_cast<String>()] *)
Definition try_cast_String (v : Any) : option string :=
  match v with
  | AnyStr s => Some s
  | _ => None
  end.

(** [v.cast<int>()]: an integer value, converted to [int]. *)
Definition cast_int (v : Any) : Checked Z :=
  match v with
  | AnyInt x => Done (MutateComputeLocationNode.to_int x)
  | _ => Fatal [Str "Cannot convert to int: "; Val v]
  end.

(** [Downcast<Array<String>>(v)] *)
Fixpoint all_strings (elems : list Any) : option (list string) :=
  match elems with
  | [] => Some []
  | AnyStr s :: rest => cons s <$> all_strings rest
  | _ :: _ => None
  end.

Definition Downcast_Array_String (v : Any) : Checked (list string) :=
  match v with
  | AnyArray elems =>
      match all_strings elems with
      | Some l => Done l
      | None => Fatal [Str "Downcast to Array<String> failed: "; Val v]
      end
  | _ => Fatal [Str "Downcast to Array<String> failed: "; Val v]
  end.

(** ** Strings *)

(** [std::isdigit] and [std::isalpha] in the "C" locale. *)
Definition isdigit (c : Ascii.ascii) : bool :=
  let n := Ascii.nat_of_ascii c in
  (48 <=? n)%nat && (n <=? 57)%nat.

Definition isalpha (c : Ascii.ascii) : bool :=
  let n := Ascii.nat_of_ascii c in
  ((65 <=? n)%nat && (n <=? 90)%nat) || ((97 <=? n)%nat && (n <=? 122)%nat).

(** [str.find(s)]: the position of the first occurrence of [s] in [str],
    if any. *)
Definition str_find (str s : string) : option nat := String.index 0 s str.

(** [str.substr(pos, len)] *)
Definition substr (str : string) (pos len : nat) : string :=
  String.substring pos len str.

(** [EndsWithPattern] (utils.cc, lines 74-77); [str.compare(pos, len, s)] is
    0 exactly when the [len] characters of [str] from [pos] are [s]. *)
Definition EndsWithPattern (str pattern : string) : bool :=
  if (String.length str <? String.length pattern)%nat then false
  else
    String.eqb
      (substr str (String.length str - String.length pattern) (String.length pattern))
      pattern.

(** The loop of [ExtractStringWithPrefix] (target_kind.cc, lines 115-117):
    [pos] advances while it is inside [str] and on a digit or a letter.
    Each turn advances [pos], so [String.length str] turns are enough. *)
Fixpoint ExtractStringWithPrefix_loop (fuel : nat) (str : string) (pos : nat) : nat :=
  match fuel with
  | O => pos
  | S fuel =>
      if (pos <? String.length str)%nat
         && match String.get pos str with
            | Some c => isdigit c || isalpha c
            | None => false
            end
      then ExtractStringWithPrefix_loop fuel str (S pos)
      else pos
  end.

(** [ExtractStringWithPrefix] (target_kind.cc, lines 112-119) *)
Definition ExtractStringWithPrefix (str prefix : string) : string :=
  match str_find str prefix with
  | Some O =>
      let pos :=
        ExtractStringWithPrefix_loop (String.length str) str (String.length prefix) in
      substr str (String.length prefix) (pos - String.length prefix)
  | _ => ""
  end.

(** ** [ExtractArgIdx] *)

(** [relax::Var]: compared by address. *)
Record RelaxVar := mkRelaxVar { relax_var_addr : positive; relax_name_hint : string }.

(** The pattern registry and the dataflow matcher are external: a registered
    pattern has a pattern and named annotation patterns (listed in the
    order in which the map is iterated); a match maps patterns to the
    expressions they matched. *)
Class PatternMatcher := {
  Expr : Type;
  Function : Type;
  DFPattern : Type;
  Bindings : Type;
  as_VarNode : Expr → option RelaxVar;
  fn_params : Function → list RelaxVar;
  inner_body : Function → Expr;
  GetPattern : string → option (DFPattern * list (string * DFPattern));
  AnalyzeVar2Value : Function → Bindings;
  ExtractMatchedExpr : DFPattern → Expr → Bindings → option (DFPattern → option Expr)
}.

(** The lambda [find_index] of [ExtractArgIdx] (utils.cc, lines 47-54) *)
Fixpoint find_index (params : list RelaxVar) (v : RelaxVar) : option nat :=
  match params with
  | [] => None
  | p :: rest =>
      if (relax_var_addr p =? relax_var_addr v)%positive then Some O
      else S <$> find_index rest v
  end.

Section ExtractArgIdx.
Context `{PatternMatcher}.

(** The loop over the annotation patterns (utils.cc, lines 56-63);
    [matched_expr[pat]] fails when [pat] matched nothing. *)
Fixpoint ExtractArgIdx_loop (annotation_patterns : list (string * DFPattern))
    (matched_expr : DFPattern → option Expr) (params : list RelaxVar)
    (arg_idx : gmap string Z) : Checked (gmap string Z) :=
  match annotation_patterns with
  | [] => Done arg_idx
  | (name, pat) :: rest =>
      match matched_expr pat with
      | None => Fatal [Str "KeyError: key is not in Map"]
      | Some exp =>
          let arg_idx :=
            match as_VarNode exp with
            | Some arg_var =>
                match find_index params arg_var with
                | Some idx => <[name := Z.of_nat idx]> arg_idx
                | None => arg_idx
                end
            | None => arg_idx
            end in
          ExtractArgIdx_loop rest matched_expr params arg_idx
      end
  end.

(** [ExtractArgIdx] (utils.cc, lines 34-66) *)
Definition ExtractArgIdx (pattern_name : string) (f : Function)
  : Checked (gmap string Z) :=
  match GetPattern pattern_name with
  | None => Fatal [Str "Unsupported op_type "; Str pattern_name]
  | Some (pattern, annotation_patterns) =>
      let bindings := AnalyzeVar2Value f in
      match ExtractMatchedExpr pattern (inner_body f) bindings with
      | None =>
          Fatal [Str "ValueError: "; Str "For named pattern "; Str dquote;
                 Str pattern_name; Str dquote;
                 Str ", expected to find a match for "; Shown "pattern.value()->pattern";
                 Str ".  However, the function did not include this pattern ";
                 Shown "f"]
      | Some matched_expr =>
          ExtractArgIdx_loop annotation_patterns matched_expr (fn_params f) ∅
      end
  end.

End ExtractArgIdx.

(** ** Target attribute updaters *)

(** [Device]: a device type and a device id. *)
Record Device := mkDevice { device_type : Z; device_id : Z }.

Definition kDLCUDA : Z := 2.
Definition kDLROCM : Z := 10.

(** The [runtime::DeviceAttrKind]s queried here. *)
Inductive DeviceAttrKind := kExist | kComputeVersion | kApiVersion.

(** What the updaters take from outside: the device API registry
    ([DeviceAPI::Get(device, allow_missing = true)], null when the API is
    not compiled in) and its attributes, [support::StartsWith],
    [std::to_string], the global function
    ["tvm_callback_rocm_get_arch"] when registered, and the floating-point
    computation [std::stod(version) * 10 + 0.1] converted to [int], which is
    not modelled: [arch_of_version] stands for its result. *)
Class TargetRuntime := {
  DeviceAPI : Type;
  DeviceAPI_Get : Device → option DeviceAPI;
  GetAttr : DeviceAPI → Device → DeviceAttrKind → Any;
  StartsWith : string → string → bool;
  to_string : Z → string;
  arch_of_version : string → Checked Z;
  f_get_rocm_arch : option (unit → Any)
}.

(** [TargetJSON]: the attributes of a target, by name. *)
Abbreviation TargetJSON := (gmap string Any).

(** [CheckOrSetAttr] (target_kind.cc, lines 146-155) *)
Definition CheckOrSetAttr (attrs : TargetJSON) (name value : string)
  : Checked TargetJSON :=
  match attrs !! name with
  | None => Done (<[name := AnyStr value]> attrs)
  | Some v =>
      match try_cast_String v with
      | Some str =>
          if String.eqb str value then Done attrs
          else Fatal [Str "ValueError: Expects "; Str dquote; Str name; Str dquote;
                      Str " to be "; Str dquote; Str value; Str dquote;
                      Str ", but gets: "; Val v]
      | None =>
          Fatal [Str "ValueError: Expects "; Str dquote; Str name; Str dquote;
                 Str " to be "; Str dquote; Str value; Str dquote;
                 Str ", but gets: "; Val v]
      end
  end.

Section TargetUpdaters.
Context `{TargetRuntime}.

(** [DeviceAPI::Get(device)], which insists on the API being there. *)
Definition DeviceAPI_Get_required (device : Device) : Checked DeviceAPI :=
  match DeviceAPI_Get device with
  | Some api => Done api
  | None => Fatal [Str "Device API is not enabled."]
  end.

(** [DetectDeviceFlag] (target_kind.cc, lines 128-144): the boolean it
    returns and the content of [*val] afterwards. *)
Definition DetectDeviceFlag (device : Device) (flag : DeviceAttrKind) (val : Any)
  : Checked (bool * Any) :=
  match DeviceAPI_Get device with
  | None => Done (false, val)
  | Some api =>
      let val := GetAttr api device kExist in
      and_then (cast_int val) (λ exists_,
        if exists_ =? 0 then Done (false, val)
        else
          and_then (DeviceAPI_Get_required device) (λ api',
            Done (true, GetAttr api' device flag)))
  end.

(** [UpdateCUDAAttrs] (target_kind.cc, lines 164-184); the warning logged
    when the version cannot be detected is not part of the model. *)
Definition UpdateCUDAAttrs (target : TargetJSON) : Checked TargetJSON :=
  match target !! "arch" with
  | Some v =>
      and_then (Downcast_String v) (λ archStr,
        if StartsWith archStr "sm_" then Done target
        else Fatal [Str "ValueError: CUDA target gets an invalid CUDA arch: -arch=";
                    Str archStr])
  | None =>
      and_then (DetectDeviceFlag (mkDevice kDLCUDA 0) kComputeVersion AnyNone)
        (λ '(detected, version),
           and_then
             (if negb detected then Done 50
              else and_then (Downcast_String version) arch_of_version)
             (λ archInt,
                Done (<["arch" := AnyStr ("sm_" +:+ to_string archInt)]> target)))
  end.

(** [UpdateNVPTXAttrs] (target_kind.cc, lines 191-212) *)
Definition UpdateNVPTXAttrs (target : TargetJSON) : Checked TargetJSON :=
  and_then (CheckOrSetAttr target "mtriple" "nvptx64-nvidia-cuda") (λ target,
    match target !! "mcpu" with
    | Some v =>
        and_then (Downcast_String v) (λ mcpu,
          if StartsWith mcpu "sm_" then Done target
          else Fatal [Str "ValueError: NVPTX target gets an invalid CUDA arch: -mcpu=";
                      Str mcpu])
    | None =>
        and_then (DetectDeviceFlag (mkDevice kDLCUDA 0) kComputeVersion AnyNone)
          (λ '(detected, version),
             and_then
               (if negb detected then Done 50
                else and_then (Downcast_String version) arch_of_version)
               (λ arch,
                  Done (<["mcpu" := AnyStr ("sm_" +:+ to_string arch)]> target)))
    end).

(** [UpdateROCmAttrs] (target_kind.cc, lines 219-255) *)
Definition UpdateROCmAttrs (target : TargetJSON) : Checked TargetJSON :=
  and_then (CheckOrSetAttr target "mtriple" "amdgcn-amd-amdhsa-hcc") (λ target,
  and_then
    (match target !! "mcpu" with
     | Some v =>
         and_then (Downcast_String v) (λ mcpu,
           let arch := ExtractStringWithPrefix mcpu "gfx" in
           if String.eqb arch "" then
             Fatal [Str "ValueError: ROCm target gets an invalid GFX version: -mcpu=";
                    Str mcpu]
           else Done target)
     | None =>
         and_then
           (match f_get_rocm_arch with
            | Some f => Downcast_String (f tt)
            | None => Done "gfx900"
            end)
           (λ arch, Done (<["mcpu" := AnyStr arch]> target))
     end) (λ target,
  and_then (DetectDeviceFlag (mkDevice kDLROCM 0) kApiVersion AnyNone)
    (λ '(detected, val),
  and_then (if negb detected then Done 305 else cast_int val) (λ version,
    if version <? 305 then
      and_then
        (match target !! "mattr" with
         | Some v => Downcast_Array_String v
         | None => Done []
         end)
        (λ mattr,
           Done (<["mattr" := AnyArray (AnyStr <$> (mattr ++ ["-code-object-v3"]))]>
                   target))
    else Done target)))).

End TargetUpdaters.

(** ** Vocabulary for strings and targets *)

(** Every character of [s] is a digit or a letter. *)
Fixpoint all_alnum (s : string) : bool :=
  match s with
  | EmptyString => true
  | String c s' => (isdigit c || isalpha c) && all_alnum s'
  end.

(** [s] is empty or starts with a character that is no digit and no letter. *)
Definition stops (s : string) : Prop :=
  match s with
  | EmptyString => True
  | String c _ => isdigit c || isalpha c = false
  end.

(** [support::StartsWith(str, prefix)] tells whether [str] starts with
    [prefix]. *)
Definition StartsWith_correct `{TargetRuntime} : Prop :=
  ∀ str prefix, StartsWith str prefix = true ↔ ∃ rest, str = prefix +:+ rest.

(** ** Sample collaborators for the targets *)
Module TargetSamples.

(** A machine with a CUDA device of compute version 8.6 and no ROCm. *)
Definition cuda_machine : TargetRuntime := {|
  DeviceAPI := unit;
  DeviceAPI_Get := λ d, if device_type d =? kDLCUDA then Some tt else None;
  GetAttr := λ _ _ flag,
    match flag with
    | kExist => AnyInt 1
    | kComputeVersion => AnyStr "8.6"
    | kApiVersion => AnyInt 0
    end;
  StartsWith := λ str prefix, String.prefix prefix str;
  to_string := λ z, pretty z;
  arch_of_version := λ s,
    if String.eqb s "8.6" then Done 86 else Fatal [Str "stod: "; Str s];
  f_get_rocm_arch := None
|}.

(** A machine without any device API. *)
Definition bare_machine : TargetRuntime := {|
  DeviceAPI := unit;
  DeviceAPI_Get := λ _, None;
  GetAttr := λ _ _ _, AnyNone;
  StartsWith := λ str prefix, String.prefix prefix str;
  to_string := λ z, pretty z;
  arch_of_version := λ s, Fatal [Str "stod: "; Str s];
  f_get_rocm_arch := None
|}.

Definition target_sm80 : TargetJSON :=
  <["arch" := AnyStr "sm_80"]> (<["max_num_threads" := AnyInt 1024]> ∅).

Definition target_plain : TargetJSON := <["max_num_threads" := AnyInt 1024]> ∅.

Definition target_gfx : TargetJSON := <["mcpu" := AnyStr "gfx90a:xnack+"]> ∅.

(** A pattern registry with one pattern, "dnnl.conv2d_relu", that names its
    input and weight; expressions are variables or something else. *)
Definition x : RelaxVar := mkRelaxVar 11 "x".
Definition w : RelaxVar := mkRelaxVar 12 "w".
Definition bias : RelaxVar := mkRelaxVar 13 "bias".

Definition matcher : PatternMatcher := {|
  Expr := option RelaxVar;
  Function := list RelaxVar;
  DFPattern := nat;
  Bindings := unit;
  as_VarNode := λ e, e;
  fn_params := λ f, f;
  inner_body := λ _, None;
  GetPattern := λ name,
    if String.eqb name "dnnl.conv2d_relu"
    then Some (0%nat, [("input", 1%nat); ("weight", 2%nat); ("root", 0%nat)])
    else None;
  AnalyzeVar2Value := λ _, tt;
  ExtractMatchedExpr := λ _ _ _,
    Some (λ pat, match pat with
                 | 0%nat => Some None
                 | 1%nat => Some (Some x)
                 | 2%nat => Some (Some w)
                 | _ => None
                 end)
|}.

End TargetSamples.

(** * Relax struct info

    - [src/relax/ir/struct_info.cc]

    The struct info of a Relax expression: what is known of its structure
    before it runs.  The constructors that check their arguments, the
    functions registered for the front end, and [UpdateStructInfo]. *)

(** What the file takes from outside: source spans, virtual devices and
    derivation functions, which it only stores; of a [PrimExpr], whether it
    is an [IntImm] and its dtype; [tvm::cast]; the dtypes
    [DataType::Int(64)] and [DataType::Void()]; the constant
    [kUnknownNDim]; and the default [Span()]. *)
Class RelaxLang `{TirLang} := {
  Span : Type;
  VDevice : Type;
  StructInfoDeriveFunc : Type;
  IsIntImm : PrimExpr → bool;
  expr_dtype : PrimExpr → DataType;
  tvm_cast : DataType → PrimExpr → PrimExpr;
  Int64 : DataType;
  Void : DataType;
  kUnknownNDim : Z;
  no_span : Span
}.

(** Of a Relax expression, the constructors look at its class and at its
    [struct_info_] field. *)
Inductive ExprKind := ShapeExprNode | VarNode | OtherExprNode.

Section StructInfo.
Context `{RelaxLang}.

(** The node classes of struct_info.h, with their fields; [RelaxExpr] is
    [relax::Expr]. *)
Inductive StructInfo :=
| ObjectStructInfoNode (span : Span)
| PrimStructInfoNode (dtype : DataType) (value : option PrimExpr) (span : Span)
| ShapeStructInfoNode (values : option (list PrimExpr)) (ndim : Z) (span : Span)
| TensorStructInfoNode (shape : option RelaxExpr) (dtype : DataType)
    (vdevice : option VDevice) (ndim : Z) (span : Span)
| TupleStructInfoNode (fields : list StructInfo) (span : Span)
| FuncStructInfoNode (params : option (list StructInfo)) (ret : StructInfo)
    (derive_func : option StructInfoDeriveFunc) (purity : bool) (span : Span)
with RelaxExpr :=
| mkRelaxExpr (expr_kind : ExprKind) (struct_info_ : option StructInfo).

Definition expr_kind (e : RelaxExpr) : ExprKind :=
  match e with mkRelaxExpr k _ => k end.

Definition struct_info_ (e : RelaxExpr) : option StructInfo :=
  match e with mkRelaxExpr _ s => s end.

(** The function mapped over the values by [ShapeStructInfo(values, span)]
    (struct_info.cc, lines 88-95) *)
Definition normalize_value (value : PrimExpr) : Checked PrimExpr :=
  if IsIntImm value then Done (tvm_cast Int64 value)
  else if decide (expr_dtype value = Int64) then Done value
  else Fatal [Str "the value in ShapeStructInfo can only have dtype of int64"].

(** [values.Map(f)]: the elements in order; the first failure ends it. *)
Fixpoint Map_checked (f : PrimExpr → Checked PrimExpr) (values : list PrimExpr)
  : Checked (list PrimExpr) :=
  match values with
  | [] => Done []
  | value :: rest =>
      and_then (f value) (λ value',
        and_then (Map_checked f rest) (λ rest', Done (value' :: rest')))
  end.

(** [ShapeStructInfo::ShapeStructInfo(Array<PrimExpr> values, Span span)]
    (struct_info.cc, lines 85-98); [static_cast<int>] of the size is
    [to_int]. *)
Definition ShapeStructInfo_values (values : list PrimExpr) (span : Span)
  : Checked StructInfo :=
  let ndim := MutateComputeLocationNode.to_int (Z.of_nat (length values)) in
  and_then (Map_checked normalize_value values) (λ values',
    Done (ShapeStructInfoNode (Some values') ndim span)).

(** [ShapeStructInfo::ShapeStructInfo(int ndim, Span span)]
    (struct_info.cc, lines 100-106) *)
Definition ShapeStructInfo_ndim (ndim : Z) (span : Span) : Checked StructInfo :=
  if ndim <? -1 then
    Fatal [Str "ndim of ShapeStructInfo must be >= -1, but got "; Val (AnyInt ndim)]
  else Done (ShapeStructInfoNode None ndim span).

(** The function registered as "relax.ShapeStructInfo"
    (struct_info.cc, lines 112-120) *)
Definition ffi_ShapeStructInfo (values : option (list PrimExpr)) (ndim : Z)
    (span : Span) : Checked StructInfo :=
  match values with
  | Some values =>
      if ndim =? kUnknownNDim then ShapeStructInfo_values values span
      else Fatal [Str "ValueError: Cannot both specify values and ndim"]
  | None => ShapeStructInfo_ndim ndim span
  end.

(** [TensorStructInfo::TensorStructInfo(Expr shape, DataType dtype,
    Optional<VDevice> vdevice, Span span)] (struct_info.cc, lines 124-140);
    [MatchStructInfo<ShapeStructInfo>(shape)] is the struct info of [shape]
    when that is a [ShapeStructInfoNode].  The shape of the model is never
    a null reference, so the second check cannot fail. *)
Definition TensorStructInfo_shape (shape : RelaxExpr) (dtype : DataType)
    (vdevice : option VDevice) (span : Span) : Checked StructInfo :=
  match struct_info_ shape with
  | Some (ShapeStructInfoNode _ ndim _) =>
      match expr_kind shape with
      | ShapeExprNode | VarNode =>
          Done (TensorStructInfoNode (Some shape) dtype vdevice ndim span)
      | OtherExprNode =>
          Fatal [Str "We require shape to be normalized when constructing TensorStructInfo"]
      end
  | _ => Fatal [Str "We expect shape to contain pre-set shape struct info"]
  end.

(** [TensorStructInfo::TensorStructInfo(DataType dtype, int ndim,
    Optional<VDevice> vdevice, Span span)] (struct_info.cc, lines 142-150) *)
Definition TensorStructInfo_ndim (dtype : DataType) (ndim : Z)
    (vdevice : option VDevice) (span : Span) : Checked StructInfo :=
  if ndim <? -1 then
    Fatal [Str "ndim of TensorStructInfo must be >= -1, but got "; Val (AnyInt ndim)]
  else Done (TensorStructInfoNode None dtype vdevice ndim span).

(** The function registered as "relax.TensorStructInfo"
    (struct_info.cc, lines 156-164) *)
Definition ffi_TensorStructInfo (shape : option RelaxExpr) (dtype : option DataType)
    (ndim : Z) (vdevice : option VDevice) (span : Span) : Checked StructInfo :=
  match shape with
  | Some shape =>
      if ndim =? kUnknownNDim
      then TensorStructInfo_shape shape (default Void dtype) vdevice span
      else Fatal [Str "ValueError: Cannot both specify shape and ndim"]
  | None => TensorStructInfo_ndim (default Void dtype) ndim vdevice span
  end.

(** [UpdateStructInfo] (struct_info.cc, lines 234-242): the expression
    afterwards. *)
Definition UpdateStructInfo (expr : RelaxExpr) (struct_info : StructInfo)
  : Checked RelaxExpr :=
  match struct_info_ expr with
  | Some _ =>
      Fatal [Str "To ensure idempotency, ";
             Str "the expression passed to UpdateStructInfo ";
             Str "must not have any prior StructInfo.  ";
             Str "However, expression "; Shown "expr";
             Str " has struct info "; Shown "expr->struct_info_";
             Str ", which cannot be overwritten with "; Shown "struct_info"]
  | None => Done (mkRelaxExpr (expr_kind expr) (Some struct_info))
  end.

(** *** Vocabulary *)

(** The [ndim] of a shape or tensor struct info. *)
Definition ndim_of (s : StructInfo) : option Z :=
  match s with
  | ShapeStructInfoNode _ ndim _ | TensorStructInfoNode _ _ _ ndim _ => Some ndim
  | _ => None
  end.

(** What the constructors keep of [ndim]: it is at least -1; the [ndim] of
    a shape with values is their number; the [ndim] of a tensor with a
    shape expression is the [ndim] of the shape's struct info. *)
Definition ndim_ok (s : StructInfo) : Prop :=
  match s with
  | ShapeStructInfoNode values ndim _ =>
      -1 ≤ ndim ∧ ∀ l, values = Some l → ndim = Z.of_nat (length l)
  | TensorStructInfoNode shape _ _ ndim _ =>
      -1 ≤ ndim
      ∧ ∀ e, shape = Some e → ∃ s', struct_info_ e = Some s' ∧ ndim_of s' = Some ndim
  | _ => True
  end.

End StructInfo.

Module StructInfoSamples.

(** Expressions that are integer immediates or symbolic variables. *)
Inductive expr := Imm (dtype : DataType) (value : Z) | Sym (dtype : DataType) (name : string).

Definition int32 : DataType := mkDataType 0 32 1.
Definition int64 : DataType := mkDataType 0 64 1.

Definition tir : TirLang := {|
  PrimExpr := expr;
  AsVector := λ l, (λ e, match e with Imm _ v => v | Sym _ _ => 0 end) <$> l
|}.

Definition relax : @RelaxLang tir := {|
  Span := unit;
  VDevice := unit;
  StructInfoDeriveFunc := unit;
  IsIntImm := λ e : @PrimExpr tir, match e with Imm _ _ => true | Sym _ _ => false end;
  expr_dtype := λ e : @PrimExpr tir, match e with Imm d _ | Sym d _ => d end;
  tvm_cast := λ d (e : @PrimExpr tir),
    match e with Imm _ v => Imm d v | Sym _ n => Sym d n end;
  Int64 := int64;
  Void := mkDataType 3 0 0;
  kUnknownNDim := -1;
  no_span := tt
|}.

(** The shape [(n, 4)] with [n] symbolic, and an expression holding it. *)
Definition shape_n_4 : list (@PrimExpr tir) := [Sym int64 "n"; Imm int32 4].

Definition shape_expr : @RelaxExpr tir relax :=
  mkRelaxExpr ShapeExprNode
    (Some (@ShapeStructInfoNode tir relax (Some [Sym int64 "n"; Imm int64 4]) 2 tt)).

Definition fresh_var : @RelaxExpr tir relax := mkRelaxExpr VarNode None.

End StructInfoSamples.

(** * Theorems *)

(** Case analysis on membership in a list given by its elements. *)
Ltac elem_of_literal H :=
  cbn in H;
  repeat (apply elem_of_cons in H as [H|H]; [simplify_eq H; intros; subst|]);
  try (apply elem_of_nil in H; destruct H).

(** ** [FindEntryFunc] *)

Section FindEntryFuncFacts.
Context `{TirLang}.

Lemma no_entry_flag_cons e l :
  no_entry_flag (e :: l) →
  (∀ f, e.2 = BFPrim f → HasNonzeroAttr f kIsEntryFunc = false) ∧ no_entry_flag l.
Proof.
  intros Hl. split.
  - intros f Hf. destruct e as [gv bf]; simpl in Hf; subst bf.
    apply (Hl gv). left.
  - intros gv f Hin. apply (Hl gv). now right.
Qed.

Lemma no_main_cons e l :
  no_main (e :: l) →
  (∀ f, e.2 = BFPrim f → gv_name_hint e.1 ≠ "main") ∧ no_main l.
Proof.
  intros Hl. split.
  - intros f Hf. destruct e as [gv bf]; simpl in *; subst bf.
    apply (Hl gv f). left.
  - intros gv f Hin. apply (Hl gv f). now right.
Qed.

Lemma no_prim_func_cons e l :
  no_prim_func (e :: l) → as_PrimFunc e.2 = None ∧ no_prim_func l.
Proof.
  intros Hl. split.
  - destruct e as [gv [f|k]]; simpl; [|done].
    exfalso. apply (Hl gv f). left.
  - intros gv f Hin. apply (Hl gv f). now right.
Qed.

(** Entries that are not [PrimFunc]s leave the three loop variables alone. *)
Lemma FindEntryFunc_loop_no_prim_func l n m la :
  no_prim_func l → FindEntryFunc_loop l n m la = inr (n, m, la).
Proof.
  revert n m la. induction l as [|[gv bf] l IH]; intros n m la Hl; [done|].
  apply no_prim_func_cons in Hl as [He Hl]. simpl in *. rewrite He. now apply IH.
Qed.

(** Without a flagged [PrimFunc] the loop runs to its end. *)
Lemma FindEntryFunc_loop_no_entry_flag l n m la :
  no_entry_flag l → ∃ n' m' la', FindEntryFunc_loop l n m la = inr (n', m', la').
Proof.
  revert n m la. induction l as [|[gv bf] l IH]; intros n m la Hl; [by eauto|].
  apply no_entry_flag_cons in Hl as [He Hl]. simpl in *.
  destruct bf as [f|k]; simpl; [|by apply IH].
  rewrite (He f eq_refl). by apply IH.
Qed.

(** A prefix without a flagged [PrimFunc] only changes the loop variables. *)
Lemma FindEntryFunc_loop_app_no_entry_flag pre l n m la :
  no_entry_flag pre →
  ∃ n' m' la',
    FindEntryFunc_loop (pre ++ l) n m la = FindEntryFunc_loop l n' m' la'.
Proof.
  revert n m la. induction pre as [|[gv bf] pre IH]; intros n m la Hl; [by eauto|].
  apply no_entry_flag_cons in Hl as [He Hl]. simpl in *.
  destruct bf as [f|k]; simpl; [|by apply IH].
  rewrite (He f eq_refl). by apply IH.
Qed.

(** Without flags and without a [PrimFunc] named "main", [main_func] keeps
    its value to the end of the loop. *)
Lemma FindEntryFunc_loop_no_main l n m la :
  no_entry_flag l → no_main l →
  ∃ n' la', FindEntryFunc_loop l n m la = inr (n', m, la').
Proof.
  revert n m la. induction l as [|[gv bf] l IH]; intros n m la Hf Hm; [by eauto|].
  apply no_entry_flag_cons in Hf as [He Hf].
  apply no_main_cons in Hm as [Hn Hm]. simpl in *.
  destruct bf as [f|k]; simpl; [|by apply IH].
  rewrite (He f eq_refl).
  destruct (String.eqb_spec (gv_name_hint gv) "main") as [Heq|_].
  - by destruct (Hn f eq_refl).
  - by apply IH.
Qed.

Lemma no_entry_flag_app l1 l2 :
  no_entry_flag (l1 ++ l2) → no_entry_flag l1 ∧ no_entry_flag l2.
Proof.
  intros Hl. split; intros gv f Hin; apply (Hl gv); apply elem_of_app; auto.
Qed.

(** Functions that are not [PrimFunc]s do not influence the loop. *)
Lemma FindEntryFunc_loop_filter l n m la :
  FindEntryFunc_loop (List.filter is_prim_func l) n m la
  = FindEntryFunc_loop l n m la.
Proof.
  revert n m la. induction l as [|[gv bf] l IH]; intros n m la; [done|].
  destruct bf as [f|k]; simpl.
  - destruct (HasNonzeroAttr f kIsEntryFunc); [done|]. apply IH.
  - apply IH.
Qed.

(** Priority 1: the first flagged [PrimFunc] is returned from the loop. *)
Lemma FindEntryFunc_flagged (m : IRModule) pre gv f post :
  functions m = pre ++ (gv, BFPrim f) :: post →
  no_entry_flag pre → HasNonzeroAttr f kIsEntryFunc = true →
  FindEntryFunc m = Ok f.
Proof.
  unfold FindEntryFunc. intros -> Hpre Hf.
  destruct (FindEntryFunc_loop_app_no_entry_flag pre ((gv, BFPrim f) :: post)
              0 None None Hpre) as (n' & m' & la' & ->).
  simpl. by rewrite Hf.
Qed.

(** Priority 2: without flags, the last [PrimFunc] named "main". *)
Lemma FindEntryFunc_main (m : IRModule) pre gv f post :
  functions m = pre ++ (gv, BFPrim f) :: post →
  no_entry_flag (functions m) → gv_name_hint gv = "main" → no_main post →
  FindEntryFunc m = Ok f.
Proof.
  unfold FindEntryFunc. intros Hm Hflags Hname Hpost. rewrite Hm in *.
  apply no_entry_flag_app in Hflags as [Hpre Hrest].
  destruct (FindEntryFunc_loop_app_no_entry_flag pre ((gv, BFPrim f) :: post)
              0 None None Hpre) as (n' & m' & la' & ->).
  apply no_entry_flag_cons in Hrest as [Hf Hrest]. simpl.
  rewrite (Hf f eq_refl), Hname. simpl.
  destruct (FindEntryFunc_loop_no_main post (n' + 1) (Some f) (Some f) Hrest Hpost)
    as (n'' & la'' & ->).
  done.
Qed.

(** Priority 3: the only [PrimFunc], when it is neither flagged nor "main". *)
Lemma FindEntryFunc_sole (m : IRModule) pre gv f post :
  functions m = pre ++ (gv, BFPrim f) :: post →
  HasNonzeroAttr f kIsEntryFunc = false → gv_name_hint gv ≠ "main" →
  no_prim_func pre → no_prim_func post →
  FindEntryFunc m = Ok f.
Proof.
  unfold FindEntryFunc. intros -> Hf Hname Hpre Hpost.
  assert (Hloop : FindEntryFunc_loop (pre ++ (gv, BFPrim f) :: post) 0 None None
                  = inr (1, None, Some f)).
  { induction pre as [|e pre IH]; simpl.
    - rewrite Hf. destruct (String.eqb_spec (gv_name_hint gv) "main"); [done|].
      by rewrite FindEntryFunc_loop_no_prim_func.
    - apply no_prim_func_cons in Hpre as [He Hpre]. destruct e as [gv' bf'].
      simpl in He. rewrite He. by apply IH. }
  by rewrite Hloop.
Qed.

(** C1. [FindEntryFunc] resolves the entry function by priority.  For every
    module: (1) the first [PrimFunc] in iteration order that carries a
    nonzero entry-function flag is returned; (2) when no [PrimFunc] is
    flagged, a [PrimFunc] named "main" is returned (the last one in
    iteration order, should several entries bear the name); (3) when no
    [PrimFunc] is flagged or named "main" and the module has exactly one
    [PrimFunc], that one is returned; in particular (4) a module whose only
    function is an unflagged [PrimFunc] named "main" resolves to it. *)
Theorem FindEntryFunc_priority (m : IRModule) :
  (∀ pre gv f post,
     functions m = pre ++ (gv, BFPrim f) :: post →
     no_entry_flag pre → HasNonzeroAttr f kIsEntryFunc = true →
     FindEntryFunc m = Ok f)
  ∧ (∀ pre gv f post,
       functions m = pre ++ (gv, BFPrim f) :: post →
       no_entry_flag (functions m) → gv_name_hint gv = "main" → no_main post →
       FindEntryFunc m = Ok f)
  ∧ (∀ pre gv f post,
       functions m = pre ++ (gv, BFPrim f) :: post →
       HasNonzeroAttr f kIsEntryFunc = false → gv_name_hint gv ≠ "main" →
       no_prim_func pre → no_prim_func post →
       FindEntryFunc m = Ok f)
  ∧ (∀ gv f,
       functions m = [(gv, BFPrim f)] →
       gv_name_hint gv = "main" → HasNonzeroAttr f kIsEntryFunc = false →
       FindEntryFunc m = Ok f).
Proof.
  split; [|split; [|split]].
  - apply FindEntryFunc_flagged.
  - apply FindEntryFunc_main.
  - apply FindEntryFunc_sole.
  - intros gv f Hm Hname Hf. apply (FindEntryFunc_main m [] gv f []); try done.
    + rewrite Hm. intros gv' f' Hin. elem_of_literal Hin. done.
    + intros gv' f' Hin. by apply elem_of_nil in Hin.
Qed.

End FindEntryFuncFacts.

(** C1, on a module that mixes the three situations. *)
Lemma FindEntryFunc_priority_witness :
  FindEntryFunc Sample.mod_main_foo = Ok Sample.matmul.
Proof.
  apply (proj1 (proj2 (FindEntryFunc_priority Sample.mod_main_foo))
           [] Sample.gv_main Sample.matmul [(Sample.gv_foo, BFPrim Sample.scalar_arg)]).
  - reflexivity.
  - intros gv f Hin. elem_of_literal Hin; reflexivity.
  - reflexivity.
  - intros gv f Hin. elem_of_literal Hin; done.
Defined.

Section EntryFuncErrors.
Context `{TirLang}.
Variable RemoveWeightLayoutRewriteBlock : bool → IRModule → IRModule.

(** C2, as amended.  For every module of two functions that are both
    [PrimFunc]s, neither flagged as entry function nor named "main",
    [FindEntryFunc] fails with the fatal error about multiple [PrimFunc]s,
    whose message includes the module, and so does
    [ArgInfo::FromEntryFunc] on the module it inspects: the module itself,
    or, with [remove_preproc], the module the preprocessing removal
    produces. *)
Theorem FindEntryFunc_two_untagged (m : IRModule) gv1 f1 gv2 f2 :
  functions m = [(gv1, BFPrim f1); (gv2, BFPrim f2)] →
  no_entry_flag (functions m) →
  no_main (functions m) →
  FindEntryFunc m = Throw (msg_multiple_prim_funcs m)
  ∧ ShowModule m ∈ msg_multiple_prim_funcs m
  ∧ FromEntryFunc RemoveWeightLayoutRewriteBlock m false
    = Throw (msg_multiple_prim_funcs m)
  ∧ (∀ m0, RemoveWeightLayoutRewriteBlock true m0 = m →
           FromEntryFunc RemoveWeightLayoutRewriteBlock m0 true
           = Throw (msg_multiple_prim_funcs m)).
Proof.
  intros Hm Hflags Hmain.
  assert (Hfind : FindEntryFunc m = Throw (msg_multiple_prim_funcs m)).
  { unfold FindEntryFunc. rewrite Hm in *.
    apply no_entry_flag_cons in Hflags as [Hf1 Hflags].
    apply no_entry_flag_cons in Hflags as [Hf2 _].
    apply no_main_cons in Hmain as [Hn1 Hmain].
    apply no_main_cons in Hmain as [Hn2 _].
    simpl in *. rewrite (Hf1 f1 eq_refl), (Hf2 f2 eq_refl).
    destruct (String.eqb_spec (gv_name_hint gv1) "main"); [by destruct (Hn1 f1)|].
    destruct (String.eqb_spec (gv_name_hint gv2) "main"); [by destruct (Hn2 f2)|].
    done. }
  split; [done|]. split; [|split].
  - unfold msg_multiple_prim_funcs. right. left.
  - unfold FromEntryFunc. by rewrite Hfind.
  - intros m0 Hm0. unfold FromEntryFunc. by rewrite Hm0, Hfind.
Qed.

(** C10. [FindEntryFunc] looks at [PrimFunc]s only.  Leaving every other
    function out of the module changes neither the function returned nor
    the kind of fatal error (the message names the module it was given);
    and a module with a single [PrimFunc] among any number of functions of
    other kinds resolves to that [PrimFunc]. *)
Theorem FindEntryFunc_ignores_other_functions (m : IRModule) :
  (∀ f, FindEntryFunc m = Ok f ↔ FindEntryFunc (only_prim_funcs m) = Ok f)
  ∧ (FindEntryFunc m = Throw (msg_no_prim_func m) ↔
     FindEntryFunc (only_prim_funcs m) = Throw (msg_no_prim_func (only_prim_funcs m)))
  ∧ (FindEntryFunc m = Throw (msg_multiple_prim_funcs m) ↔
     FindEntryFunc (only_prim_funcs m)
     = Throw (msg_multiple_prim_funcs (only_prim_funcs m)))
  ∧ (∀ pre gv f post,
       functions m = pre ++ (gv, BFPrim f) :: post →
       no_prim_func pre → no_prim_func post →
       FindEntryFunc m = Ok f).
Proof.
  unfold FindEntryFunc, only_prim_funcs. simpl.
  rewrite FindEntryFunc_loop_filter.
  split; [|split; [|split]].
  - intros f.
    destruct (FindEntryFunc_loop (functions m) 0 None None)
      as [g|[[n [g|]] la]]; try done.
    destruct (n =? 0); [done|]. by destruct (1 <? n).
  - destruct (FindEntryFunc_loop (functions m) 0 None None)
      as [g|[[n [g|]] la]]; try done.
    destruct (n =? 0); [done|].
    destruct (1 <? n); [done|]. by destruct la.
  - destruct (FindEntryFunc_loop (functions m) 0 None None)
      as [g|[[n [g|]] la]]; try done.
    destruct (n =? 0); [done|].
    destruct (1 <? n); [done|]. by destruct la.
  - intros pre gv f post Hm Hpre Hpost.
    destruct (HasNonzeroAttr f kIsEntryFunc) eqn:Hf.
    + eapply FindEntryFunc_flagged; eauto.
      intros gv' f' Hin. by destruct (Hpre gv' f').
    + destruct (String.eqb_spec (gv_name_hint gv) "main") as [Hname|Hname].
      * eapply FindEntryFunc_main; eauto.
        -- rewrite Hm. intros gv' f' Hin.
           apply elem_of_app in Hin as [Hin|Hin]; [by destruct (Hpre gv' f')|].
           apply elem_of_cons in Hin as [[= -> ->]|Hin]; [done|].
           by destruct (Hpost gv' f').
        -- intros gv' f' Hin. by destruct (Hpost gv' f').
      * eapply FindEntryFunc_sole; eauto.
Qed.

End EntryFuncErrors.

(** C2, as stated, fails: a module of two functions, neither flagged, one of
    them named "main", resolves to the function named "main" instead of
    raising an error. *)
Lemma FindEntryFunc_two_untagged_counterexample :
  length (functions Sample.mod_main_foo) = 2%nat
  ∧ no_entry_flag (functions Sample.mod_main_foo)
  ∧ FindEntryFunc Sample.mod_main_foo = Ok Sample.matmul
  ∧ FromEntryFunc Sample.no_pass Sample.mod_main_foo false
    = Ok [TensorInfo Float32 [1; 224; 224; 3]; TensorInfo Float32 [1; 224; 224; 3]].
Proof.
  split; [reflexivity|]. split; [|split; reflexivity].
  intros gv f Hin. elem_of_literal Hin; reflexivity.
Qed.

(** C2, as amended, on two functions named "foo" and "bar". *)
Lemma FindEntryFunc_two_untagged_witness :
  FindEntryFunc Sample.mod_foo_bar
  = Throw (msg_multiple_prim_funcs Sample.mod_foo_bar)
  ∧ ShowModule Sample.mod_foo_bar ∈ msg_multiple_prim_funcs Sample.mod_foo_bar
  ∧ FromEntryFunc Sample.no_pass Sample.mod_foo_bar false
    = Throw (msg_multiple_prim_funcs Sample.mod_foo_bar)
  ∧ (∀ m0, Sample.no_pass true m0 = Sample.mod_foo_bar →
           FromEntryFunc Sample.no_pass m0 true
           = Throw (msg_multiple_prim_funcs Sample.mod_foo_bar)).
Proof.
  apply (FindEntryFunc_two_untagged Sample.no_pass Sample.mod_foo_bar
           Sample.gv_foo Sample.matmul Sample.gv_bar Sample.scalar_arg).
  - reflexivity.
  - intros gv f Hin. elem_of_literal Hin; reflexivity.
  - intros gv f Hin. elem_of_literal Hin; discriminate.
Defined.

(** C10, on a [PrimFunc] between two functions of other kinds. *)
Lemma FindEntryFunc_ignores_other_functions_witness :
  FindEntryFunc Sample.mod_mixed = Ok Sample.matmul.
Proof.
  apply (proj2 (proj2 (proj2 (FindEntryFunc_ignores_other_functions Sample.mod_mixed)))
           [(Sample.gv_main, BFOther "relax.expr.Function")]
           Sample.gv_foo Sample.matmul
           [(Sample.gv_bar, BFOther "relax.expr.ExternFunc")]).
  - reflexivity.
  - intros gv f Hin. elem_of_literal Hin.
  - intros gv f Hin. elem_of_literal Hin.
Defined.

(** ** [ArgInfo::FromPrimFunc] *)

Section FromPrimFuncFacts.
Context `{TirLang}.

(** The descriptors of a list of parameters that are all bound. *)
Lemma FromPrimFunc_loop_bound func args result :
  (∀ arg, arg ∈ args → is_Some (buffer_map func !! var_addr arg)) →
  ∃ l, FromPrimFunc_loop func args result = Ok (result ++ l)
       ∧ length l = length args
       ∧ ∀ i arg buffer,
           args !! i = Some arg →
           buffer_map func !! var_addr arg = Some buffer →
           l !! i = Some (TensorInfo_of buffer).
Proof.
  revert result. induction args as [|arg args IH]; intros result Hbound.
  - exists []. by rewrite app_nil_r.
  - destruct (Hbound arg) as [buffer Hb]; [left|].
    destruct (IH (result ++ [TensorInfo_of buffer])) as (l & Hl & Hlen & Hnth).
    { intros arg' Hin. apply Hbound. by right. }
    exists (TensorInfo_of buffer :: l). simpl. rewrite Hb.
    split; [|split].
    + unfold TensorInfo_of in Hl. rewrite Hl. by rewrite <- app_assoc.
    + by rewrite Hlen.
    + intros [|i] arg' buffer' Hi Hb'; simpl in *.
      * by simplify_eq.
      * eauto.
Qed.

(** The loop stops at the first parameter without a buffer. *)
Lemma FromPrimFunc_loop_unbound func args result :
  (∃ arg, arg ∈ args ∧ buffer_map func !! var_addr arg = None) →
  ∃ arg, arg ∈ args ∧ buffer_map func !! var_addr arg = None
         ∧ FromPrimFunc_loop func args result = Throw (msg_unsupported_argument arg).
Proof.
  revert result. induction args as [|arg args IH]; intros result (arg' & Hin & Hnone).
  - by apply elem_of_nil in Hin.
  - simpl. destruct (buffer_map func !! var_addr arg) as [buffer|] eqn:Hb.
    + apply elem_of_cons in Hin as [->|Hin]; [congruence|].
      destruct (IH (result ++ [TensorInfo (dtype buffer) (AsVector (shape buffer))]))
        as (arg'' & Hin'' & Hnone'' & Hthrow); [by eauto|].
      exists arg''. split; [by right|done].
    + exists arg. split; [left|done].
Qed.

(** C5. For every [PrimFunc]: when all parameters are bound to buffers,
    [ArgInfo::FromPrimFunc] returns one [TensorInfo] per parameter, in
    parameter order, each with the dtype and the shape of the buffer its
    parameter is bound to, so that the result is as long as the parameter
    list; when some parameter is not bound to a buffer, it fails with the
    unsupported-argument error for such a parameter. *)
Theorem FromPrimFunc_descriptors (func : PrimFunc) :
  ((∀ arg, arg ∈ params func → is_Some (buffer_map func !! var_addr arg)) →
   ∃ l, FromPrimFunc func = Ok l
        ∧ length l = length (params func)
        ∧ ∀ i arg buffer,
            params func !! i = Some arg →
            buffer_map func !! var_addr arg = Some buffer →
            l !! i = Some (TensorInfo (dtype buffer) (AsVector (shape buffer))))
  ∧ ((∃ arg, arg ∈ params func ∧ buffer_map func !! var_addr arg = None) →
     ∃ arg, arg ∈ params func ∧ buffer_map func !! var_addr arg = None
            ∧ FromPrimFunc func = Throw (msg_unsupported_argument arg)).
Proof.
  split.
  - intros Hbound.
    destruct (FromPrimFunc_loop_bound func (params func) [] Hbound)
      as (l & Hl & Hlen & Hnth).
    exists l. by repeat split.
  - apply FromPrimFunc_loop_unbound.
Qed.

End FromPrimFuncFacts.

(** C5, on a function of two tensor parameters and on one whose second
    parameter has no buffer. *)
Lemma FromPrimFunc_descriptors_witness :
  (∃ l, FromPrimFunc Sample.matmul = Ok l ∧ length l = 2%nat)
  ∧ (∃ arg, FromPrimFunc Sample.scalar_arg = Throw (msg_unsupported_argument arg)).
Proof.
  split.
  - destruct (proj1 (FromPrimFunc_descriptors Sample.matmul)) as (l & Hl & Hlen & _).
    + intros arg Hin. elem_of_literal Hin; vm_compute; eauto.
    + exists l. split; [exact Hl|exact Hlen].
  - destruct (proj2 (FromPrimFunc_descriptors Sample.scalar_arg))
      as (arg & _ & _ & Hthrow).
    + exists Sample.b. split; [|reflexivity]. right; left.
    + exists arg. exact Hthrow.
Defined.

(** ** JSON form of [ArgInfo] *)

Section JSONFacts.
Context `{TirLang} `{DTypeCodec}.

(** Reading back a serialized shape. *)
Lemma AsIntArray_AsArray (shape : list Z) :
  AsIntArray (AnyArray (AsArray shape)) = Ok shape.
Proof.
  unfold AsIntArray, AsArray. induction shape as [|v shape IH]; [done|].
  rewrite fmap_cons. cbn [AsIntArray_elems]. by rewrite IH.
Qed.

Lemma TensorInfo_FromJSON_AsJSON dtype shape :
  StringToDLDataType (DLDataTypeToString dtype) = Some dtype →
  TensorInfo_FromJSON (AsJSON (TensorInfo dtype shape)) = Ok (TensorInfo dtype shape).
Proof.
  intros Hcodec. unfold TensorInfo_FromJSON, TensorInfo_FromJSON_try, AsJSON.
  cbn [length Nat.eqb at_ lookup list_lookup bind cast_String].
  rewrite Hcodec. cbn [bind cast_ObjectRef]. rewrite AsIntArray_AsArray. done.
Qed.

(** C3. Round trip: for every [TensorInfo], provided the string form of its
    dtype parses back to that dtype, the serialization is the tagged array
    of the tag "TENSOR", the dtype string and the shape, and deserializing it
    ([TensorInfo::FromJSON], and [ArgInfo::FromJSON] through the tag) yields
    the [TensorInfo] again; in particular for dtype "float32" and shape
    [1, 224, 224, 3]. *)
Theorem TensorInfo_json_roundtrip dtype shape :
  StringToDLDataType (DLDataTypeToString dtype) = Some dtype →
  AsJSON (TensorInfo dtype shape)
  = AnyArray [AnyStr "TENSOR"; AnyStr (DLDataTypeToString dtype);
              AnyArray (AnyInt <$> shape)]
  ∧ TensorInfo_FromJSON (AsJSON (TensorInfo dtype shape)) = Ok (TensorInfo dtype shape)
  ∧ ArgInfo_FromJSON (AsJSON (TensorInfo dtype shape)) = Ok (TensorInfo dtype shape).
Proof.
  intros Hcodec. split; [done|]. split.
  - by apply TensorInfo_FromJSON_AsJSON.
  - unfold ArgInfo_FromJSON.
    change (ArgInfo_FromJSON_tag (AsJSON (TensorInfo dtype shape))) with (@Ok _ string "TENSOR").
    cbn [String.eqb Ascii.eqb Bool.eqb]. by apply TensorInfo_FromJSON_AsJSON.
Qed.

(** C4. [ArgInfo::FromJSON] validates the serialized form: a payload that is
    not an array, or whose first element is not the string "TENSOR" (an
    empty array, a first element that is no string, the tag of no known
    variant), or whose arity is not 3, is rejected with the fatal parse
    error, whose message includes the payload; no [ArgInfo] is returned. *)
Theorem ArgInfo_FromJSON_rejects (json_obj : Any) :
  tag_of json_obj ≠ Some "TENSOR" ∨ arity_of json_obj ≠ Some 3%nat →
  ∃ rest,
    ArgInfo_FromJSON json_obj = Throw (msg_unable_to_parse json_obj ++ rest)
    ∧ ShowObject json_obj ∈ msg_unable_to_parse json_obj ++ rest.
Proof.
  intros Hbad.
  assert (Hshow : ∀ rest, ShowObject json_obj ∈ msg_unable_to_parse json_obj ++ rest).
  { intros rest. apply elem_of_app. left. unfold msg_unable_to_parse. right. left. }
  unfold ArgInfo_FromJSON, ArgInfo_FromJSON_tag.
  destruct json_obj as [|v|s|elems|k addr];
    try (eexists; split; [reflexivity|apply Hshow]).
  destruct elems as [|x elems]; [eexists; split; [reflexivity|apply Hshow]|].
  destruct x as [|v|tag|elems'|k addr];
    try (eexists; split; [reflexivity|apply Hshow]).
  cbn [length Nat.leb at_ lookup list_lookup bind cast_String].
  destruct (String.eqb_spec tag "TENSOR") as [->|Hne].
  - destruct Hbad as [Htag|Harity]; [done|].
    unfold TensorInfo_FromJSON, TensorInfo_FromJSON_try.
    destruct (Nat.eqb_spec (length (AnyStr "TENSOR" :: elems)) 3) as [Hlen|Hlen].
    + destruct Harity. simpl. by rewrite <- Hlen.
    + eexists; split; [reflexivity|apply Hshow].
  - exists []. rewrite app_nil_r. split; [done|].
    rewrite <- (app_nil_r (msg_unable_to_parse _)). apply Hshow.
Qed.

End JSONFacts.

(** C3, on the descriptor of a float32 tensor of shape [1, 224, 224, 3]. *)
Lemma TensorInfo_json_roundtrip_witness :
  @AsJSON Sample.codec (TensorInfo Float32 [1; 224; 224; 3])
  = AnyArray [AnyStr "TENSOR"; AnyStr "float32";
              AnyArray [AnyInt 1; AnyInt 224; AnyInt 224; AnyInt 3]]
  ∧ @TensorInfo_FromJSON Sample.lang Sample.codec
      (@AsJSON Sample.codec (TensorInfo Float32 [1; 224; 224; 3]))
    = Ok (TensorInfo Float32 [1; 224; 224; 3])
  ∧ @ArgInfo_FromJSON Sample.lang Sample.codec
      (@AsJSON Sample.codec (TensorInfo Float32 [1; 224; 224; 3]))
    = Ok (TensorInfo Float32 [1; 224; 224; 3]).
Proof.
  apply (@TensorInfo_json_roundtrip Sample.lang Sample.codec Float32 [1; 224; 224; 3]).
  reflexivity.
Defined.

(** C4, on a tensor-tagged array of two elements. *)
Lemma ArgInfo_FromJSON_rejects_witness :
  ∃ rest,
    @ArgInfo_FromJSON Sample.lang Sample.codec
      (AnyArray [AnyStr "TENSOR"; AnyStr "float32"])
    = Throw (msg_unable_to_parse (AnyArray [AnyStr "TENSOR"; AnyStr "float32"]) ++ rest)
    ∧ ShowObject (AnyArray [AnyStr "TENSOR"; AnyStr "float32"])
      ∈ msg_unable_to_parse (AnyArray [AnyStr "TENSOR"; AnyStr "float32"]) ++ rest.
Proof.
  apply (@ArgInfo_FromJSON_rejects Sample.lang Sample.codec
           (AnyArray [AnyStr "TENSOR"; AnyStr "float32"])).
  right. discriminate.
Defined.

(** ** The artifact-cleanup callback *)

Section RemoveBuildArtifactFacts.
Context `{RemovalCapability}.
Variables TaskScheduler MeasureCandidate RunnerResult : Type.
Import RemoveBuildArtifactNode.


(** The loop over a round in two parts. *)
Lemma Apply_loop_app f_rm (results1 results2 : list BuilderResult) (st : Effects) :
  Apply_loop f_rm (results1 ++ results2) st
  = match Apply_loop f_rm results1 st with
    | (Done _, st1) => Apply_loop f_rm results2 st1
    | (Fatal msg, st1) => (Fatal msg, st1)
    end.
Proof.
  revert st. induction results1 as [|r results1 IH]; intros st; simpl; [done|].
  destruct (artifact_path r) as [path|]; [|apply IH].
  destruct (call_f_rm f_rm path st) as [[[]|msg] st']; [apply IH|done].
Qed.

(** The calls the loop makes: every defined path in order when it returns,
    the defined paths up to the one whose removal threw otherwise. *)
Lemma Apply_loop_calls f_rm (builder_results : list BuilderResult)
    (st st' : Effects) (r : Checked unit) :
  Apply_loop f_rm builder_results st = (r, st') →
  match r with
  | Done _ =>
      removed st' = removed st ++ omap artifact_path builder_results
      ∧ world st' = foldl (λ w path, (f_rm path w).2) (world st)
                      (omap artifact_path builder_results)
  | Fatal msg =>
      ∃ pre path post,
        omap artifact_path builder_results = pre ++ path :: post
        ∧ removed st' = removed st ++ pre ++ [path]
        ∧ f_rm path (foldl (λ w path, (f_rm path w).2) (world st) pre)
          = (Fatal msg, world st')
  end.
Proof.
  revert st. induction builder_results as [|b rs IH]; intros st; simpl.
  - intros [= <- <-]. by rewrite app_nil_r.
  - change (list_omap _ _ artifact_path rs) with (omap artifact_path rs).
    destruct (artifact_path b) as [path|]; [|apply IH].
    unfold call_f_rm. destruct (f_rm path (world st)) as [[[]|msg] w] eqn:Hcall.
    + intros Hloop. specialize (IH _ Hloop). simpl in IH.
      destruct r as [[]|msg].
      * destruct IH as [-> ->]. simpl. rewrite Hcall.
        by rewrite <- app_assoc.
      * destruct IH as (pre & path' & post & -> & -> & Hfail).
        exists (path :: pre), path', post. simpl. rewrite Hcall.
        split; [done|]. split; [by rewrite <- app_assoc|done].
    + intros [= <- <-]. exists [], path, (omap artifact_path rs). simpl.
      by rewrite Hcall.
Qed.


(** No defined path: every result of the round is without artifact. *)
Lemma omap_artifact_path_nil (builder_results : list BuilderResult) :
  omap artifact_path builder_results = []
  ↔ ∀ r, r ∈ builder_results → artifact_path r = None.
Proof.
  induction builder_results as [|r rs IH]; simpl.
  - split; [|done]. intros _ r Hin. by apply elem_of_nil in Hin.
  - change (list_omap _ _ artifact_path rs) with (omap artifact_path rs).
    destruct (artifact_path r) as [path|] eqn:Hr.
    + split; [done|]. intros Hall. by rewrite (Hall r) in Hr; [|left].
    + rewrite IH. split.
      * intros Hall r' Hin. apply elem_of_cons in Hin as [->|Hin]; auto.
      * intros Hall r' Hin. apply Hall. by right.
Qed.


End RemoveBuildArtifactFacts.



(** ** The compute-location mutator *)

Section MutatorFacts.
Context `{ScheduleEngine}.
Import MutateComputeLocationNode.

Lemma to_int_is_int v : is_int v → to_int v = v.
Proof.
  unfold is_int, to_int.
  change (2 ^ 31) with 2147483648. change (2 ^ 32) with 4294967296.
  intros Hv. rewrite Z.mod_small; lia.
Qed.

Lemma find_Some x l k : find x l = Some k → l !! k = Some x.
Proof.
  revert k. induction l as [|y l IH]; intros k; simpl; [done|].
  destruct (Z.eqb_spec y x) as [->|Hne].
  - by intros [= <-].
  - destruct (find x l) as [k'|]; simpl; [|done].
    intros [= <-]. by apply IH.
Qed.

Lemma find_None x l : find x l = None → x ∉ l.
Proof.
  induction l as [|y l IH]; simpl; intros Hfind Hin.
  - by apply elem_of_nil in Hin.
  - destruct (Z.eqb_spec y x) as [->|Hne]; [done|].
    destruct (find x l); [done|].
    apply elem_of_cons in Hin as [->|Hin]; [done|]. by apply IH.
Qed.

(** Erasing the position of [x] from a duplicate-free vector leaves
    exactly the elements other than [x]. *)
Lemma elem_of_erase (l : list Z) k x y :
  NoDup l → l !! k = Some x → y ∈ erase k l ↔ y ∈ l ∧ y ≠ x.
Proof.
  unfold erase. revert k. induction l as [|a l IH]; intros k Hdup Hk; [done|].
  apply NoDup_cons in Hdup as [Ha Hdup].
  destruct k as [|k]; simpl in *.
  - injection Hk as ->. rewrite elem_of_cons. split.
    + intros Hy. split; [by right|]. by intros ->.
    + by intros [[->|Hy] Hne].
  - rewrite !elem_of_cons, (IH k Hdup Hk). split.
    + intros [->|[Hy Hne]]; [|by auto].
      split; [by left|]. intros ->. apply Ha. by eapply list_elem_of_lookup_2.
    + intros [[->|Hy] Hne]; auto.
Qed.

(** The post-processing stripped from a trace is a suffix of it. *)
Lemma strip_postproc_prefix l : ∃ rest, l = strip_postproc l ++ rest.
Proof.
  induction l as [|i l [rest IH]]; [by exists []|].
  simpl. destruct (strip_postproc l) as [|j l'].
  - destruct (IsPostproc (kind i)).
    + by exists (i :: l).
    + exists l. done.
  - exists rest. simpl in *. by rewrite <- IH.
Qed.

(** The observing provider only appends to what it has seen. *)
Lemma ApplyToSchedule_loop_observe l sch seen :
  ApplyToSchedule_loop observe l sch seen
  = bind (ApplyToSchedule_loop observe l sch [])
      (λ '(sch', new), Ok (sch', seen ++ new)).
Proof.
  revert sch seen. induction l as [|i l IH]; intros sch seen; simpl.
  - by rewrite app_nil_r.
  - destruct (f_apply_to_schedule sch i (TranslateInputRVs sch (inputs i))
                (inst_attrs i) (GetDecision i)) as [sch1|what]; simpl; [|done].
    rewrite (IH sch1 (seen ++ [(sch, i)])), (IH sch1 [(sch, i)]).
    destruct (ApplyToSchedule_loop observe l sch1 []) as [[sch' new]|what]; simpl; [|done].
    by rewrite <- app_assoc.
Qed.

(** The instructions a replay visits are instructions of the list replayed. *)
Lemma ApplyToSchedule_loop_observe_insts l sch sch' visited s i :
  ApplyToSchedule_loop observe l sch [] = Ok (sch', visited) →
  (s, i) ∈ visited → i ∈ l.
Proof.
  revert sch visited. induction l as [|j l IH]; intros sch visited; simpl.
  - intros [= _ <-] Hin. by apply elem_of_nil in Hin.
  - destruct (f_apply_to_schedule sch j (TranslateInputRVs sch (inputs j))
                (inst_attrs j) (GetDecision j)) as [sch1|what]; simpl; [|done].
    rewrite ApplyToSchedule_loop_observe.
    destruct (ApplyToSchedule_loop observe l sch1 []) as [[sch2 new]|what] eqn:Hl;
      simpl; [|done].
    intros [= -> <-] Hin.
    apply elem_of_cons in Hin as [[= _ ->]|Hin]; [left|right].
    by eapply IH.
Qed.

(** What one call of the decision provider does: it never overrides the
    decision, and it records at most one candidate, for the instruction it
    was called on. *)
Lemma f_decision_provider_inv sch i attrs cands d' cands' :
  f_decision_provider sch i (TranslateInputRVs sch (inputs i)) attrs
    (GetDecision i) cands = Ok (d', cands') →
  d' = GetDecision i
  ∧ (cands' = cands ∨ ∃ c, cands' = cands ++ [c] ∧ inst c = i ∧ recorded_in sch c).
Proof.
  unfold f_decision_provider.
  destruct (same_as (kind i) inst_sample_compute_location) eqn:Hkind;
    [|intros [= <- <-]; auto].
  apply String.eqb_eq in Hkind.
  destruct (TranslateInputRVs sch (inputs i)) as [|b [|b' l]] eqn:Hin; simpl; try done.
  destruct (GetSRef sch b) as [block_sref|what] eqn:Hsref; simpl; [|done].
  destruct (GetDecision i) as [|d| | |] eqn:Hd; simpl; try done.
  destruct (CollectComputeLocation sch block_sref) as [srefs idxs] eqn:Hloc.
  assert (Hlegal : legal_locations sch i srefs idxs) by (exists b, block_sref; auto).
  destruct (find (to_int d) idxs) as [k|] eqn:Hfind.
  - destruct (Nat.eqb_spec (length (erase k srefs)) (length (erase k idxs)))
      as [Hlen|Hlen]; [|done].
    destruct (erase k srefs) as [|sref srefs'] eqn:Hsrefs; intros [= <- <-]; [auto|].
    split; [done|]. right. eexists (mkCandidate i _). repeat split; simpl; try done.
    exists d, srefs, idxs. repeat split; try done.
    + intros Hnil. by rewrite Hnil in Hlen.
    + right. by exists k.
  - destruct (Nat.eqb_spec (length srefs) (length idxs)) as [Hlen|Hlen]; [|done].
    destruct srefs as [|sref srefs'] eqn:Hsrefs; intros [= <- <-]; [auto|].
    split; [done|]. right. eexists (mkCandidate i _). repeat split; simpl; try done.
    exists d, (sref :: srefs'), idxs. repeat split; try done.
    + intros Hnil. by rewrite Hnil in Hlen.
    + by left.
Qed.

(** An instruction that is no [SampleComputeLocation], or one without a
    legal alternative to its decision, yields no candidate. *)
Lemma f_decision_provider_no_candidate sch i attrs cands :
  (kind i = inst_sample_compute_location → no_alternative sch i) →
  f_decision_provider sch i (TranslateInputRVs sch (inputs i)) attrs
    (GetDecision i) cands = Ok (GetDecision i, cands).
Proof.
  unfold f_decision_provider. intros Hno.
  destruct (same_as (kind i) inst_sample_compute_location) eqn:Hkind; [|done].
  apply String.eqb_eq in Hkind.
  destruct (Hno Hkind)
    as (d & srefs & idxs & Hd & (b & block_sref & Hin & Hsref & Hloc)
        & Hlen & Hint & Hdup & Honly).
  rewrite Hin, Hd. simpl. rewrite Hsref. simpl. rewrite Hloc.
  destruct idxs as [|x idxs].
  - destruct srefs; [done|discriminate].
  - assert (x = d) as -> by (apply Honly; left).
    destruct idxs as [|y idxs].
    + apply Forall_cons in Hint as [Hint _]. rewrite (to_int_is_int d Hint).
      simpl. rewrite Z.eqb_refl.
      destruct srefs as [|s [|s' srefs]]; try discriminate. done.
    + assert (y = d) as -> by (apply Honly; right; left).
      apply NoDup_cons in Hdup as [Hnotin _]. destruct Hnotin. left.
Qed.

(** The replay run by [FindCandidates] is the plain replay: it visits the
    same instructions in the same states, and every candidate it adds was
    recorded for one of them. *)
Lemma FindCandidates_loop_inv l sch cands sch' cands' :
  ApplyToSchedule_loop f_decision_provider l sch cands = Ok (sch', cands') →
  ∃ visited new,
    ApplyToSchedule_loop observe l sch [] = Ok (sch', visited)
    ∧ cands' = cands ++ new
    ∧ Forall (λ c, ∃ s, (s, inst c) ∈ visited ∧ recorded_in s c) new.
Proof.
  revert sch cands. induction l as [|i l IH]; intros sch cands; simpl.
  - intros [= <- <-]. exists [], []. by rewrite app_nil_r.
  - destruct (f_decision_provider sch i (TranslateInputRVs sch (inputs i))
                (inst_attrs i) (GetDecision i) cands) as [[d' c1]|what] eqn:Hp;
      simpl; [|done].
    apply f_decision_provider_inv in Hp as [-> Hc1].
    destruct (f_apply_to_schedule sch i (TranslateInputRVs sch (inputs i))
                (inst_attrs i) (GetDecision i)) as [sch1|what]; simpl; [|done].
    intros Hl. apply IH in Hl as (visited & new & Hobs & -> & Hall).
    rewrite ApplyToSchedule_loop_observe, Hobs. simpl.
    assert (Hall' : Forall (λ c, ∃ s, (s, inst c) ∈ (sch, i) :: visited
                                      ∧ recorded_in s c) new).
    { eapply Forall_impl; [exact Hall|]. intros c (s & Hin & Hrec).
      exists s. split; [by right|done]. }
    exists ((sch, i) :: visited).
    destruct Hc1 as [->|(c & -> & Hinst & Hrec)].
    + exists new. by repeat split.
    + exists (c :: new). split; [done|]. split; [by rewrite <- app_assoc|].
      apply Forall_cons. split; [|done].
      exists sch. split; [|done]. rewrite Hinst. left.
Qed.

(** When no visited [SampleComputeLocation] has an alternative, the replay
    of [FindCandidates] adds no candidate. *)
Lemma FindCandidates_loop_no_candidates l sch cands sch' visited :
  ApplyToSchedule_loop observe l sch [] = Ok (sch', visited) →
  (∀ s i, (s, i) ∈ visited → kind i = inst_sample_compute_location →
          no_alternative s i) →
  ApplyToSchedule_loop f_decision_provider l sch cands = Ok (sch', cands).
Proof.
  revert sch cands visited. induction l as [|i l IH]; intros sch cands visited; simpl.
  - by intros [= <- <-] _.
  - destruct (f_apply_to_schedule sch i (TranslateInputRVs sch (inputs i))
                (inst_attrs i) (GetDecision i)) as [sch1|what] eqn:Hstep;
      simpl; [|done].
    rewrite ApplyToSchedule_loop_observe.
    destruct (ApplyToSchedule_loop observe l sch1 []) as [[sch2 new]|what] eqn:Hl;
      simpl; [|done].
    intros [= -> <-] Hno.
    rewrite f_decision_provider_no_candidate by (apply Hno; left).
    simpl. rewrite Hstep. simpl.
    eapply IH; [exact Hl|]. intros s j Hin. apply Hno. by right.
Qed.

Lemma vector_at_inv {A} (v : list A) k x :
  vector_at v k = Ok x → 0 ≤ k ∧ v !! Z.to_nat k = Some x.
Proof.
  unfold vector_at. destruct (Z.leb_spec 0 k); [|done].
  destruct (v !! Z.to_nat k); [|done]. by intros [= ->].
Qed.

(** A trace without any [SampleComputeLocation] that replays on the
    workload is left alone. *)
Lemma Apply_without_sample_instruction (self : t) (trace : Trace)
    (rand_state : TRandState) (visited : list (Schedule * Instruction)) :
  replay self trace (ForkSeed rand_state).1 = Ok visited →
  (∀ i, i ∈ insts trace → kind i ≠ inst_sample_compute_location) →
  Apply self trace rand_state = (Ok None, (ForkSeed rand_state).2).
Proof.
  unfold Apply, FindCandidates, replay, ApplyToSchedule.
  destruct (ForkSeed rand_state) as [seed rs]. simpl.
  destruct (LoadJSON (json_mod_ self)) as [m|what]; simpl; [|done].
  destruct (ApplyToSchedule_loop observe (strip_postproc (insts trace))
              (Traced m seed) []) as [[sch' seen]|what] eqn:Hobs; simpl; [|done].
  intros [= ->] Hno.
  rewrite (FindCandidates_loop_no_candidates _ _ [] _ _ Hobs); [done|].
  intros s i Hin Hkind. destruct (Hno i); [|done].
  destruct (strip_postproc_prefix (insts trace)) as [rest Hrest].
  rewrite Hrest. apply elem_of_app. left.
  by eapply ApplyToSchedule_loop_observe_insts.
Qed.

(** C6, as amended.  When the replay of the trace on the mutator's workload
    runs through and no [SampleComputeLocation] instruction it visits has a
    legal compute-at location other than its recorded decision, [Apply] returns
    the empty optional ("no mutation"): neither an error nor a trace.  The
    condition on the instructions holds in particular when the trace has no
    [SampleComputeLocation] at all, and when its only one has its decision
    as single legal location. *)
Theorem Apply_no_mutation (self : t) (trace : Trace) (rand_state : TRandState)
    (visited : list (Schedule * Instruction)) :
  replay self trace (ForkSeed rand_state).1 = Ok visited →
  (∀ sch i, (sch, i) ∈ visited → kind i = inst_sample_compute_location →
            no_alternative sch i) →
  Apply self trace rand_state = (Ok None, (ForkSeed rand_state).2).
Proof.
  unfold Apply, FindCandidates, replay, ApplyToSchedule.
  destruct (ForkSeed rand_state) as [seed rs]. simpl.
  destruct (LoadJSON (json_mod_ self)) as [m|what]; simpl; [|done].
  destruct (ApplyToSchedule_loop observe (strip_postproc (insts trace))
              (Traced m seed) []) as [[sch' seen]|what] eqn:Hobs; simpl; [|done].
  intros [= ->] Hno.
  by rewrite (FindCandidates_loop_no_candidates _ _ [] _ _ Hobs Hno).
Qed.

(** The candidates of [FindCandidates], when it returns normally. *)
Lemma FindCandidates_inv self trace rand_state candidates rs :
  FindCandidates self trace rand_state = (Ok candidates, rs) →
  rs = (ForkSeed rand_state).2
  ∧ ∃ visited,
      replay self trace (ForkSeed rand_state).1 = Ok visited
      ∧ Forall (λ c, inst c ∈ insts trace
                     ∧ ∃ s, (s, inst c) ∈ visited ∧ recorded_in s c) candidates.
Proof.
  unfold FindCandidates, replay, ApplyToSchedule.
  destruct (ForkSeed rand_state) as [seed rs0]. simpl.
  destruct (LoadJSON (json_mod_ self)) as [m|what]; simpl; [|done].
  destruct (ApplyToSchedule_loop f_decision_provider (strip_postproc (insts trace))
              (Traced m seed) []) as [[sch' cands]|what] eqn:Hloop; simpl; [|done].
  intros [= -> ->]. split; [done|].
  apply FindCandidates_loop_inv in Hloop as (visited & new & Hobs & -> & Hall).
  exists visited. rewrite Hobs. simpl. split; [done|].
  eapply Forall_impl; [exact Hall|]. intros c (s & Hin & Hrec).
  split; [|by eauto].
  destruct (strip_postproc_prefix (insts trace)) as [rest Hrest].
  rewrite Hrest. apply elem_of_app. left.
  by eapply ApplyToSchedule_loop_observe_insts.
Qed.

(** The locations left to a candidate, when the legal locations are
    pairwise distinct: the legal ones other than the old decision. *)
Lemma recorded_locs (d : Z) (idxs l : list Z) :
  NoDup idxs →
  (find (to_int d) idxs = None ∧ l = idxs
   ∨ ∃ k, find (to_int d) idxs = Some k ∧ l = erase k idxs) →
  ∀ x, x ∈ l ↔ x ∈ idxs ∧ x ≠ to_int d.
Proof.
  intros Hdup [[Hfind ->]|(k & Hfind & ->)] x.
  - apply find_None in Hfind. split; [|by intros [? _]].
    intros Hx. split; [done|]. by intros ->.
  - apply find_Some in Hfind. by apply elem_of_erase.
Qed.

(** C7. Whenever [Apply] returns a trace, provided the legal locations the
    engine reports are pairwise distinct values of type [int], that trace is
    [WithDecision(trace, i, loc, remove_postproc = true)] where [i] is a
    [SampleComputeLocation] instruction of the input trace, visited by the
    replay in some program state [sch], and [loc] is one of the legal
    compute-at locations recomputed in [sch], different from the recorded
    decision [d] of [i].  The eligible locations of [i] are the legal ones
    other than [d] (read as an [int]); the candidate is the element of the
    candidate vector at the index [SampleInt] draws from
    [0, number of candidates), and [loc] the element of its locations at the
    index a second [SampleInt] draws from [0, number of locations), both
    from the random state passed in. *)
Theorem Apply_mutates_one_decision (self : t) (trace trace' : Trace)
    (rand_state rand_state' : TRandState) :
  (∀ sch block_sref, NoDup (CollectComputeLocation sch block_sref).2) →
  (∀ sch block_sref, Forall is_int (CollectComputeLocation sch block_sref).2) →
  Apply self trace rand_state = (Ok (Some trace'), rand_state') →
  ∃ visited candidates c sch d srefs idxs loc k1 k2 rs,
    replay self trace (ForkSeed rand_state).1 = Ok visited
    ∧ FindCandidates self trace rand_state = (Ok candidates, (ForkSeed rand_state).2)
    ∧ SampleInt (ForkSeed rand_state).2 0 (Z.of_nat (length candidates)) = (k1, rs)
    ∧ 0 ≤ k1 ∧ candidates !! Z.to_nat k1 = Some c
    ∧ SampleInt rs 0 (Z.of_nat (length (locs c))) = (k2, rand_state')
    ∧ 0 ≤ k2 ∧ locs c !! Z.to_nat k2 = Some loc
    ∧ inst c ∈ insts trace
    ∧ (sch, inst c) ∈ visited
    ∧ kind (inst c) = inst_sample_compute_location
    ∧ GetDecision (inst c) = AnyInt d
    ∧ legal_locations sch (inst c) srefs idxs
    ∧ (∀ x, x ∈ locs c ↔ x ∈ idxs ∧ x ≠ to_int d)
    ∧ loc ∈ idxs ∧ loc ≠ d
    ∧ trace' = WithDecision trace (inst c) (AnyInt loc) true.
Proof.
  intros Hdup Hint. unfold Apply.
  destruct (FindCandidates self trace rand_state) as [[candidates|what] rs0] eqn:Hfind;
    [|done].
  apply FindCandidates_inv in Hfind as Hinv. destruct Hinv as (-> & visited & Hreplay & Hall).
  destruct candidates as [|c0 cs] eqn:Hcs; [done|]. rewrite <- Hcs in *.
  destruct (SampleInt (ForkSeed rand_state).2 0 (Z.of_nat (length candidates)))
    as [k1 rs] eqn:Hk1.
  destruct (vector_at candidates k1) as [c|what] eqn:Hc; [|done].
  destruct (SampleInt rs 0 (Z.of_nat (length (locs c)))) as [k2 rs2] eqn:Hk2.
  destruct (vector_at (locs c) k2) as [loc|what] eqn:Hloc; [|done].
  intros [= <- <-].
  apply vector_at_inv in Hc as [Hk1pos Hc], Hloc as [Hk2pos Hloc].
  pose proof (proj1 (Forall_forall _ _) Hall c (list_elem_of_lookup_2 _ _ _ Hc))
    as (Hin & sch & Hvis & Hkind & d & srefs & idxs & Hd & Hlegal & _ & Hlocs).
  assert (Hidxs : NoDup idxs ∧ Forall is_int idxs).
  { destruct Hlegal as (b & block_sref & _ & _ & Hcol).
    specialize (Hdup sch block_sref). specialize (Hint sch block_sref).
    rewrite Hcol in Hdup, Hint. done. }
  destruct Hidxs as [Hnodup Hints].
  pose proof (recorded_locs d idxs (locs c) Hnodup Hlocs) as Hiff.
  destruct (proj1 (Hiff loc) (list_elem_of_lookup_2 _ _ _ Hloc)) as [Hlocin Hne].
  exists visited, candidates, c, sch, d, srefs, idxs, loc, k1, k2, rs.
  repeat split; try done; try (by apply Hiff).
  intros ->. apply Hne. symmetry. apply to_int_is_int.
  by apply (proj1 (Forall_forall _ _) Hints).
Qed.

End MutatorFacts.

(** C6, as amended, on a trace whose only [SampleComputeLocation] samples
    for a block with a single legal location, the recorded one. *)
Lemma Apply_no_mutation_witness :
  @MutateComputeLocationNode.Apply Sample.lang Sample.engine
    Sample.mutator Sample.trace_fixed 42
  = (Ok None, (@ForkSeed Sample.lang Sample.engine 42).2).
Proof.
  apply (@Apply_no_mutation Sample.lang Sample.engine Sample.mutator
           Sample.trace_fixed 42
           [(0%nat, Sample.get_block); (1%nat, Sample.sample_compute_location 1 (-1))]).
  - reflexivity.
  - intros sch i Hin Hkind. elem_of_literal Hin; [discriminate Hkind|].
    exists (-1), [1%positive], [-1]. split; [reflexivity|]. split.
    { exists (Sample.block 1), 1%positive. repeat split; reflexivity. }
    split; [reflexivity|]. split.
    { repeat constructor; vm_compute; discriminate. }
    split.
    { apply NoDup_singleton. }
    intros x Hx. elem_of_literal Hx. reflexivity.
Defined.

(** C6, as stated, fails: a trace without any [SampleComputeLocation]
    instruction whose replay is stopped by a primitive makes [Apply] end
    with the error of the replay instead of returning "no mutation". *)
Lemma Apply_no_mutation_counterexample :
  Forall (λ i, kind i ≠ MutateComputeLocationNode.inst_sample_compute_location)
    (insts MutatorSamples.trace_split)
  ∧ @MutateComputeLocationNode.Apply Sample.lang MutatorSamples.strict_engine
      Sample.mutator MutatorSamples.trace_split 42
    = (Throw [Text "ScheduleError: the loop cannot be split"],
       (@ForkSeed Sample.lang MutatorSamples.strict_engine 42).2).
Proof.
  split; [|vm_compute; reflexivity].
  repeat constructor; discriminate.
Qed.

(** C7, on a trace whose [SampleComputeLocation] has decision 0 among the
    legal locations -1, 0 and 1: the mutated trace decides otherwise. *)
Lemma Apply_mutates_one_decision_witness :
  ∃ c loc,
    loc ≠ 0
    ∧ c ∈ [Sample.sample_compute_location 2 0]
    ∧ @WithDecision Sample.lang Sample.engine Sample.trace_free
        (Sample.sample_compute_location 2 0) (AnyInt (-1)) true
      = @WithDecision Sample.lang Sample.engine Sample.trace_free c (AnyInt loc) true.
Proof.
  destruct (@Apply_mutates_one_decision Sample.lang Sample.engine Sample.mutator
              Sample.trace_free
              (@WithDecision Sample.lang Sample.engine Sample.trace_free
                 (Sample.sample_compute_location 2 0) (AnyInt (-1)) true)
              42 425269846)
    as (visited & candidates & c & sch & d & srefs & idxs & loc & k1 & k2 & rs
        & _ & _ & _ & _ & _ & _ & _ & _ & Hin & _ & Hkind & Hd & _ & _ & _ & Hne & Htrace).
  - intros sch b. simpl. unfold Sample.locations.
    destruct (b =? 1)%positive; refine (bool_decide_unpack _ _); vm_compute; exact I.
  - intros sch b. simpl. unfold Sample.locations.
    destruct (b =? 1)%positive; repeat constructor; vm_compute; discriminate.
  - vm_compute. reflexivity.
  - exists (MutateComputeLocationNode.inst c), loc.
    assert (Hc : MutateComputeLocationNode.inst c = Sample.sample_compute_location 2 0).
    { cbn in Hin.
      apply elem_of_cons in Hin as [Hc|Hin]; [rewrite Hc in Hkind; discriminate|].
      apply elem_of_cons in Hin as [Hc|Hin]; [exact Hc|].
      apply elem_of_cons in Hin as [Hc|Hin]; [rewrite Hc in Hkind; discriminate|].
      by apply elem_of_nil in Hin. }
    split.
    + rewrite Hc in Hd. injection Hd as <-. exact Hne.
    + split; [rewrite Hc; left|exact Htrace].
Defined.

(** * Further properties of the embedded code *)

(** ** [FindEntryFunc]: what it returns and how it fails *)

Section FindEntryFuncMore.
Context `{TirLang}.

Lemma prim_entries_cons_prim gv f l :
  prim_entries ((gv, BFPrim f) :: l) = (gv, f) :: prim_entries l.
Proof. done. Qed.

Lemma prim_entries_cons_other gv k l :
  prim_entries ((gv, BFOther k) :: l) = prim_entries l.
Proof. done. Qed.

Lemma elem_of_prim_entries gv f l :
  (gv, f) ∈ prim_entries l ↔ (gv, BFPrim f) ∈ l.
Proof.
  induction l as [|[gv' [f'|k]] l IH].
  - split; intros Hin; by apply elem_of_nil in Hin.
  - rewrite prim_entries_cons_prim, !elem_of_cons, IH.
    split; (intros [[= -> ->]|?]; [by left|by right]).
  - rewrite prim_entries_cons_other, elem_of_cons, IH.
    split; [by right|]. by intros [[=]|?].
Qed.

(** The loop of [FindEntryFunc], in closed form: it returns the first
    flagged [PrimFunc]; without one it counts the [PrimFunc]s and keeps the
    last one named "main" and the last one altogether. *)
Lemma FindEntryFunc_loop_closed l n m la :
  FindEntryFunc_loop l n m la =
  match List.find is_entry (prim_entries l) with
  | Some p => inl p.2
  | None =>
      inr (n + Z.of_nat (length (prim_entries l)),
           match last (List.filter is_main (prim_entries l)) with
           | Some p => Some p.2
           | None => m
           end,
           match last (prim_entries l) with
           | Some p => Some p.2
           | None => la
           end)
  end.
Proof.
  revert n m la. induction l as [|[gv [f|k]] l IH]; intros n m la.
  - simpl. by rewrite Z.add_0_r.
  - rewrite prim_entries_cons_prim.
    cbn [List.find List.filter length FindEntryFunc_loop as_PrimFunc snd].
    change (is_entry (gv, f)) with (HasNonzeroAttr f kIsEntryFunc).
    change (is_main (gv, f)) with (String.eqb (gv_name_hint gv) "main").
    destruct (HasNonzeroAttr f kIsEntryFunc); [done|].
    rewrite IH. destruct (List.find is_entry (prim_entries l)); [done|].
    rewrite Nat2Z.inj_succ, last_cons.
    destruct (String.eqb (gv_name_hint gv) "main"); [rewrite last_cons|];
      destruct (last (List.filter is_main (prim_entries l)));
      destruct (last (prim_entries l)); do 3 f_equal; lia.
  - rewrite prim_entries_cons_other. simpl. apply IH.
Qed.

Lemma find_is_entry_None (ps : list (GlobalVar * PrimFunc)) :
  List.find is_entry ps = None ↔ ∀ p, p ∈ ps → is_entry p = false.
Proof.
  induction ps as [|p ps IH]; simpl.
  - split; [|done]. intros _ p Hin. by apply elem_of_nil in Hin.
  - destruct (is_entry p) eqn:Hp.
    + split; [done|]. intros Hall. rewrite (Hall p) in Hp; [done|left].
    + rewrite IH. split.
      * intros Hall q Hin. apply elem_of_cons in Hin as [->|Hin]; auto.
      * intros Hall q Hin. apply Hall. by right.
Qed.

Lemma filter_is_main_nil (ps : list (GlobalVar * PrimFunc)) :
  List.filter is_main ps = [] ↔ ∀ p, p ∈ ps → is_main p = false.
Proof.
  induction ps as [|p ps IH]; simpl.
  - split; [|done]. intros _ p Hin. by apply elem_of_nil in Hin.
  - destruct (is_main p) eqn:Hp.
    + split; [done|]. intros Hall. rewrite (Hall p) in Hp; [done|left].
    + rewrite IH. split.
      * intros Hall q Hin. apply elem_of_cons in Hin as [->|Hin]; auto.
      * intros Hall q Hin. apply Hall. by right.
Qed.

Lemma last_filter_is_main (ps : list (GlobalVar * PrimFunc)) p :
  last (List.filter is_main ps) = Some p → p ∈ ps ∧ is_main p = true.
Proof.
  intros Hlast. apply last_Some_elem_of in Hlast.
  apply list_elem_of_In, List.filter_In in Hlast as [Hin Hmain].
  by apply list_elem_of_In in Hin.
Qed.

(** X1. Whatever [FindEntryFunc] returns is a [PrimFunc] of the module, and
    it is there for one of the three reasons: it is flagged, or no
    [PrimFunc] is flagged and it is named "main", or no [PrimFunc] is
    flagged or named "main" and it is the only [PrimFunc]. *)
Theorem FindEntryFunc_sound (m : IRModule) (f : PrimFunc) :
  FindEntryFunc m = Ok f →
  ∃ gv, (gv, BFPrim f) ∈ functions m
        ∧ (HasNonzeroAttr f kIsEntryFunc = true
           ∨ (no_entry_flag (functions m) ∧ gv_name_hint gv = "main")
           ∨ (no_entry_flag (functions m) ∧ no_main (functions m)
              ∧ prim_funcs m = [(gv, f)])).
Proof.
  unfold FindEntryFunc. rewrite FindEntryFunc_loop_closed. fold (prim_funcs m).
  destruct (List.find is_entry (prim_funcs m)) as [[gv g]|] eqn:Hfind.
  - intros [= <-]. apply List.find_some in Hfind as [Hin Hflag].
    exists gv. split; [|by left].
    apply elem_of_prim_entries. by apply list_elem_of_In.
  - assert (Hflags : no_entry_flag (functions m)).
    { intros gv g Hin. apply elem_of_prim_entries in Hin.
      by apply (proj1 (find_is_entry_None _) Hfind (gv, g)). }
    destruct (last (List.filter is_main (prim_funcs m))) as [[gv g]|] eqn:Hmain.
    + intros [= <-]. apply last_filter_is_main in Hmain as [Hin Hname].
      exists gv. split; [by apply elem_of_prim_entries|].
      right. left. split; [done|]. by apply String.eqb_eq.
    + assert (Hnomain : no_main (functions m)).
      { intros gv g Hin Hname. apply elem_of_prim_entries in Hin.
        apply last_None in Hmain.
        pose proof (proj1 (filter_is_main_nil _) Hmain (gv, g) Hin) as Hg.
        unfold is_main in Hg. simpl in Hg. rewrite Hname in Hg. done. }
      destruct (prim_funcs m) as [|[gv g] [|p ps]] eqn:Hps.
      * done.
      * simpl. intros [= <-]. exists gv. split.
        -- apply elem_of_prim_entries. fold (prim_funcs m). rewrite Hps. left.
        -- right. right. done.
      * cbn [length].
        match goal with |- context [?a =? 0] => destruct (Z.eqb_spec a 0) end; [done|].
        match goal with |- context [1 <? ?a] => destruct (Z.ltb_spec 1 a) end; [done|].
        lia.
Qed.

End FindEntryFuncMore.

(** X1, on the module with one [PrimFunc] among other functions. *)
Lemma FindEntryFunc_sound_witness :
  ∃ gv, (gv, BFPrim Sample.matmul) ∈ functions Sample.mod_mixed
        ∧ (HasNonzeroAttr Sample.matmul kIsEntryFunc = true
           ∨ (no_entry_flag (functions Sample.mod_mixed) ∧ gv_name_hint gv = "main")
           ∨ (no_entry_flag (functions Sample.mod_mixed)
              ∧ no_main (functions Sample.mod_mixed)
              ∧ prim_funcs Sample.mod_mixed = [(gv, Sample.matmul)])).
Proof.
  apply (FindEntryFunc_sound Sample.mod_mixed Sample.matmul). reflexivity.
Defined.

Section FindEntryFuncErrors.
Context `{TirLang}.

(** [FindEntryFunc] on a module without flagged or "main" [PrimFunc]s. *)
Lemma FindEntryFunc_unflagged_no_main (m : IRModule) :
  no_entry_flag (functions m) → no_main (functions m) →
  FindEntryFunc m =
  match prim_funcs m with
  | [] => Throw (msg_no_prim_func m)
  | [p] => Ok p.2
  | _ :: _ :: _ => Throw (msg_multiple_prim_funcs m)
  end.
Proof.
  intros Hflags Hmain. unfold FindEntryFunc.
  rewrite FindEntryFunc_loop_closed. fold (prim_funcs m).
  assert (List.find is_entry (prim_funcs m) = None) as ->.
  { apply find_is_entry_None. intros [gv f] Hin.
    apply elem_of_prim_entries in Hin. by apply (Hflags gv). }
  assert (List.filter is_main (prim_funcs m) = []) as ->.
  { apply filter_is_main_nil. intros [gv f] Hin.
    apply elem_of_prim_entries in Hin. apply String.eqb_neq. by apply (Hmain gv f). }
  destruct (prim_funcs m) as [|p [|q ps]]; try done.
  cbn [length last].
  match goal with |- context [?a =? 0] => destruct (Z.eqb_spec a 0) end; [lia|].
  match goal with |- context [1 <? ?a] => destruct (Z.ltb_spec 1 a) end; [done|lia].
Qed.

(** X2. [FindEntryFunc] fails in two ways only, each with the module in the
    message: with "Cannot find any PrimFunc" when the module has no
    [PrimFunc], and with "Multiple PrimFuncs exist" when it has at least two
    and none is flagged or named "main".  In particular the last
    [GetRef(last_func)] never meets a null pointer. *)
Theorem FindEntryFunc_failures (m : IRModule) (what : list Piece) :
  FindEntryFunc m = Throw what →
  (prim_funcs m = [] ∧ what = msg_no_prim_func m)
  ∨ ((1 < length (prim_funcs m))%nat
     ∧ no_entry_flag (functions m) ∧ no_main (functions m)
     ∧ what = msg_multiple_prim_funcs m).
Proof.
  unfold FindEntryFunc. rewrite FindEntryFunc_loop_closed. fold (prim_funcs m).
  destruct (List.find is_entry (prim_funcs m)) as [p|] eqn:Hfind; [done|].
  destruct (last (List.filter is_main (prim_funcs m))) as [p|] eqn:Hlast; [done|].
  assert (Hflags : no_entry_flag (functions m)).
  { intros gv g Hin. apply elem_of_prim_entries in Hin.
    by apply (proj1 (find_is_entry_None _) Hfind (gv, g)). }
  assert (Hnomain : no_main (functions m)).
  { intros gv g Hin Hname. apply elem_of_prim_entries in Hin.
    apply last_None in Hlast.
    pose proof (proj1 (filter_is_main_nil _) Hlast (gv, g) Hin) as Hg.
    unfold is_main in Hg. simpl in Hg. rewrite Hname in Hg. done. }
  destruct (prim_funcs m) as [|p [|q ps]]; cbn [length last].
  - simpl. intros [= <-]. by left.
  - done.
  - match goal with |- context [?a =? 0] => destruct (Z.eqb_spec a 0) end; [lia|].
    match goal with |- context [1 <? ?a] => destruct (Z.ltb_spec 1 a) end; [|lia].
    intros [= <-]. right. repeat split; try done. lia.
Qed.

(** X3. The two failures happen whenever their conditions hold: a module
    without any [PrimFunc] (the empty module, or one with functions of other
    kinds only) is rejected with "Cannot find any PrimFunc", and a module
    with two or more [PrimFunc]s, none flagged and none named "main", with
    "Multiple PrimFuncs exist". *)
Theorem FindEntryFunc_rejects (m : IRModule) :
  (no_prim_func (functions m) → FindEntryFunc m = Throw (msg_no_prim_func m))
  ∧ ((1 < length (prim_funcs m))%nat →
     no_entry_flag (functions m) → no_main (functions m) →
     FindEntryFunc m = Throw (msg_multiple_prim_funcs m)).
Proof.
  split.
  - intros Hnone.
    assert (Hnil : prim_funcs m = []).
    { destruct (prim_funcs m) as [|[gv f] ps] eqn:Hps; [done|].
      destruct (Hnone gv f). apply elem_of_prim_entries.
      fold (prim_funcs m). rewrite Hps. left. }
    rewrite FindEntryFunc_unflagged_no_main.
    + by rewrite Hnil.
    + intros gv f Hin. by destruct (Hnone gv f).
    + intros gv f Hin. by destruct (Hnone gv f).
  - intros Hlen Hflags Hmain. rewrite FindEntryFunc_unflagged_no_main by done.
    destruct (prim_funcs m) as [|p [|q ps]]; simpl in *; [lia|lia|done].
Qed.

End FindEntryFuncErrors.

(** X2, on the module of two unflagged functions "foo" and "bar". *)
Lemma FindEntryFunc_failures_witness :
  (prim_funcs Sample.mod_foo_bar = []
   ∧ msg_multiple_prim_funcs Sample.mod_foo_bar = msg_no_prim_func Sample.mod_foo_bar)
  ∨ ((1 < length (prim_funcs Sample.mod_foo_bar))%nat
     ∧ no_entry_flag (functions Sample.mod_foo_bar)
     ∧ no_main (functions Sample.mod_foo_bar)
     ∧ msg_multiple_prim_funcs Sample.mod_foo_bar
       = msg_multiple_prim_funcs Sample.mod_foo_bar).
Proof.
  apply (FindEntryFunc_failures Sample.mod_foo_bar). reflexivity.
Defined.

(** X3, on a module that holds a Relax function only. *)
Lemma FindEntryFunc_rejects_witness :
  FindEntryFunc MoreSamples.mod_relax_only
  = Throw (msg_no_prim_func MoreSamples.mod_relax_only).
Proof.
  apply (proj1 (FindEntryFunc_rejects MoreSamples.mod_relax_only)).
  intros gv f Hin. elem_of_literal Hin.
Defined.

(** ** [ArgInfo::FromPrimFunc]: success and failure *)

Section FromPrimFuncMore.
Context `{TirLang}.

Lemma params_bound_or_not (func : PrimFunc) (args : list Var) :
  (∀ arg, arg ∈ args → is_Some (buffer_map func !! var_addr arg))
  ∨ (∃ arg, arg ∈ args ∧ buffer_map func !! var_addr arg = None).
Proof.
  induction args as [|arg args [IH|(arg' & Hin & Hnone)]].
  - left. intros arg Hin. by apply elem_of_nil in Hin.
  - destruct (buffer_map func !! var_addr arg) as [buffer|] eqn:Hb.
    + left. intros arg' Hin. apply elem_of_cons in Hin as [->|Hin]; [by eexists|auto].
    + right. exists arg. split; [left|done].
  - right. exists arg'. split; [by right|done].
Qed.

(** X4. [ArgInfo::FromPrimFunc] returns descriptors only when every
    parameter is bound to a buffer: it never skips a parameter.  What it
    returns is then as long as the parameter list and holds, at each
    position, the descriptor of that parameter's buffer. *)
Theorem FromPrimFunc_Ok_inv (func : PrimFunc) (l : list ArgInfo) :
  FromPrimFunc func = Ok l →
  (∀ arg, arg ∈ params func → is_Some (buffer_map func !! var_addr arg))
  ∧ length l = length (params func)
  ∧ ∀ i arg, params func !! i = Some arg →
             ∃ buffer, buffer_map func !! var_addr arg = Some buffer
                       ∧ l !! i = Some (TensorInfo_of buffer).
Proof.
  intros Hok. destruct (params_bound_or_not func (params func)) as [Hbound|Hunbound].
  - destruct (FromPrimFunc_loop_bound func (params func) [] Hbound)
      as (l' & Hl' & Hlen & Hnth).
    unfold FromPrimFunc in Hok. rewrite Hl' in Hok. injection Hok as <-.
    split; [done|]. split; [done|]. intros i arg Hi.
    destruct (Hbound arg) as [buffer Hb]; [by eapply list_elem_of_lookup_2|].
    exists buffer. split; [done|]. by eapply Hnth.
  - destruct (FromPrimFunc_loop_unbound func (params func) [] Hunbound)
      as (arg & _ & _ & Hthrow).
    unfold FromPrimFunc in Hok. by rewrite Hthrow in Hok.
Qed.

(** X5. The error of [ArgInfo::FromPrimFunc] names the first parameter
    without a buffer, whatever follows it in the parameter list. *)
Theorem FromPrimFunc_first_unbound (func : PrimFunc) pre arg post :
  params func = pre ++ arg :: post →
  (∀ arg', arg' ∈ pre → is_Some (buffer_map func !! var_addr arg')) →
  buffer_map func !! var_addr arg = None →
  FromPrimFunc func = Throw (msg_unsupported_argument arg).
Proof.
  unfold FromPrimFunc. intros -> Hpre Hnone. generalize (@nil ArgInfo).
  induction pre as [|arg' pre IH]; intros result; simpl.
  - by rewrite Hnone.
  - destruct (Hpre arg') as [buffer ->]; [left|].
    apply IH. intros arg'' Hin. apply Hpre. by right.
Qed.

End FromPrimFuncMore.

(** X4, on the function of two tensor parameters. *)
Lemma FromPrimFunc_Ok_inv_witness :
  (∀ arg, arg ∈ params Sample.matmul →
          is_Some (buffer_map Sample.matmul !! var_addr arg))
  ∧ length [TensorInfo Float32 [1; 224; 224; 3]; TensorInfo Float32 [1; 224; 224; 3]]
    = length (params Sample.matmul)
  ∧ ∀ i arg, params Sample.matmul !! i = Some arg →
             ∃ buffer, buffer_map Sample.matmul !! var_addr arg = Some buffer
                       ∧ [TensorInfo Float32 [1; 224; 224; 3];
                          TensorInfo Float32 [1; 224; 224; 3]] !! i
                         = Some (TensorInfo_of buffer).
Proof.
  apply (FromPrimFunc_Ok_inv Sample.matmul
           [TensorInfo Float32 [1; 224; 224; 3]; TensorInfo Float32 [1; 224; 224; 3]]).
  reflexivity.
Defined.

(** X5, on a function whose second and third parameters have no buffer. *)
Lemma FromPrimFunc_first_unbound_witness :
  FromPrimFunc MoreSamples.two_unbound = Throw (msg_unsupported_argument Sample.b).
Proof.
  apply (FromPrimFunc_first_unbound MoreSamples.two_unbound
           [Sample.a] Sample.b [MoreSamples.c]).
  - reflexivity.
  - intros arg Hin. elem_of_literal Hin. vm_compute. eauto.
  - reflexivity.
Defined.

(** ** JSON form of [ArgInfo]: what is accepted *)

Section JSONMore.
Context `{TirLang} `{DTypeCodec}.

(** [AsIntArray] accepts exactly the arrays of integers. *)
Lemma AsIntArray_elems_Ok elems shape :
  AsIntArray_elems elems = Ok shape ↔ elems = AnyInt <$> shape.
Proof.
  revert shape. induction elems as [|x elems IH]; intros shape.
  - simpl. split.
    + by intros [= <-].
    + destruct shape; [done|discriminate].
  - destruct x as [|v|s|l|k addr]; simpl;
      try (split; [done|destruct shape; discriminate]).
    destruct (AsIntArray_elems elems) as [vs|what] eqn:Hrest; simpl.
    + split.
      * intros [= <-]. rewrite fmap_cons. f_equal. by apply IH.
      * destruct shape as [|v' shape]; [discriminate|].
        rewrite fmap_cons. intros [= -> Helems].
        apply IH in Helems. by injection Helems as ->.
    + split; [done|]. destruct shape as [|v' shape]; [discriminate|].
      rewrite fmap_cons. intros [= -> Helems]. by apply IH in Helems.
Qed.

(** [TensorInfo::FromJSON] accepts exactly the arrays of three elements
    whose second is a string that names a dtype and whose third is an array
    of integers; the first element is not looked at. *)
Lemma TensorInfo_FromJSON_Ok json_obj x :
  TensorInfo_FromJSON json_obj = Ok x ↔
  ∃ tag s dtype shape,
    json_obj = AnyArray [tag; AnyStr s; AnyArray (AnyInt <$> shape)]
    ∧ StringToDLDataType s = Some dtype
    ∧ x = TensorInfo dtype shape.
Proof.
  unfold TensorInfo_FromJSON, TensorInfo_FromJSON_try. split.
  - destruct json_obj as [| | |elems|]; try done.
    destruct elems as [|tag [|x1 [|x2 [|x3 elems]]]]; try done.
    cbn [length Nat.eqb at_ lookup list_lookup bind].
    destruct x1 as [| |s| |]; try done. cbn [cast_String bind].
    destruct (StringToDLDataType s) as [dtype|] eqn:Hs; [|done].
    cbn [bind cast_ObjectRef]. destruct x2 as [| | |l|]; try done.
    cbn [AsIntArray]. destruct (AsIntArray_elems l) as [shape|] eqn:Hl; [|done].
    simpl. intros [= <-]. apply AsIntArray_elems_Ok in Hl as ->.
    by exists tag, s, dtype, shape.
  - intros (tag & s & dtype & shape & -> & Hs & ->).
    cbn [length Nat.eqb at_ lookup list_lookup bind cast_String].
    rewrite Hs. cbn [bind cast_ObjectRef AsIntArray].
    by rewrite (proj2 (AsIntArray_elems_Ok _ shape) eq_refl).
Qed.

(** What [ArgInfo::FromJSON] accepts is a tensor-tagged array that
    [TensorInfo::FromJSON] accepts. *)
Lemma ArgInfo_FromJSON_Ok_inv json_obj x :
  ArgInfo_FromJSON json_obj = Ok x →
  ∃ s dtype shape,
    json_obj = AnyArray [AnyStr "TENSOR"; AnyStr s; AnyArray (AnyInt <$> shape)]
    ∧ StringToDLDataType s = Some dtype
    ∧ x = TensorInfo dtype shape.
Proof.
  unfold ArgInfo_FromJSON, ArgInfo_FromJSON_tag.
  destruct json_obj as [| | |elems|]; try done.
  destruct elems as [|x0 elems]; [done|].
  cbn [length Nat.leb at_ lookup list_lookup bind].
  destruct x0 as [| |tag| |]; try done. cbn [cast_String].
  destruct (String.eqb_spec tag "TENSOR") as [->|Hne]; [|done].
  intros Hok. apply TensorInfo_FromJSON_Ok in Hok
    as (tag' & s & dtype & shape & [= <- ->] & Hs & ->).
  by exists s, dtype, shape.
Qed.

(** X6. [ArgInfo::FromJSON] accepts exactly the tagged arrays
    ["TENSOR", s, shape] in which [s] names a dtype and [shape] is an array
    of integers, and it returns the [TensorInfo] of that dtype and shape. *)
Theorem ArgInfo_FromJSON_Ok (json_obj : Any) (x : ArgInfo) :
  ArgInfo_FromJSON json_obj = Ok x ↔
  ∃ s dtype shape,
    json_obj = AnyArray [AnyStr "TENSOR"; AnyStr s; AnyArray (AnyInt <$> shape)]
    ∧ StringToDLDataType s = Some dtype
    ∧ x = TensorInfo dtype shape.
Proof.
  split.
  - apply ArgInfo_FromJSON_Ok_inv.
  - intros (s & dtype & shape & -> & Hs & ->).
    unfold ArgInfo_FromJSON.
    change (ArgInfo_FromJSON_tag _) with (@Ok _ string "TENSOR").
    cbn [String.eqb Ascii.eqb Bool.eqb].
    apply TensorInfo_FromJSON_Ok. by exists (AnyStr "TENSOR"), s, dtype, shape.
Qed.

(** X7. Decoding then encoding: when [ArgInfo::FromJSON] accepts a payload
    and the dtype it parsed prints as the string of the payload it was
    parsed from, serializing the result gives the payload back. *)
Theorem AsJSON_FromJSON (json_obj : Any) dtype shape :
  ArgInfo_FromJSON json_obj = Ok (TensorInfo dtype shape) →
  (∀ tag s shape_json,
     json_obj = AnyArray [tag; AnyStr s; shape_json] →
     DLDataTypeToString dtype = s) →
  AsJSON (TensorInfo dtype shape) = json_obj.
Proof.
  intros Hok Hprint.
  apply ArgInfo_FromJSON_Ok_inv in Hok as (s & dtype' & shape' & -> & Hs & [= <- <-]).
  unfold AsJSON, AsArray. by rewrite (Hprint _ s _ eq_refl).
Qed.

(** X8. [TensorInfo::FromJSON] does not look at the tag: with any first
    element in place of another it returns the same descriptor.  The tag is
    checked by [ArgInfo::FromJSON] alone. *)
Theorem TensorInfo_FromJSON_any_tag (tag tag' : Any) (rest : list Any) (x : ArgInfo) :
  TensorInfo_FromJSON (AnyArray (tag :: rest)) = Ok x →
  TensorInfo_FromJSON (AnyArray (tag' :: rest)) = Ok x.
Proof.
  intros Hok. apply TensorInfo_FromJSON_Ok in Hok
    as (t & s & dtype & shape & [= <- ->] & Hs & ->).
  apply TensorInfo_FromJSON_Ok. by exists tag', s, dtype, shape.
Qed.

(** X9. Every failure of the two [FromJSON] functions, whatever its cause,
    is the fatal "Unable to parse the JSON object" error with the whole
    payload in its message. *)
Theorem FromJSON_failures_show_payload (json_obj : Any) (what : list Piece) :
  ArgInfo_FromJSON json_obj = Throw what ∨ TensorInfo_FromJSON json_obj = Throw what →
  ∃ rest, what = msg_unable_to_parse json_obj ++ rest.
Proof.
  assert (Htensor : ∀ what,
             TensorInfo_FromJSON json_obj = Throw what →
             ∃ rest, what = msg_unable_to_parse json_obj ++ rest).
  { intros w. unfold TensorInfo_FromJSON.
    destruct (TensorInfo_FromJSON_try json_obj) as [[dtype shape]|w']; [done|].
    intros [= <-]. by eexists. }
  intros [Harg|Hten]; [|by apply Htensor].
  revert Harg. unfold ArgInfo_FromJSON.
  destruct (ArgInfo_FromJSON_tag json_obj) as [tag|w'].
  - destruct (String.eqb tag "TENSOR"); [by apply Htensor|].
    intros [= <-]. exists []. by rewrite app_nil_r.
  - intros [= <-]. by eexists.
Qed.

End JSONMore.

(** X6, on a well-formed tensor descriptor. *)
Lemma ArgInfo_FromJSON_Ok_witness :
  @ArgInfo_FromJSON Sample.lang Sample.codec MoreSamples.json_tensor
  = Ok (TensorInfo Float32 [4; 8]).
Proof.
  apply (proj2 (@ArgInfo_FromJSON_Ok Sample.lang Sample.codec
                  MoreSamples.json_tensor (TensorInfo Float32 [4; 8]))).
  exists "float32", Float32, [4; 8]. repeat split; reflexivity.
Defined.

(** X7, on the same descriptor. *)
Lemma AsJSON_FromJSON_witness :
  @AsJSON Sample.codec (TensorInfo Float32 [4; 8]) = MoreSamples.json_tensor.
Proof.
  apply (@AsJSON_FromJSON Sample.lang Sample.codec MoreSamples.json_tensor).
  - reflexivity.
  - by intros tag s shape_json [= <- <- <-].
Defined.

(** X8, on a payload tagged for another variant. *)
Lemma TensorInfo_FromJSON_any_tag_witness :
  @TensorInfo_FromJSON Sample.lang Sample.codec MoreSamples.json_other_tag
  = Ok (TensorInfo Float32 [4; 8]).
Proof.
  apply (@TensorInfo_FromJSON_any_tag Sample.lang Sample.codec
           (AnyStr "TENSOR") (AnyStr "SCALAR")
           [AnyStr "float32"; AnyArray [AnyInt 4; AnyInt 8]]).
  reflexivity.
Defined.

(** X9, on a tensor descriptor whose shape holds a string. *)
Lemma FromJSON_failures_show_payload_witness :
  ∃ rest,
    @msg_unable_to_parse_because Sample.lang MoreSamples.json_bad_shape
      [Text "TypeError: Expect an integer"]
    = msg_unable_to_parse MoreSamples.json_bad_shape ++ rest.
Proof.
  apply (@FromJSON_failures_show_payload Sample.lang Sample.codec
           MoreSamples.json_bad_shape).
  left. reflexivity.
Defined.

(** ** The compute-location mutator: candidates and sampling *)

Section MutatorMore.
Context `{ScheduleEngine}.
Import MutateComputeLocationNode.

Lemma erase_nil_inv (l : list Z) k x :
  l !! k = Some x → erase k l = [] → l = [x].
Proof.
  unfold erase. destruct l as [|y [|z l]]; destruct k as [|k]; simpl; try done.
  by intros [= ->].
Qed.


(** One call of the decision provider on a [SampleComputeLocation]: either
    it records a candidate for the instruction, or the instruction has no
    location other than its decision. *)
Lemma f_decision_provider_cases sch i attrs cands d' cands' :
  f_decision_provider sch i (TranslateInputRVs sch (inputs i)) attrs
    (GetDecision i) cands = Ok (d', cands') →
  kind i = inst_sample_compute_location →
  (∃ c, cands' = cands ++ [c] ∧ inst c = i ∧ recorded_in sch c)
  ∨ (cands' = cands ∧ only_decision sch i).
Proof.
  unfold f_decision_provider. intros Hp Hkind. revert Hp.
  rewrite Hkind. unfold same_as. rewrite String.eqb_refl.
  destruct (TranslateInputRVs sch (inputs i)) as [|b [|b' l]] eqn:Hin; simpl; try done.
  destruct (GetSRef sch b) as [block_sref|what] eqn:Hsref; simpl; [|done].
  destruct (GetDecision i) as [|d| | |] eqn:Hd; simpl; try done.
  destruct (CollectComputeLocation sch block_sref) as [srefs idxs] eqn:Hloc.
  assert (Hlegal : legal_locations sch i srefs idxs) by (exists b, block_sref; auto).
  destruct (find (to_int d) idxs) as [k|] eqn:Hfind.
  - destruct (Nat.eqb_spec (length (erase k srefs)) (length (erase k idxs)))
      as [Hlen|Hlen]; [|done].
    destruct (erase k srefs) as [|sref srefs'] eqn:Hsrefs; intros [= <- <-].
    + right. split; [done|]. exists d, srefs, idxs. repeat split; try done.
      apply find_Some in Hfind.
      destruct (erase k idxs) eqn:Hidxs; [|done].
      rewrite (erase_nil_inv idxs k (to_int d) Hfind Hidxs).
      intros x Hx. by apply list_elem_of_singleton in Hx.
    + left. eexists (mkCandidate i _). repeat split; simpl; try done.
      exists d, srefs, idxs. repeat split; try done.
      * intros Hnil. by rewrite Hnil in Hlen.
      * right. by exists k.
  - destruct (Nat.eqb_spec (length srefs) (length idxs)) as [Hlen|Hlen]; [|done].
    destruct srefs as [|sref srefs'] eqn:Hsrefs; intros [= <- <-].
    + right. split; [done|]. exists d, [], idxs. repeat split; try done.
      destruct idxs; [|done]. intros x Hx. by apply elem_of_nil in Hx.
    + left. eexists (mkCandidate i _). repeat split; simpl; try done.
      exists d, (sref :: srefs'), idxs. repeat split; try done.
      * intros Hnil. by rewrite Hnil in Hlen.
      * by left.
Qed.

(** The replay of [FindCandidates] in full: the candidates it adds are, in
    order, candidates of instructions of the list replayed, and every
    [SampleComputeLocation] it visits either gets a candidate or has no
    location other than its decision. *)
Lemma FindCandidates_loop_complete l sch cands sch' cands' :
  ApplyToSchedule_loop f_decision_provider l sch cands = Ok (sch', cands') →
  ∃ visited new,
    ApplyToSchedule_loop observe l sch [] = Ok (sch', visited)
    ∧ cands' = cands ++ new
    ∧ (inst <$> new) `sublist_of` l
    ∧ Forall (λ c, kind (inst c) = inst_sample_compute_location ∧ locs c ≠ []) new
    ∧ ∀ s i, (s, i) ∈ visited → kind i = inst_sample_compute_location →
             (∃ c, c ∈ new ∧ inst c = i ∧ recorded_in s c) ∨ only_decision s i.
Proof.
  revert sch cands. induction l as [|i l IH]; intros sch cands; simpl.
  - intros [= <- <-]. exists [], []. rewrite app_nil_r. repeat split; try done.
    intros s i Hin. by apply elem_of_nil in Hin.
  - destruct (f_decision_provider sch i (TranslateInputRVs sch (inputs i))
                (inst_attrs i) (GetDecision i) cands) as [[d' c1]|what] eqn:Hp;
      simpl; [|done].
    pose proof (f_decision_provider_inv _ _ _ _ _ _ Hp) as [-> Hc1].
    destruct (f_apply_to_schedule sch i (TranslateInputRVs sch (inputs i))
                (inst_attrs i) (GetDecision i)) as [sch1|what]; simpl; [|done].
    intros Hl. apply IH in Hl as (visited & new & Hobs & -> & Hsub & Hall & Hvis).
    rewrite ApplyToSchedule_loop_observe, Hobs. simpl.
    exists ((sch, i) :: visited).
    destruct Hc1 as [->|(c & -> & Hinst & Hrec)].
    + exists new. repeat split; try done.
      * by apply sublist_cons.
      * intros s j Hin Hkind. apply elem_of_cons in Hin as [[= -> ->]|Hin]; [|by auto].
        destruct (f_decision_provider_cases _ _ _ _ _ _ Hp Hkind)
          as [(c & Hc & _)|[_ Honly]]; [|by right].
        apply (f_equal length) in Hc. rewrite length_app in Hc. simpl in Hc. lia.
    + exists (c :: new). split; [done|]. split; [by rewrite <- app_assoc|].
      split; [rewrite fmap_cons, Hinst; by apply sublist_skip|].
      split; [apply Forall_cons; split; [|done]|].
      * destruct Hrec as (Hkind & d & srefs & idxs & _ & _ & Hne & _). done.
      * intros s j Hin Hkind. apply elem_of_cons in Hin as [[= -> ->]|Hin].
        -- left. exists c. split; [left|done].
        -- destruct (Hvis s j Hin Hkind) as [(c' & Hc' & Hrest)|Honly]; [|by right].
           left. exists c'. split; [by right|done].
Qed.

(** The same for [FindCandidates] itself. *)
Lemma FindCandidates_complete self trace rand_state candidates rs :
  FindCandidates self trace rand_state = (Ok candidates, rs) →
  ∃ visited,
    replay self trace (ForkSeed rand_state).1 = Ok visited
    ∧ (inst <$> candidates) `sublist_of` insts trace
    ∧ Forall (λ c, kind (inst c) = inst_sample_compute_location ∧ locs c ≠ [])
        candidates
    ∧ ∀ s i, (s, i) ∈ visited → kind i = inst_sample_compute_location →
             (∃ c, c ∈ candidates ∧ inst c = i ∧ recorded_in s c)
             ∨ only_decision s i.
Proof.
  unfold FindCandidates, replay, ApplyToSchedule.
  destruct (ForkSeed rand_state) as [seed rs0]. simpl.
  destruct (LoadJSON (json_mod_ self)) as [m|what]; simpl; [|done].
  destruct (ApplyToSchedule_loop f_decision_provider (strip_postproc (insts trace))
              (Traced m seed) []) as [[sch' cands]|what] eqn:Hloop; simpl; [|done].
  intros [= -> ->].
  apply FindCandidates_loop_complete in Hloop
    as (visited & new & Hobs & -> & Hsub & Hall & Hvis).
  exists visited. rewrite Hobs. simpl. repeat split; try done.
  destruct (strip_postproc_prefix (insts trace)) as [rest Hrest].
  rewrite Hrest. by apply sublist_inserts_r.
Qed.



(** X12. With a sampler that stays in the range it is asked for, [Apply]
    adds no failure of its own: both vector accesses are in bounds (the
    candidate vector is not empty when sampled from, and no candidate has an
    empty location vector), so that [Apply] throws exactly what
    [FindCandidates] throws, and returns a trace whenever [FindCandidates]
    found a candidate. *)
Theorem Apply_in_bounds (self : t) (trace : Trace) (rand_state : TRandState) :
  SampleInt_in_range →
  (∀ what rs, Apply self trace rand_state = (Throw what, rs)
              ↔ FindCandidates self trace rand_state = (Throw what, rs))
  ∧ (∀ candidates rs,
       FindCandidates self trace rand_state = (Ok candidates, rs) →
       candidates ≠ [] →
       ∃ trace' rs', Apply self trace rand_state = (Ok (Some trace'), rs')).
Proof.
  intros Hrange.
  assert (Hsome : ∀ candidates rs,
             FindCandidates self trace rand_state = (Ok candidates, rs) →
             candidates ≠ [] →
             ∃ trace' rs', Apply self trace rand_state = (Ok (Some trace'), rs')).
  { intros candidates rs Hfind Hne. unfold Apply. rewrite Hfind.
    apply FindCandidates_complete in Hfind as (_ & _ & _ & Hall & _).
    destruct candidates as [|c0 cs] eqn:Hcs; [done|]. rewrite <- Hcs in *.
    assert (Hlen : 0 < Z.of_nat (length candidates)) by (rewrite Hcs; simpl; lia).
    pose proof (Hrange rs 0 _ Hlen) as Hk1.
    destruct (SampleInt rs 0 (Z.of_nat (length candidates))) as [k1 rs1]. simpl in Hk1.
    unfold vector_at at 1. destruct (Z.leb_spec 0 k1); [|lia].
    destruct (lookup_lt_is_Some_2 candidates (Z.to_nat k1)) as [c Hc]; [lia|].
    rewrite Hc.
    pose proof (proj1 (Forall_forall _ _) Hall c (list_elem_of_lookup_2 _ _ _ Hc))
      as [_ Hlocs].
    assert (Hlen2 : 0 < Z.of_nat (length (locs c))).
    { destruct (locs c); [done|simpl; lia]. }
    pose proof (Hrange rs1 0 _ Hlen2) as Hk2.
    destruct (SampleInt rs1 0 (Z.of_nat (length (locs c)))) as [k2 rs2]. simpl in Hk2.
    unfold vector_at. destruct (Z.leb_spec 0 k2); [|lia].
    destruct (lookup_lt_is_Some_2 (locs c) (Z.to_nat k2)) as [loc Hloc]; [lia|].
    rewrite Hloc. by eexists _, _. }
  split; [|done]. intros what rs.
  destruct (FindCandidates self trace rand_state) as [[candidates|w] rs0] eqn:Hfind.
  - split; [|done]. intros Happly.
    destruct candidates as [|c0 cs] eqn:Hcs.
    + unfold Apply in Happly. by rewrite Hfind in Happly.
    + destruct (Hsome _ _ eq_refl) as (trace' & rs' & Hok); [done|].
      by rewrite Hok in Happly.
  - unfold Apply. rewrite Hfind. split; by intros [= -> ->].
Qed.

End MutatorMore.



(** The sampler of the sample engine stays in range. *)
Lemma Sample_SampleInt_in_range : @SampleInt_in_range Sample.lang Sample.engine.
Proof.
  intros rs lo hi Hlt. simpl.
  pose proof (Z.mod_pos_bound rs (hi - lo)). lia.
Qed.

(** X12, on a mutator that was never initialized: the failure of [Apply] is
    the failure to load the workload. *)
Lemma Apply_in_bounds_witness :
  @MutateComputeLocationNode.FindCandidates Sample.lang Sample.engine
    MutatorSamples.fresh Sample.trace_free 42
  = (Throw [Text "cannot parse"], 248136381).
Proof.
  apply (proj1 (@Apply_in_bounds Sample.lang Sample.engine MutatorSamples.fresh
                  Sample.trace_free 42 Sample_SampleInt_in_range)).
  vm_compute. reflexivity.
Defined.

(** ** The artifact-cleanup callback: rounds compose *)

Section RemoveBuildArtifactMore.
Context `{RemovalCapability}.
Variables TaskScheduler MeasureCandidate RunnerResult : Type.
Import RemoveBuildArtifactNode.

(** X13. The callback keeps nothing from one call to the next: handing it a
    round in two parts, one after the other, the second when the first has
    returned, removes the same artifacts in the same order, leaves the same
    world and ends in the same way (it returns, or throws the same error) as
    handing it the whole round. *)
Theorem RemoveBuildArtifact_rounds_compose
    (task_scheduler : TaskScheduler) (task_id : Z)
    (candidates1 candidates2 : list MeasureCandidate)
    (results1 results2 : list BuilderResult)
    (runs1 runs2 : list RunnerResult) (st : Effects) :
  Apply TaskScheduler MeasureCandidate RunnerResult task_scheduler task_id
    (candidates1 ++ candidates2) (results1 ++ results2) (runs1 ++ runs2) st
  = match Apply TaskScheduler MeasureCandidate RunnerResult task_scheduler task_id
            candidates1 results1 runs1 st with
    | (Done _, st1) =>
        Apply TaskScheduler MeasureCandidate RunnerResult task_scheduler task_id
          candidates2 results2 runs2 st1
    | (Fatal msg, st1) => (Fatal msg, st1)
    end.
Proof.
  unfold Apply. destruct (GetGlobalRequired _) as [f_rm|msg]; [|done].
  apply Apply_loop_app.
Qed.

(** X14. The callback makes no removal call exactly when no builder result
    of the round has an artifact path (an empty round, or a round in which
    every build failed) or no removal function is registered, and it then
    leaves the world as it found it; with the function registered, a round
    without artifact paths returns.  In general it makes at most one call
    per builder result. *)
Theorem RemoveBuildArtifact_no_artifact
    (task_scheduler : TaskScheduler) (task_id : Z)
    (measure_candidates : list MeasureCandidate)
    (builder_results : list BuilderResult)
    (runner_results : list RunnerResult) (w : World) :
  (removed (Apply TaskScheduler MeasureCandidate RunnerResult task_scheduler task_id
              measure_candidates builder_results runner_results
              {| world := w; removed := [] |}).2 = []
   ↔ GetGlobal "meta_schedule.remove_build_dir" = None
     ∨ ∀ r, r ∈ builder_results → artifact_path r = None)
  ∧ (removed (Apply TaskScheduler MeasureCandidate RunnerResult task_scheduler task_id
                measure_candidates builder_results runner_results
                {| world := w; removed := [] |}).2 = [] →
     (Apply TaskScheduler MeasureCandidate RunnerResult task_scheduler task_id
        measure_candidates builder_results runner_results
        {| world := w; removed := [] |}).2
     = {| world := w; removed := [] |})
  ∧ ((∀ r, r ∈ builder_results → artifact_path r = None) →
     is_Some (GetGlobal "meta_schedule.remove_build_dir") →
     Apply TaskScheduler MeasureCandidate RunnerResult task_scheduler task_id
       measure_candidates builder_results runner_results
       {| world := w; removed := [] |}
     = (Done tt, {| world := w; removed := [] |}))
  ∧ (length (removed (Apply TaskScheduler MeasureCandidate RunnerResult
                        task_scheduler task_id measure_candidates builder_results
                        runner_results {| world := w; removed := [] |}).2)
     ≤ length builder_results)%nat.
Proof.
  unfold Apply, GetGlobalRequired.
  destruct (GetGlobal "meta_schedule.remove_build_dir") as [f_rm|]; simpl.
  - destruct (Apply_loop f_rm builder_results {| world := w; removed := [] |})
      as [r st'] eqn:Hloop.
    pose proof (Apply_loop_calls _ _ _ _ _ Hloop) as Hcalls. simpl in *.
    assert (Hnone : removed st' = [] →
                    r = Done tt ∧ omap artifact_path builder_results = []
                    ∧ st' = {| world := w; removed := [] |}).
    { intros Hnil. destruct r as [[]|msg].
      - destruct Hcalls as [Hremoved Hworld]. rewrite Hnil in Hremoved.
        rewrite <- Hremoved in Hworld. simpl in Hworld.
        split; [done|]. split; [done|]. destruct st'; simpl in *. by subst.
      - destruct Hcalls as (pre & path & post & _ & Hremoved & _).
        rewrite Hnil in Hremoved. by destruct pre. }
    assert (Hall : (∀ r, r ∈ builder_results → artifact_path r = None) →
                   r = Done tt ∧ st' = {| world := w; removed := [] |}).
    { intros Hall%omap_artifact_path_nil. rewrite Hall in Hcalls.
      destruct r as [[]|msg].
      - destruct Hcalls as [Hremoved Hworld]. split; [done|].
        destruct st'; simpl in *. by subst.
      - destruct Hcalls as (pre & path & post & Hnil & _). by destruct pre. }
    repeat split.
    + intros Hnil. right. apply omap_artifact_path_nil. by apply Hnone.
    + intros [?|Hno]; [done|]. by destruct (Hall Hno) as [_ ->].
    + intros Hnil. by apply Hnone.
    + intros Hno _. by destruct (Hall Hno) as [-> ->].
    + assert (Hlen : (length (omap artifact_path builder_results)
                      ≤ length builder_results)%nat).
      { clear. induction builder_results as [|b rs IH]; simpl; [done|].
        change (list_omap _ _ artifact_path rs) with (omap artifact_path rs).
        destruct (artifact_path b); simpl; lia. }
      destruct r as [[]|msg].
      * destruct Hcalls as [-> _]. done.
      * destruct Hcalls as (pre & path & post & Hsplit & -> & _).
        rewrite Hsplit in Hlen. rewrite !length_app in *. simpl in *. lia.
  - repeat split; try done.
    + by left.
    + lia.
Qed.

End RemoveBuildArtifactMore.

(** X14, on a round in which both builds failed. *)
Lemma RemoveBuildArtifact_no_artifact_witness :
  @RemoveBuildArtifactNode.Apply Sample.disk unit unit unit tt 0 []
    [mkBuilderResult None (Some "failed"); mkBuilderResult None (Some "timeout")] []
    (@RemoveBuildArtifactNode.mkEffects Sample.disk ["/tmp/a"] [])
  = (Done tt, @RemoveBuildArtifactNode.mkEffects Sample.disk ["/tmp/a"] []).
Proof.
  apply (proj1 (proj2 (proj2 (@RemoveBuildArtifact_no_artifact Sample.disk
                                unit unit unit tt 0 []
                                [mkBuilderResult None (Some "failed");
                                 mkBuilderResult None (Some "timeout")] []
                                ["/tmp/a"])))).
  - intros r Hin. elem_of_literal Hin; reflexivity.
  - by eexists.
Defined.

(** ** Strings: [EndsWithPattern] and [ExtractStringWithPrefix] *)

Section StringFacts.

Lemma append_nil (b : string) : "" +:+ b = b.
Proof. done. Qed.

Lemma append_cons (c : Ascii.ascii) (a b : string) :
  String c a +:+ b = String c (a +:+ b).
Proof. done. Qed.

Lemma String_length_append (a b : string) :
  String.length (a +:+ b) = (String.length a + String.length b)%nat.
Proof. induction a as [|c a IH]; simpl; [done|]. by rewrite IH. Qed.

Lemma substring_all (s : string) : String.substring 0 (String.length s) s = s.
Proof. induction s as [|c s IH]; simpl; [done|]. by rewrite IH. Qed.

Lemma substring_append_skip (a s : string) (n m : nat) :
  String.substring (String.length a + n) m (a +:+ s) = String.substring n m s.
Proof. induction a as [|c a IH]; simpl; [done|]. apply IH. Qed.

Lemma substring_append_take (a b : string) :
  String.substring 0 (String.length a) (a +:+ b) = a.
Proof.
  induction a as [|c a IH]; simpl.
  - by destruct b.
  - by rewrite IH.
Qed.

Lemma get_append_skip (a s : string) (n : nat) :
  String.get (String.length a + n) (a +:+ s) = String.get n s.
Proof. induction a as [|c a IH]; simpl; [done|]. apply IH. Qed.

Lemma substring_split (s : string) (n : nat) :
  (n ≤ String.length s)%nat →
  s = String.substring 0 n s +:+ String.substring n (String.length s - n) s.
Proof.
  revert n. induction s as [|c s IH]; intros n Hn; simpl in *.
  - by destruct n.
  - destruct n as [|n]; simpl.
    + by rewrite substring_all.
    + change (String c s
              = String c (String.substring 0 n s
                          +:+ String.substring n (String.length s - n) s)).
      f_equal. apply IH. lia.
Qed.

Lemma String_append_assoc (a b c : string) : (a +:+ b) +:+ c = a +:+ b +:+ c.
Proof. induction a as [|x a IH]; [done|]. by rewrite !append_cons, IH. Qed.

Lemma prefix_append (p x : string) : String.prefix p (p +:+ x) = true.
Proof.
  induction p as [|c p IH].
  - rewrite append_nil. by destruct x.
  - rewrite append_cons. simpl. destruct (Ascii.ascii_dec c c); [done|congruence].
Qed.

Lemma prefix_inv (p s : string) :
  String.prefix p s = true → ∃ rest, s = p +:+ rest.
Proof.
  revert s. induction p as [|c p IH]; intros s.
  - intros _. by exists s.
  - destruct s as [|c' s]; [done|]. simpl.
    destruct (Ascii.ascii_dec c c') as [->|]; [|done].
    intros Hp. destruct (IH s Hp) as [rest ->]. by exists rest.
Qed.

(** [str.find(s) == 0] says that [str] starts with [s]. *)
Lemma str_find_0 (str s : string) :
  str_find str s = Some O ↔ ∃ rest, str = s +:+ rest.
Proof.
  unfold str_find. split.
  - destruct str as [|c str]; cbn [String.index].
    + destruct s; [|done]. intros _. by exists "".
    + destruct (String.prefix s (String c str)) eqn:Hp.
      * intros _. by apply prefix_inv.
      * by destruct (String.index 0 s str).
  - intros [rest ->]. destruct (s +:+ rest) as [|c str] eqn:Hs; cbn [String.index].
    + destruct s; [done|discriminate].
    + rewrite <- Hs. by rewrite prefix_append.
Qed.

(** X15. [EndsWithPattern(str, pattern)] holds exactly when [str] is some
    string followed by [pattern]; in particular every string ends with the
    empty pattern, and no string ends with a longer one. *)
Theorem EndsWithPattern_suffix (str pattern : string) :
  EndsWithPattern str pattern = true ↔ ∃ before, str = before +:+ pattern.
Proof.
  unfold EndsWithPattern, substr. split.
  - destruct (Nat.ltb_spec (String.length str) (String.length pattern)) as [|Hle];
      [done|].
    intros Heq. apply String.eqb_eq in Heq.
    exists (String.substring 0 (String.length str - String.length pattern) str).
    rewrite (substring_split str (String.length str - String.length pattern)) at 1
      by lia.
    f_equal. rewrite <- Heq at 3. f_equal. lia.
  - intros [before ->]. rewrite String_length_append.
    destruct (Nat.ltb_spec (String.length before + String.length pattern)
                (String.length pattern)) as [|_]; [lia|].
    replace (String.length before + String.length pattern - String.length pattern)%nat
      with (String.length before + 0)%nat by lia.
    rewrite substring_append_skip, substring_all. apply String.eqb_refl.
Qed.

(** The loop of [ExtractStringWithPrefix] stops right after a run of digits
    and letters. *)
Lemma ExtractStringWithPrefix_loop_run (before body rest : string) (fuel : nat) :
  (String.length body ≤ fuel)%nat → all_alnum body = true → stops rest →
  ExtractStringWithPrefix_loop fuel (before +:+ body +:+ rest) (String.length before)
  = (String.length before + String.length body)%nat.
Proof.
  revert before fuel. induction body as [|c body IH]; intros before fuel Hfuel Hbody Hrest.
  - simpl. rewrite Nat.add_0_r. destruct fuel as [|fuel]; [done|]. simpl.
    rewrite <- (Nat.add_0_r (String.length before)) at 2.
    rewrite get_append_skip.
    destruct rest as [|c rest]; simpl in *.
    + by rewrite andb_false_r.
    + rewrite Hrest. by rewrite andb_false_r.
  - simpl in Hbody. apply andb_true_iff in Hbody as [Hc Hbody].
    destruct fuel as [|fuel]; simpl in Hfuel; [lia|]. simpl.
    rewrite <- (Nat.add_0_r (String.length before)) at 2.
    rewrite get_append_skip. simpl. rewrite Hc.
    rewrite String_length_append. simpl.
    destruct (Nat.ltb_spec (String.length before)
                (String.length before + S (String.length (body +:+ rest)))) as [_|];
      [|lia].
    simpl.
    specialize (IH (before +:+ String c "") fuel).
    rewrite String_append_assoc in IH. simpl in IH.
    rewrite String_length_append in IH. simpl in IH.
    replace (String.length before + 1)%nat with (S (String.length before)) in IH by lia.
    rewrite append_cons, append_nil in IH. rewrite append_cons.
    rewrite IH by (done || lia). lia.
Qed.

(** Every string starts with a longest run of digits and letters. *)
Lemma alnum_run (tail : string) :
  ∃ body rest, tail = body +:+ rest ∧ all_alnum body = true ∧ stops rest.
Proof.
  induction tail as [|c tail (body & rest & -> & Hbody & Hrest)].
  - by exists "", "".
  - destruct (isdigit c || isalpha c) eqn:Hc.
    + exists (String c body), rest. simpl. by rewrite Hc, Hbody.
    + by exists "", (String c (body +:+ rest)).
Qed.

(** The result on a string given by its parts. *)
Lemma ExtractStringWithPrefix_parts (prefix body rest : string) :
  all_alnum body = true → stops rest →
  ExtractStringWithPrefix (prefix +:+ body +:+ rest) prefix = body.
Proof.
  intros Hbody Hrest. unfold ExtractStringWithPrefix, substr.
  rewrite (proj2 (str_find_0 _ _)) by by eexists.
  rewrite ExtractStringWithPrefix_loop_run; try done.
  - replace (String.length prefix + String.length body - String.length prefix)%nat
      with (String.length body) by lia.
    rewrite <- (Nat.add_0_r (String.length prefix)).
    rewrite substring_append_skip. apply substring_append_take.
  - rewrite !String_length_append. lia.
Qed.

(** X16. [ExtractStringWithPrefix(str, prefix)] is the empty string when
    [str] does not start with [prefix]; otherwise it is the longest run of
    digits and letters that follows the prefix in [str]: what comes after
    the result is nothing or starts with another character. *)
Theorem ExtractStringWithPrefix_spec (str prefix : string) :
  ((∀ tail, str ≠ prefix +:+ tail) → ExtractStringWithPrefix str prefix = "")
  ∧ (∀ tail, str = prefix +:+ tail →
       ∃ rest, tail = ExtractStringWithPrefix str prefix +:+ rest
               ∧ all_alnum (ExtractStringWithPrefix str prefix) = true
               ∧ stops rest).
Proof.
  split.
  - intros Hno. unfold ExtractStringWithPrefix.
    destruct (str_find str prefix) as [[|n]|] eqn:Hfind; try done.
    apply str_find_0 in Hfind as [rest ->]. by destruct (Hno rest).
  - intros tail ->. destruct (alnum_run tail) as (body & rest & -> & Hbody & Hrest).
    rewrite (ExtractStringWithPrefix_parts prefix body rest Hbody Hrest).
    by exists rest.
Qed.

End StringFacts.

(** X15, on a pattern name and one of its endings. *)
Lemma EndsWithPattern_suffix_witness : EndsWithPattern "dnnl.conv2d_relu" "_relu" = true.
Proof.
  apply (proj2 (EndsWithPattern_suffix "dnnl.conv2d_relu" "_relu")).
  exists "dnnl.conv2d". reflexivity.
Defined.

(** X16, on the CUDA architecture "sm_20" and the prefix "sm_". *)
Lemma ExtractStringWithPrefix_spec_witness :
  ∃ rest, "20" = ExtractStringWithPrefix "sm_20" "sm_" +:+ rest
          ∧ all_alnum (ExtractStringWithPrefix "sm_20" "sm_") = true
          ∧ stops rest.
Proof.
  apply (proj2 (ExtractStringWithPrefix_spec "sm_20" "sm_") "20"). reflexivity.
Defined.

(** ** Target attributes: [CheckOrSetAttr] and the updaters *)

Section CheckOrSetAttrFacts.

Lemma and_then_Done {A B} (m : Checked A) (k : A → Checked B) (b : B) :
  and_then m k = Done b → ∃ a, m = Done a ∧ k a = Done b.
Proof. destruct m as [a|msg]; simpl; [|done]. intros Hk. by exists a. Qed.

Lemma Downcast_String_Done v s : Downcast_String v = Done s → v = AnyStr s.
Proof. destruct v; simpl; try done. by intros [= ->]. Qed.

Lemma all_strings_Some elems l : all_strings elems = Some l → elems = AnyStr <$> l.
Proof.
  revert l. induction elems as [|x elems IH]; intros l; simpl.
  - by intros [= <-].
  - destruct x as [| |s| |]; try done.
    destruct (all_strings elems) as [l'|]; simpl; [|done].
    intros [= <-]. rewrite fmap_cons. f_equal. by apply IH.
Qed.

Lemma Downcast_Array_String_Done v l :
  Downcast_Array_String v = Done l → v = AnyArray (AnyStr <$> l).
Proof.
  destruct v as [| | |elems|]; simpl; try done.
  destruct (all_strings elems) as [l'|] eqn:Hall; [|done].
  intros [= <-]. f_equal. by apply all_strings_Some.
Qed.

(** The two ways in which [CheckOrSetAttr] succeeds. *)
Lemma CheckOrSetAttr_Done_inv (attrs attrs' : TargetJSON) (name value : string) :
  CheckOrSetAttr attrs name value = Done attrs' →
  (attrs !! name = None ∧ attrs' = <[name := AnyStr value]> attrs)
  ∨ (attrs !! name = Some (AnyStr value) ∧ attrs' = attrs).
Proof.
  unfold CheckOrSetAttr. destruct (attrs !! name) as [v|] eqn:Hv.
  - destruct v as [| |s| |]; simpl; try done.
    destruct (String.eqb_spec s value) as [->|]; [|done].
    intros [= <-]. by right.
  - intros [= <-]. by left.
Qed.

(** What [CheckOrSetAttr] leaves behind when it succeeds. *)
Lemma CheckOrSetAttr_post (attrs attrs' : TargetJSON) (name value : string) :
  CheckOrSetAttr attrs name value = Done attrs' →
  attrs' !! name = Some (AnyStr value)
  ∧ ∀ k, k ≠ name → attrs' !! k = attrs !! k.
Proof.
  intros Hdone. apply CheckOrSetAttr_Done_inv in Hdone as [[Hnone ->]|[Hsome ->]].
  - split; [apply lookup_insert_eq|]. intros k Hk. by apply lookup_insert_ne.
  - done.
Qed.

(** X17. When [CheckOrSetAttr] succeeds, the attribute has the expected
    string value afterwards, no other attribute has changed, an attribute
    that was already there is left as it was, and checking again succeeds
    without any change. *)
Theorem CheckOrSetAttr_Done (attrs attrs' : TargetJSON) (name value : string) :
  CheckOrSetAttr attrs name value = Done attrs' →
  attrs' !! name = Some (AnyStr value)
  ∧ (∀ k, k ≠ name → attrs' !! k = attrs !! k)
  ∧ (is_Some (attrs !! name) → attrs' = attrs)
  ∧ CheckOrSetAttr attrs' name value = Done attrs'.
Proof.
  intros Hdone. pose proof (CheckOrSetAttr_post _ _ _ _ Hdone) as [Hname Hframe].
  split; [done|]. split; [done|]. split.
  - apply CheckOrSetAttr_Done_inv in Hdone as [[Hnone ->]|[Hsome ->]]; [|done].
    rewrite Hnone. by intros [? ?].
  - unfold CheckOrSetAttr. rewrite Hname. simpl. by rewrite String.eqb_refl.
Qed.

(** X18. [CheckOrSetAttr] fails exactly when the attribute is present with
    a value other than the expected string (another string, or a value that
    is no string), and the message shows the value found. *)
Theorem CheckOrSetAttr_Fatal (attrs : TargetJSON) (name value : string) :
  ((∃ msg, CheckOrSetAttr attrs name value = Fatal msg)
   ↔ ∃ v, attrs !! name = Some v ∧ v ≠ AnyStr value)
  ∧ ∀ msg, CheckOrSetAttr attrs name value = Fatal msg →
           ∃ v, attrs !! name = Some v ∧ Val v ∈ msg.
Proof.
  unfold CheckOrSetAttr. destruct (attrs !! name) as [v|] eqn:Hv.
  - split.
    + split.
      * intros [msg Hmsg]. exists v. split; [done|]. intros ->.
        simpl in Hmsg. by rewrite String.eqb_refl in Hmsg.
      * intros (v' & [= <-] & Hne).
        destruct v as [| |s| |]; simpl; try by eexists.
        destruct (String.eqb_spec s value) as [->|]; [done|by eexists].
    + intros msg Hmsg. exists v. split; [done|].
      destruct v as [| |s| |]; simpl in Hmsg;
        try (injection Hmsg as <-; repeat (first [by left|right])).
      destruct (String.eqb s value); [done|]. injection Hmsg as <-.
      repeat (first [by left|right]).
  - split.
    + split; [by intros [msg ?]|]. by intros (v & ? & _).
    + done.
Qed.

End CheckOrSetAttrFacts.

(** X17, on a target without "mtriple". *)
Lemma CheckOrSetAttr_Done_witness :
  (<["mtriple" := AnyStr "nvptx64-nvidia-cuda"]> TargetSamples.target_plain : TargetJSON)
    !! "mtriple" = Some (AnyStr "nvptx64-nvidia-cuda")
  ∧ (∀ k, k ≠ "mtriple" →
          (<["mtriple" := AnyStr "nvptx64-nvidia-cuda"]> TargetSamples.target_plain
             : TargetJSON) !! k
          = TargetSamples.target_plain !! k)
  ∧ (is_Some (TargetSamples.target_plain !! "mtriple") →
     <["mtriple" := AnyStr "nvptx64-nvidia-cuda"]> TargetSamples.target_plain
     = TargetSamples.target_plain)
  ∧ CheckOrSetAttr
      (<["mtriple" := AnyStr "nvptx64-nvidia-cuda"]> TargetSamples.target_plain)
      "mtriple" "nvptx64-nvidia-cuda"
    = Done (<["mtriple" := AnyStr "nvptx64-nvidia-cuda"]> TargetSamples.target_plain).
Proof.
  apply (CheckOrSetAttr_Done TargetSamples.target_plain). reflexivity.
Defined.

(** X18, on a target whose "arch" is not the expected triple. *)
Lemma CheckOrSetAttr_Fatal_witness :
  ∃ msg, CheckOrSetAttr TargetSamples.target_sm80 "arch" "sm_90" = Fatal msg.
Proof.
  apply (proj2 (proj1 (CheckOrSetAttr_Fatal TargetSamples.target_sm80 "arch" "sm_90"))).
  exists (AnyStr "sm_80"). split; [reflexivity|discriminate].
Defined.

Section UpdaterFacts.
Context `{TargetRuntime}.

(** The branch of [UpdateCUDAAttrs] and [UpdateNVPTXAttrs] that asks the
    first CUDA device: it sets the attribute to "sm_" and a number. *)
Lemma detect_cuda_arch_Done (key : string) (target target' : TargetJSON) :
  and_then (DetectDeviceFlag (mkDevice kDLCUDA 0) kComputeVersion AnyNone)
    (λ '(detected, version),
       and_then
         (if negb detected then Done 50
          else and_then (Downcast_String version) arch_of_version)
         (λ archInt,
            Done (<[key := AnyStr ("sm_" +:+ to_string archInt)]> target)))
  = Done target' →
  ∃ archInt, target' = <[key := AnyStr ("sm_" +:+ to_string archInt)]> target.
Proof.
  intros Hdone. apply and_then_Done in Hdone as ([detected version] & _ & Hdone).
  apply and_then_Done in Hdone as (archInt & _ & [= <-]). by exists archInt.
Qed.

(** Without a device API, or with one that reports no such device,
    [DetectDeviceFlag] answers false. *)
Lemma DetectDeviceFlag_absent (device : Device) (flag : DeviceAttrKind) (val : Any) :
  DeviceAPI_Get device = None
  ∨ (∃ api x, DeviceAPI_Get device = Some api
              ∧ GetAttr api device kExist = AnyInt x
              ∧ MutateComputeLocationNode.to_int x = 0) →
  ∃ val', DetectDeviceFlag device flag val = Done (false, val').
Proof.
  unfold DetectDeviceFlag. intros [->|(api & x & -> & -> & Hx)]; [by eexists|].
  simpl. rewrite Hx. simpl. by eexists.
Qed.

(** X19. When [UpdateCUDAAttrs] succeeds, the target has an "arch" that is
    a string starting with "sm_"; no other attribute has changed, and an
    "arch" given by the user is left as it was. *)
Theorem UpdateCUDAAttrs_Done (target target' : TargetJSON) :
  StartsWith_correct →
  UpdateCUDAAttrs target = Done target' →
  (∃ rest, target' !! "arch" = Some (AnyStr ("sm_" +:+ rest)))
  ∧ (∀ k, k ≠ "arch" → target' !! k = target !! k)
  ∧ (is_Some (target !! "arch") → target' = target).
Proof.
  intros Hstarts. unfold UpdateCUDAAttrs.
  destruct (target !! "arch") as [v|] eqn:Harch.
  - intros Hdone. apply and_then_Done in Hdone as (archStr & Hv & Hdone).
    apply Downcast_String_Done in Hv as ->.
    destruct (StartsWith archStr "sm_") eqn:Hsm; [|done]. injection Hdone as <-.
    apply Hstarts in Hsm as [rest ->]. split; [by exists rest|]. done.
  - intros Hdone. apply detect_cuda_arch_Done in Hdone as [archInt ->].
    split; [|split].
    + exists (to_string archInt). apply lookup_insert_eq.
    + intros k Hk. by apply lookup_insert_ne.
    + by intros [? ?].
Qed.

(** X20. [UpdateCUDAAttrs] by cases.  An "arch" given by the user is
    accepted, and the target returned unchanged, exactly when it is a string
    that starts with "sm_"; any other value is an error.  Without "arch",
    when the CUDA device API is missing or reports no device 0, the
    architecture defaults to "sm_" followed by 50. *)
Theorem UpdateCUDAAttrs_cases (target : TargetJSON) :
  StartsWith_correct →
  (∀ v, target !! "arch" = Some v →
        ((∃ rest, v = AnyStr ("sm_" +:+ rest)) → UpdateCUDAAttrs target = Done target)
        ∧ ((∀ rest, v ≠ AnyStr ("sm_" +:+ rest)) →
           ∃ msg, UpdateCUDAAttrs target = Fatal msg))
  ∧ (target !! "arch" = None →
     DeviceAPI_Get (mkDevice kDLCUDA 0) = None
     ∨ (∃ api x, DeviceAPI_Get (mkDevice kDLCUDA 0) = Some api
                 ∧ GetAttr api (mkDevice kDLCUDA 0) kExist = AnyInt x
                 ∧ MutateComputeLocationNode.to_int x = 0) →
     UpdateCUDAAttrs target = Done (<["arch" := AnyStr ("sm_" +:+ to_string 50)]> target)).
Proof.
  intros Hstarts. unfold UpdateCUDAAttrs. split.
  - intros v ->. split.
    + intros [rest ->]. simpl.
      by rewrite (proj2 (Hstarts ("sm_" +:+ rest) "sm_")) by by exists rest.
    + intros Hno. destruct v as [| |s| |]; simpl; try by eexists.
      destruct (StartsWith s "sm_") eqn:Hsm; [|by eexists].
      apply Hstarts in Hsm as [rest ->]. by destruct (Hno rest).
  - intros -> Habsent.
    destruct (DetectDeviceFlag_absent _ kComputeVersion AnyNone Habsent) as [val' ->].
    done.
Qed.

(** X21. When [UpdateNVPTXAttrs] succeeds, "mtriple" is
    "nvptx64-nvidia-cuda" and "mcpu" is a string starting with "sm_"; no
    attribute other than these two has changed, and values given by the user
    for them are left as they were. *)
Theorem UpdateNVPTXAttrs_Done (target target' : TargetJSON) :
  StartsWith_correct →
  UpdateNVPTXAttrs target = Done target' →
  target' !! "mtriple" = Some (AnyStr "nvptx64-nvidia-cuda")
  ∧ (∃ rest, target' !! "mcpu" = Some (AnyStr ("sm_" +:+ rest)))
  ∧ (∀ k, k ≠ "mtriple" → k ≠ "mcpu" → target' !! k = target !! k)
  ∧ (∀ v, target !! "mtriple" = Some v → target' !! "mtriple" = Some v)
  ∧ (∀ v, target !! "mcpu" = Some v → target' !! "mcpu" = Some v).
Proof.
  intros Hstarts. unfold UpdateNVPTXAttrs. intros Hdone.
  apply and_then_Done in Hdone as (target1 & Hset & Hdone).
  pose proof (CheckOrSetAttr_post _ _ _ _ Hset) as [Hmtriple Hframe].
  assert (Hkeep : ∀ v, target !! "mtriple" = Some v → target1 !! "mtriple" = Some v).
  { intros v Hv.
    apply CheckOrSetAttr_Done_inv in Hset as [[Hnone _]|[_ ->]]; [congruence|done]. }
  assert (Hmcpu1 : target1 !! "mcpu" = target !! "mcpu") by by apply Hframe.
  destruct (target1 !! "mcpu") as [v|] eqn:Hmcpu.
  - apply and_then_Done in Hdone as (mcpu & Hv & Hdone).
    apply Downcast_String_Done in Hv as ->.
    destruct (StartsWith mcpu "sm_") eqn:Hsm; [|done]. injection Hdone as <-.
    apply Hstarts in Hsm as [rest ->]. split; [done|].
    split; [by exists rest|]. split; [by intros k Hk _; apply Hframe|].
    split; [done|]. intros v Hv. congruence.
  - apply detect_cuda_arch_Done in Hdone as [arch ->]. split; [|split; [|split; [|split]]].
    + by rewrite lookup_insert_ne.
    + exists (to_string arch). apply lookup_insert_eq.
    + intros k Hk1 Hk2. rewrite lookup_insert_ne by done. by apply Hframe.
    + intros v Hv. rewrite lookup_insert_ne by done. by apply Hkeep.
    + intros v Hv. congruence.
Qed.

(** A non-empty result of [ExtractStringWithPrefix] comes from a string
    that starts with the prefix and goes on with a digit or a letter. *)
Lemma ExtractStringWithPrefix_nonempty (str prefix : string) :
  ExtractStringWithPrefix str prefix ≠ "" →
  ∃ body rest, str = prefix +:+ body +:+ rest
               ∧ body ≠ "" ∧ all_alnum body = true ∧ stops rest.
Proof.
  intros Hne.
  destruct (str_find str prefix) as [[|n]|] eqn:Hfind;
    try (unfold ExtractStringWithPrefix in Hne; by rewrite Hfind in Hne).
  apply str_find_0 in Hfind as [tail ->].
  destruct (alnum_run tail) as (body & rest & -> & Hbody & Hrest).
  rewrite (ExtractStringWithPrefix_parts prefix body rest Hbody Hrest) in Hne.
  by exists body, rest.
Qed.

(** X22. When [UpdateROCmAttrs] succeeds: "mtriple" is
    "amdgcn-amd-amdhsa-hcc"; "mcpu" is a string, and one given by the user is
    kept as it is and starts with "gfx" followed by at least one digit or
    letter; "mattr" is either unchanged or the user's array of strings (the
    empty array when there was none) with "-code-object-v3" added at the
    end; and no other attribute has changed. *)
Theorem UpdateROCmAttrs_Done (target target' : TargetJSON) :
  UpdateROCmAttrs target = Done target' →
  target' !! "mtriple" = Some (AnyStr "amdgcn-amd-amdhsa-hcc")
  ∧ (∃ mcpu, target' !! "mcpu" = Some (AnyStr mcpu))
  ∧ (∀ v, target !! "mcpu" = Some v →
          target' !! "mcpu" = Some v
          ∧ ∃ body rest, v = AnyStr ("gfx" +:+ body +:+ rest)
                         ∧ body ≠ "" ∧ all_alnum body = true ∧ stops rest)
  ∧ (target' !! "mattr" = target !! "mattr"
     ∨ ∃ old, target' !! "mattr"
              = Some (AnyArray (AnyStr <$> (old ++ ["-code-object-v3"])))
              ∧ (target !! "mattr" = None ∧ old = []
                 ∨ target !! "mattr" = Some (AnyArray (AnyStr <$> old))))
  ∧ (∀ k, k ≠ "mtriple" → k ≠ "mcpu" → k ≠ "mattr" → target' !! k = target !! k).
Proof.
  unfold UpdateROCmAttrs. intros Hdone.
  apply and_then_Done in Hdone as (target1 & Hset & Hdone).
  pose proof (CheckOrSetAttr_post _ _ _ _ Hset) as [Hmtriple Hframe1].
  apply and_then_Done in Hdone as (target2 & Hmcpu & Hdone).
  assert (H2 : target2 !! "mtriple" = Some (AnyStr "amdgcn-amd-amdhsa-hcc")
               ∧ (∃ mcpu, target2 !! "mcpu" = Some (AnyStr mcpu))
               ∧ (∀ v, target !! "mcpu" = Some v →
                       target2 !! "mcpu" = Some v
                       ∧ ∃ body rest, v = AnyStr ("gfx" +:+ body +:+ rest)
                                      ∧ body ≠ "" ∧ all_alnum body = true
                                      ∧ stops rest)
               ∧ (∀ k, k ≠ "mtriple" → k ≠ "mcpu" → target2 !! k = target !! k)).
  { assert (Hsame : target1 !! "mcpu" = target !! "mcpu") by by apply Hframe1.
    destruct (target1 !! "mcpu") as [v|] eqn:Hv.
    - apply and_then_Done in Hmcpu as (mcpu & Hcast & Hmcpu).
      apply Downcast_String_Done in Hcast as ->.
      destruct (String.eqb_spec (ExtractStringWithPrefix mcpu "gfx") "") as [|Hne];
        [done|].
      injection Hmcpu as <-. split; [done|]. split; [by exists mcpu|]. split.
      + intros v Hv'. rewrite <- Hsame in Hv'. injection Hv' as <-. split; [done|].
        destruct (ExtractStringWithPrefix_nonempty _ _ Hne)
          as (body & rest & -> & Hbody); by exists body, rest.
      + intros k Hk _. by apply Hframe1.
    - apply and_then_Done in Hmcpu as (arch & _ & [= <-]).
      split; [by rewrite lookup_insert_ne|]. split.
      + exists arch. apply lookup_insert_eq.
      + split; [intros v Hv'; congruence|].
        intros k Hk1 Hk2. rewrite lookup_insert_ne by done. by apply Hframe1. }
  destruct H2 as (Hm2 & Hc2 & Hkeep2 & Hframe2).
  apply and_then_Done in Hdone as ([detected val] & _ & Hdone).
  apply and_then_Done in Hdone as (version & _ & Hdone).
  destruct (version <? 305).
  - apply and_then_Done in Hdone as (mattr & Hmattr & [= <-]).
    split; [by rewrite lookup_insert_ne|].
    split; [by rewrite lookup_insert_ne|].
    split; [intros v Hv; by rewrite lookup_insert_ne; [apply Hkeep2|]|].
    split.
    + right. exists mattr. split; [apply lookup_insert_eq|].
      rewrite <- (Hframe2 "mattr") by done.
      destruct (target2 !! "mattr") as [v|]; [right|left].
      * by apply Downcast_Array_String_Done in Hmattr as ->.
      * by injection Hmattr as <-.
    + intros k Hk1 Hk2 Hk3. rewrite lookup_insert_ne by done. by apply Hframe2.
  - injection Hdone as <-. split; [done|]. split; [done|]. split; [done|].
    split; [left; by apply Hframe2|]. intros k Hk1 Hk2 _. by apply Hframe2.
Qed.

End UpdaterFacts.

(** The [StartsWith] of the sample machines is the prefix test. *)
Lemma Sample_StartsWith_correct :
  @StartsWith_correct TargetSamples.cuda_machine
  ∧ @StartsWith_correct TargetSamples.bare_machine.
Proof.
  split; intros str prefix; simpl; (split; [apply prefix_inv|]);
    intros [rest ->]; apply prefix_append.
Qed.

(** X19, on a target without "arch", on the machine with a CUDA device. *)
Lemma UpdateCUDAAttrs_Done_witness :
  (∃ rest, (<["arch" := AnyStr "sm_86"]> TargetSamples.target_plain : TargetJSON)
             !! "arch" = Some (AnyStr ("sm_" +:+ rest)))
  ∧ (∀ k, k ≠ "arch" →
          (<["arch" := AnyStr "sm_86"]> TargetSamples.target_plain : TargetJSON) !! k
          = TargetSamples.target_plain !! k)
  ∧ (is_Some (TargetSamples.target_plain !! "arch") →
     <["arch" := AnyStr "sm_86"]> TargetSamples.target_plain
     = TargetSamples.target_plain).
Proof.
  apply (@UpdateCUDAAttrs_Done TargetSamples.cuda_machine TargetSamples.target_plain).
  - exact (proj1 Sample_StartsWith_correct).
  - vm_compute. reflexivity.
Defined.

(** X20, on the machine without device API: the default architecture. *)
Lemma UpdateCUDAAttrs_cases_witness :
  @UpdateCUDAAttrs TargetSamples.bare_machine TargetSamples.target_plain
  = Done (<["arch" := AnyStr "sm_50"]> TargetSamples.target_plain).
Proof.
  apply (proj2 (@UpdateCUDAAttrs_cases TargetSamples.bare_machine
                  TargetSamples.target_plain (proj2 Sample_StartsWith_correct))).
  - reflexivity.
  - left. reflexivity.
Defined.

(** X21, on the machine with a CUDA device. *)
Lemma UpdateNVPTXAttrs_Done_witness :
  (<["mcpu" := AnyStr "sm_86"]>
     (<["mtriple" := AnyStr "nvptx64-nvidia-cuda"]> TargetSamples.target_plain)
     : TargetJSON) !! "mtriple" = Some (AnyStr "nvptx64-nvidia-cuda").
Proof.
  refine (proj1 (@UpdateNVPTXAttrs_Done TargetSamples.cuda_machine
                   TargetSamples.target_plain _ (proj1 Sample_StartsWith_correct) _)).
  vm_compute. reflexivity.
Defined.

(** X22, on a target with the GFX version "gfx90a:xnack+". *)
Lemma UpdateROCmAttrs_Done_witness :
  (<["mtriple" := AnyStr "amdgcn-amd-amdhsa-hcc"]> TargetSamples.target_gfx
     : TargetJSON) !! "mtriple" = Some (AnyStr "amdgcn-amd-amdhsa-hcc").
Proof.
  refine (proj1 (@UpdateROCmAttrs_Done TargetSamples.bare_machine
                   TargetSamples.target_gfx _ _)).
  vm_compute. reflexivity.
Defined.

(** ** [ExtractArgIdx] *)

(** [find_index] returns the first position whose variable is the one
    looked for. *)
Lemma find_index_Some (params : list RelaxVar) (v : RelaxVar) (i : nat) :
  find_index params v = Some i →
  ∃ p, params !! i = Some p
       ∧ relax_var_addr p = relax_var_addr v
       ∧ ∀ j q, (j < i)%nat → params !! j = Some q →
                relax_var_addr q ≠ relax_var_addr v.
Proof.
  revert i. induction params as [|p params IH]; intros i; simpl; [done|].
  destruct (Pos.eqb_spec (relax_var_addr p) (relax_var_addr v)) as [Heq|Hne].
  - intros [= <-]. exists p. repeat split; [done|]. intros j q Hj. lia.
  - destruct (find_index params v) as [i'|]; [|done]. intros [= <-].
    destruct (IH i' eq_refl) as (p' & Hp' & Haddr & Hfirst).
    exists p'. repeat split; [done..|].
    intros [|j] q Hj; simpl; [by intros [= <-]|].
    apply Hfirst. lia.
Qed.

Lemma find_index_None (params : list RelaxVar) (v : RelaxVar) :
  find_index params v = None →
  ∀ p, p ∈ params → relax_var_addr p ≠ relax_var_addr v.
Proof.
  induction params as [|p params IH]; simpl; intros Hnone q Hq.
  - by apply elem_of_nil in Hq.
  - destruct (Pos.eqb_spec (relax_var_addr p) (relax_var_addr v)) as [|Hne];
      [done|].
    destruct (find_index params v); [done|].
    apply elem_of_cons in Hq as [->|Hq]; [done|by apply IH].
Qed.

Section ExtractArgIdxFacts.
Context `{PatternMatcher}.

(** The index the loop body records for a matched expression. *)
Local Abbreviation recorded_index params exp :=
  (as_VarNode exp ≫= λ v, Z.of_nat <$> find_index params v) (only parsing).

Lemma ExtractArgIdx_loop_sound annotation_patterns matched_expr params acc r :
  ExtractArgIdx_loop annotation_patterns matched_expr params acc = Done r →
  ∀ name idx, r !! name = Some idx →
    acc !! name = Some idx
    ∨ ∃ pat exp, (name, pat) ∈ annotation_patterns
                 ∧ matched_expr pat = Some exp
                 ∧ recorded_index params exp = Some idx.
Proof.
  revert acc. induction annotation_patterns as [|[name' pat'] rest IH];
    intros acc; simpl.
  - intros [= <-] name idx Hr. by left.
  - destruct (matched_expr pat') as [exp|] eqn:Hexp; [|done].
    intros Hloop name idx Hr.
    destruct (IH _ Hloop name idx Hr) as [Hacc|(pat & exp' & Hin & Hm & Hrec)].
    +       destruct (as_VarNode exp) as [v|] eqn:Hv; [|by left].
      destruct (find_index params v) as [i|] eqn:Hi; [|by left].
      destruct (decide (name = name')) as [->|Hne].
      * rewrite lookup_insert_eq in Hacc. injection Hacc as <-.
        right. exists pat', exp. split; [by left|]. split; [done|].
        by rewrite Hv; simpl; rewrite Hi.
      * rewrite lookup_insert_ne in Hacc by done. by left.
    + right. exists pat, exp'. split; [by right|done].
Qed.

Lemma ExtractArgIdx_loop_complete annotation_patterns matched_expr params acc r :
  ExtractArgIdx_loop annotation_patterns matched_expr params acc = Done r →
  NoDup annotation_patterns.*1 →
  (∀ name, name ∉ annotation_patterns.*1 → r !! name = acc !! name)
  ∧ ∀ name pat, (name, pat) ∈ annotation_patterns →
      ∃ exp, matched_expr pat = Some exp
             ∧ r !! name = match recorded_index params exp with
                           | Some idx => Some idx
                           | None => acc !! name
                           end.
Proof.
  revert acc. induction annotation_patterns as [|[name' pat'] rest IH];
    intros acc; simpl.
  - intros [= <-] _. split; [done|]. intros name pat Hin.
    by apply elem_of_nil in Hin.
  - destruct (matched_expr pat') as [exp|] eqn:Hexp; [|done].
    intros Hloop [Hfresh Hnodup]%NoDup_cons.
    destruct (IH _ Hloop Hnodup) as [Hout Hin].
    assert (Hstep : ∀ name,
      (match as_VarNode exp with
       | Some arg_var =>
           match find_index params arg_var with
           | Some idx => <[name' := Z.of_nat idx]> acc
           | None => acc
           end
       | None => acc
       end) !! name
      = if decide (name = name')
        then match recorded_index params exp with
             | Some idx => Some idx
             | None => acc !! name
             end
        else acc !! name).
    { intros name.
      destruct (as_VarNode exp) as [v|]; simpl; [|by destruct (decide _)].
      destruct (find_index params v) as [i|]; simpl; [|by destruct (decide _)].
      destruct (decide (name = name')) as [->|Hne];
        [by rewrite lookup_insert_eq|by rewrite lookup_insert_ne]. }
    split.
    + intros name Hname. apply not_elem_of_cons in Hname as [Hne Hname].
      rewrite (Hout name Hname), Hstep. by rewrite decide_False.
    + intros name pat Hnp. apply elem_of_cons in Hnp as [[= -> ->]|Hnp].
      * exists exp. split; [done|].
        rewrite (Hout name' Hfresh), Hstep. by rewrite decide_True.
      * destruct (Hin name pat Hnp) as (exp' & Hm & Hr).
        exists exp'. split; [done|]. rewrite Hr.
        destruct (recorded_index params exp'); [done|].
        rewrite Hstep, decide_False; [done|].
        intros ->. apply Hfresh. apply list_elem_of_fmap.
        by exists (name', pat).
Qed.

(** X23. Every entry of the map that [ExtractArgIdx] returns is the name of
    an annotation pattern of the registered pattern, whose matched
    expression is a variable, and the index is the position of the first
    parameter of the function that is this variable. *)
Theorem ExtractArgIdx_entries (pattern_name : string) (f : Function)
    (arg_idx : gmap string Z) (name : string) (idx : Z) :
  ExtractArgIdx pattern_name f = Done arg_idx →
  arg_idx !! name = Some idx →
  ∃ pattern annotation_patterns matched_expr pat exp v (i : nat) p,
    GetPattern pattern_name = Some (pattern, annotation_patterns)
    ∧ ExtractMatchedExpr pattern (inner_body f) (AnalyzeVar2Value f)
      = Some matched_expr
    ∧ (name, pat) ∈ annotation_patterns
    ∧ matched_expr pat = Some exp
    ∧ as_VarNode exp = Some v
    ∧ idx = Z.of_nat i
    ∧ fn_params f !! i = Some p
    ∧ relax_var_addr p = relax_var_addr v
    ∧ ∀ j q, (j < i)%nat → fn_params f !! j = Some q →
             relax_var_addr q ≠ relax_var_addr v.
Proof.
  unfold ExtractArgIdx. intros Hdone Hidx.
  destruct (GetPattern pattern_name) as [[pattern aps]|]; [|done].
  destruct (ExtractMatchedExpr _ _ _) as [m|] eqn:Hmatch; [|done].
  destruct (ExtractArgIdx_loop_sound _ _ _ _ _ Hdone name idx Hidx)
    as [Hempty|(pat & exp & Hin & Hm & Hrec)]; [by rewrite lookup_empty in Hempty|].
  destruct (as_VarNode exp) as [v|] eqn:Hv; [|done]. simpl in Hrec.
  destruct (find_index (fn_params f) v) as [i|] eqn:Hi; [|done].
  injection Hrec as <-.
  destruct (find_index_Some _ _ _ Hi) as (p & Hp & Haddr & Hfirst).
  by exists pattern, aps, m, pat, exp, v, i, p.
Qed.

(** X24. When the names of the annotation patterns are distinct (they are
    the keys of a map) and [ExtractArgIdx] returns a map, the map holds for
    each name exactly what the loop body computes from its pattern: the
    index [find_index] gives when the matched expression is a variable
    among the parameters, and nothing when the matched expression is not a
    variable or is a variable that is no parameter. *)
Theorem ExtractArgIdx_complete (pattern_name : string) (f : Function)
    (arg_idx : gmap string Z) pattern annotation_patterns matched_expr
    (name : string) (pat : DFPattern) :
  ExtractArgIdx pattern_name f = Done arg_idx →
  GetPattern pattern_name = Some (pattern, annotation_patterns) →
  ExtractMatchedExpr pattern (inner_body f) (AnalyzeVar2Value f)
    = Some matched_expr →
  NoDup annotation_patterns.*1 →
  (name, pat) ∈ annotation_patterns →
  ∃ exp, matched_expr pat = Some exp
    ∧ arg_idx !! name
      = (as_VarNode exp ≫= λ v, Z.of_nat <$> find_index (fn_params f) v)
    ∧ (arg_idx !! name = None →
       ∀ v, as_VarNode exp = Some v →
            ∀ p, p ∈ fn_params f → relax_var_addr p ≠ relax_var_addr v).
Proof.
  unfold ExtractArgIdx. intros Hdone Hpattern Hmatch Hnodup Hin.
  rewrite Hpattern, Hmatch in Hdone.
  destruct (ExtractArgIdx_loop_complete _ _ _ _ _ Hdone Hnodup) as [_ Hall].
  destruct (Hall name pat Hin) as (exp & Hm & Hr).
  exists exp. split; [done|].
  assert (Hlook : arg_idx !! name
    = (as_VarNode exp ≫= λ v, Z.of_nat <$> find_index (fn_params f) v)).
  { rewrite Hr. by destruct (as_VarNode exp ≫= _). }
  split; [done|]. rewrite Hlook. intros Hnone v Hv. rewrite Hv in Hnone.
  simpl in Hnone. apply find_index_None.
  by destruct (find_index (fn_params f) v).
Qed.

End ExtractArgIdxFacts.

(** X23, on the sample registry: a function with parameters [bias], [x] and
    [w], whose weight is found at index 2. *)
Lemma ExtractArgIdx_entries_witness :
  ∃ pattern annotation_patterns matched_expr pat exp v (i : nat) p,
    @GetPattern TargetSamples.matcher "dnnl.conv2d_relu"
      = Some (pattern, annotation_patterns)
    ∧ @ExtractMatchedExpr TargetSamples.matcher pattern
        (@inner_body TargetSamples.matcher
           [TargetSamples.bias; TargetSamples.x; TargetSamples.w])
        (@AnalyzeVar2Value TargetSamples.matcher
           [TargetSamples.bias; TargetSamples.x; TargetSamples.w])
      = Some matched_expr
    ∧ ("weight", pat) ∈ annotation_patterns
    ∧ matched_expr pat = Some exp
    ∧ @as_VarNode TargetSamples.matcher exp = Some v
    ∧ 2 = Z.of_nat i
    ∧ @fn_params TargetSamples.matcher
        [TargetSamples.bias; TargetSamples.x; TargetSamples.w] !! i = Some p
    ∧ relax_var_addr p = relax_var_addr v
    ∧ ∀ j q, (j < i)%nat →
             @fn_params TargetSamples.matcher
               [TargetSamples.bias; TargetSamples.x; TargetSamples.w] !! j = Some q →
             relax_var_addr q ≠ relax_var_addr v.
Proof.
  apply (@ExtractArgIdx_entries TargetSamples.matcher "dnnl.conv2d_relu"
           [TargetSamples.bias; TargetSamples.x; TargetSamples.w]
           (<["weight" := 2]> (<["input" := 1]> ∅)) "weight" 2).
  - vm_compute. reflexivity.
  - vm_compute. reflexivity.
Defined.

(** X24, on the sample registry: the root of the pattern matched no
    variable, and has no entry. *)
Lemma ExtractArgIdx_complete_witness :
  ∃ matched_expr,
    @ExtractMatchedExpr TargetSamples.matcher 0%nat None tt = Some matched_expr
    ∧ ∃ exp, matched_expr 0%nat = Some exp
        ∧ (<["weight" := 2]> (<["input" := 1]> ∅) : gmap string Z) !! "root"
          = (@as_VarNode TargetSamples.matcher exp ≫= λ v,
             Z.of_nat <$>
               find_index [TargetSamples.bias; TargetSamples.x; TargetSamples.w] v)
        ∧ ((<["weight" := 2]> (<["input" := 1]> ∅) : gmap string Z) !! "root" = None →
           ∀ v, @as_VarNode TargetSamples.matcher exp = Some v →
                ∀ p, p ∈ [TargetSamples.bias; TargetSamples.x; TargetSamples.w] →
                     relax_var_addr p ≠ relax_var_addr v).
Proof.
  eexists. split; [reflexivity|].
  apply (@ExtractArgIdx_complete TargetSamples.matcher "dnnl.conv2d_relu"
           [TargetSamples.bias; TargetSamples.x; TargetSamples.w]
           (<["weight" := 2]> (<["input" := 1]> ∅)) 0%nat
           [("input", 1%nat); ("weight", 2%nat); ("root", 0%nat)] _ "root" 0%nat).
  - vm_compute. reflexivity.
  - reflexivity.
  - reflexivity.
  - refine (bool_decide_unpack _ _). vm_compute. exact I.
  - right. right. left.
Defined.

(** ** Relax struct info *)

Section StructInfoFacts.
Context `{RelaxLang}.

Lemma Map_checked_Done (f : PrimExpr → Checked PrimExpr) values values' :
  Map_checked f values = Done values' →
  Forall2 (λ v v', f v = Done v') values values'.
Proof.
  revert values'. induction values as [|v values IH]; intros values'; simpl.
  - intros [= <-]. constructor.
  - intros Hdone. apply and_then_Done in Hdone as (v' & Hv & Hdone).
    apply and_then_Done in Hdone as (rest' & Hrest & [= <-]).
    constructor; [done|by apply IH].
Qed.

Lemma Map_checked_Fatal (f : PrimExpr → Checked PrimExpr) values :
  (∃ msg, Map_checked f values = Fatal msg)
  ↔ ∃ v, v ∈ values ∧ ∃ msg, f v = Fatal msg.
Proof.
  induction values as [|v values IH]; simpl.
  - split; [by intros [? ?]|]. intros (v & Hv & _). by apply elem_of_nil in Hv.
  - destruct (f v) as [v'|msg] eqn:Hv; simpl.
    + destruct (Map_checked f values) as [rest'|msg] eqn:Hrest; simpl.
      * split; [by intros [? ?]|]. intros (v0 & Hin & msg & Hmsg).
        apply elem_of_cons in Hin as [->|Hin]; [congruence|].
        destruct (proj2 IH) as [? ?]; [by exists v0; eauto|done].
      * split; [|by eexists]. intros _.
        destruct (proj1 IH) as (v0 & Hin & Hmsg); [by eexists|].
        exists v0. split; [by right|done].
    + split; [|by eexists]. intros _. exists v. split; [by left|by eexists].
Qed.

Lemma normalize_value_Done (value value' : PrimExpr) :
  normalize_value value = Done value' →
  (IsIntImm value = true ∧ value' = tvm_cast Int64 value)
  ∨ (IsIntImm value = false ∧ expr_dtype value = Int64 ∧ value' = value).
Proof.
  unfold normalize_value. destruct (IsIntImm value).
  - intros [= <-]. by left.
  - destruct (decide (expr_dtype value = Int64)); [|done]. intros [= <-]. by right.
Qed.

(** X25. A [ShapeStructInfo] built from values has as many values as it was
    given, in the same order: an integer immediate is replaced by its cast
    to int64, any other value is kept as it is; so, when the cast gives its
    result the dtype asked for, every value of the result has dtype int64.
    Its [ndim] is the number of values converted to [int]. *)
Theorem ShapeStructInfo_values_Done (values : list PrimExpr) (span : Span)
    (s : StructInfo) :
  (∀ value, expr_dtype (tvm_cast Int64 value) = Int64) →
  ShapeStructInfo_values values span = Done s →
  ∃ values',
    s = ShapeStructInfoNode (Some values')
          (MutateComputeLocationNode.to_int (Z.of_nat (length values))) span
    ∧ length values' = length values
    ∧ Forall (λ v, expr_dtype v = Int64) values'
    ∧ ∀ (i : nat) v, values !! i = Some v →
        values' !! i = Some (if IsIntImm v then tvm_cast Int64 v else v).
Proof.
  intros Hcast. unfold ShapeStructInfo_values. intros Hdone.
  apply and_then_Done in Hdone as (values' & Hmap & [= <-]).
  apply Map_checked_Done in Hmap. exists values'. split; [done|].
  split; [symmetry; by eapply Forall2_length|]. split.
  - clear span. induction Hmap as [|v v' values values' Hv _ IH]; constructor; [|done].
    apply normalize_value_Done in Hv as [[_ ->]|(_ & Hd & ->)]; [apply Hcast|done].
  - intros i v Hi.
    destruct (Forall2_lookup_l _ _ _ _ _ Hmap Hi) as (v' & Hi' & Hv).
    rewrite Hi'. f_equal.
    by apply normalize_value_Done in Hv as [[-> ->]|(-> & _ & ->)].
Qed.

(** X26. [ShapeStructInfo(values, span)] fails exactly when one of the
    values is not an integer immediate and has a dtype other than int64. *)
Theorem ShapeStructInfo_values_Fatal (values : list PrimExpr) (span : Span) :
  (∃ msg, ShapeStructInfo_values values span = Fatal msg)
  ↔ ∃ v, v ∈ values ∧ IsIntImm v = false ∧ expr_dtype v ≠ Int64.
Proof.
  unfold ShapeStructInfo_values. split.
  - intros [msg Hmsg].
    destruct (Map_checked normalize_value values) as [values'|msg'] eqn:Hmap; [done|].
    destruct (proj1 (Map_checked_Fatal normalize_value values))
      as (v & Hin & msg'' & Hv); [by eexists|].
    exists v. split; [done|]. unfold normalize_value in Hv.
    destruct (IsIntImm v); [done|].
    by destruct (decide (expr_dtype v = Int64)).
  - intros (v & Hin & Himm & Hd).
    destruct (proj2 (Map_checked_Fatal normalize_value values)) as [msg Hmsg].
    + exists v. split; [done|]. unfold normalize_value. rewrite Himm.
      rewrite decide_False by done. by eexists.
    + rewrite Hmsg. by eexists.
Qed.

(** X27. A struct info made by "relax.ShapeStructInfo" keeps the constraints
    on [ndim] (for at most [2^31 - 1] values): it is at least -1, and with
    values it is their number.  Values and an [ndim] other than
    [kUnknownNDim] are never accepted together. *)
Theorem ffi_ShapeStructInfo_ndim_ok (values : option (list PrimExpr)) (ndim : Z)
    (span : Span) (s : StructInfo) :
  (∀ l, values = Some l → Z.of_nat (length l) < 2 ^ 31) →
  ffi_ShapeStructInfo values ndim span = Done s →
  ndim_ok s
  ∧ (is_Some values → ndim = kUnknownNDim)
  ∧ (values = None → s = ShapeStructInfoNode None ndim span).
Proof.
  intros Hsize. unfold ffi_ShapeStructInfo. destruct values as [values|].
  - destruct (Z.eqb_spec ndim kUnknownNDim) as [->|]; [|done].
    unfold ShapeStructInfo_values. intros Hdone.
    apply and_then_Done in Hdone as (values' & Hmap & [= <-]).
    apply Map_checked_Done, Forall2_length in Hmap.
    specialize (Hsize values eq_refl).
    assert (Hint : MutateComputeLocationNode.to_int (Z.of_nat (length values))
                   = Z.of_nat (length values)).
    { unfold MutateComputeLocationNode.to_int.
      rewrite Z.mod_small by lia. lia. }
    split; [|done]. simpl. rewrite Hint. split; [lia|].
    intros l [= <-]. by rewrite Hmap.
  - unfold ShapeStructInfo_ndim. destruct (Z.ltb_spec ndim (-1)); [done|].
    intros [= <-]. split; [|split; [by intros [? ?]|done]].
    simpl. split; [lia|done].
Qed.

(** X28. A struct info made by "relax.TensorStructInfo" keeps the
    constraints on [ndim], when the struct info of the shape expression
    keeps them: it is at least -1, and with a shape expression it is the
    [ndim] of the shape's struct info, which is a [ShapeStructInfo], the
    expression being a [ShapeExpr] or a variable.  A shape and an [ndim]
    other than [kUnknownNDim] are never accepted together. *)
Theorem ffi_TensorStructInfo_ndim_ok (shape : option RelaxExpr)
    (dtype : option DataType) (ndim : Z) (vdevice : option VDevice) (span : Span)
    (s : StructInfo) :
  (∀ e s', shape = Some e → struct_info_ e = Some s' → ndim_ok s') →
  ffi_TensorStructInfo shape dtype ndim vdevice span = Done s →
  ndim_ok s
  ∧ (∀ e, shape = Some e →
          ndim = kUnknownNDim
          ∧ expr_kind e ≠ OtherExprNode
          ∧ ∃ values ndim' span',
              struct_info_ e = Some (ShapeStructInfoNode values ndim' span')
              ∧ s = TensorStructInfoNode (Some e) (default Void dtype) vdevice
                      ndim' span)
  ∧ (shape = None →
     s = TensorStructInfoNode None (default Void dtype) vdevice ndim span).
Proof.
  intros Hshape. unfold ffi_TensorStructInfo. destruct shape as [e|].
  - destruct (Z.eqb_spec ndim kUnknownNDim) as [->|]; [|done].
    unfold TensorStructInfo_shape.
    destruct (struct_info_ e) as [[| |values ndim' span'| | |]|] eqn:Hsinfo; try done.
    specialize (Hshape e _ eq_refl Hsinfo). destruct Hshape as [Hge _].
    destruct (expr_kind e) eqn:Hkind; try done; intros [= <-].
    all: split; [|split; [|done]].
    all: try (simpl; split; [done|]; intros e' [= <-]; eexists; by rewrite Hsinfo).
    all: intros e' [= <-]; split; [done|]; split; [by rewrite Hkind|];
      by exists values, ndim', span'.
  - unfold TensorStructInfo_ndim. destruct (Z.ltb_spec ndim (-1)); [done|].
    intros [= <-]. split; [|split; [done|done]].
    simpl. split; [lia|done].
Qed.

(** X29. [UpdateStructInfo] sets the struct info of an expression once: it
    succeeds only on an expression that has none, which then has the given
    one and is otherwise the same; every later update of that expression
    fails, whatever the struct info; and a [ShapeExpr] or variable updated
    with a shape struct info is accepted as the shape of a
    [TensorStructInfo], which takes its [ndim]. *)
Theorem UpdateStructInfo_once (expr expr' : RelaxExpr) (struct_info : StructInfo) :
  UpdateStructInfo expr struct_info = Done expr' →
  struct_info_ expr = None
  ∧ struct_info_ expr' = Some struct_info
  ∧ expr_kind expr' = expr_kind expr
  ∧ (∀ other, ∃ msg, UpdateStructInfo expr' other = Fatal msg)
  ∧ (∀ values ndim span dtype vdevice span',
       struct_info = ShapeStructInfoNode values ndim span →
       expr_kind expr ≠ OtherExprNode →
       TensorStructInfo_shape expr' dtype vdevice span'
       = Done (TensorStructInfoNode (Some expr') dtype vdevice ndim span')).
Proof.
  unfold UpdateStructInfo. destruct (struct_info_ expr) eqn:Hprior; [done|].
  intros [= <-]. simpl. repeat split.
  - intros other. by eexists.
  - intros values ndim span dtype vdevice span' -> Hkind.
    unfold TensorStructInfo_shape. simpl. by destruct (expr_kind expr).
Qed.

End StructInfoFacts.

(** X25, on the shape [(n, 4)] whose 4 is a 32-bit immediate. *)
Lemma ShapeStructInfo_values_Done_witness :
  ∃ values',
    @ShapeStructInfoNode StructInfoSamples.tir StructInfoSamples.relax
      (Some [StructInfoSamples.Sym StructInfoSamples.int64 "n";
             StructInfoSamples.Imm StructInfoSamples.int64 4]) 2 tt
    = @ShapeStructInfoNode StructInfoSamples.tir StructInfoSamples.relax
        (Some values')
        (MutateComputeLocationNode.to_int
           (Z.of_nat (length StructInfoSamples.shape_n_4))) tt
    ∧ length values' = length StructInfoSamples.shape_n_4
    ∧ Forall (λ v, @expr_dtype _ StructInfoSamples.relax v
                   = @Int64 _ StructInfoSamples.relax) values'
    ∧ ∀ (i : nat) v, StructInfoSamples.shape_n_4 !! i = Some v →
        values' !! i
        = Some (if @IsIntImm _ StructInfoSamples.relax v
                then @tvm_cast _ StructInfoSamples.relax
                       (@Int64 _ StructInfoSamples.relax) v
                else v).
Proof.
  apply (@ShapeStructInfo_values_Done StructInfoSamples.tir StructInfoSamples.relax
           StructInfoSamples.shape_n_4 tt).
  - by intros [d v|d n].
  - vm_compute. reflexivity.
Defined.

(** X26, on a shape with a 32-bit variable. *)
Lemma ShapeStructInfo_values_Fatal_witness :
  ∃ msg,
    @ShapeStructInfo_values StructInfoSamples.tir StructInfoSamples.relax
      [StructInfoSamples.Imm StructInfoSamples.int32 4;
       StructInfoSamples.Sym StructInfoSamples.int32 "m"] tt
    = Fatal msg.
Proof.
  apply (proj2 (@ShapeStructInfo_values_Fatal StructInfoSamples.tir
                  StructInfoSamples.relax _ tt)).
  exists (StructInfoSamples.Sym StructInfoSamples.int32 "m").
  split; [by right; left|]. split; [reflexivity|]. by intros [=].
Defined.

(** X27, on the shape [(n, 4)]. *)
Lemma ffi_ShapeStructInfo_ndim_ok_witness :
  @ndim_ok StructInfoSamples.tir StructInfoSamples.relax
    (@ShapeStructInfoNode StructInfoSamples.tir StructInfoSamples.relax
       (Some [StructInfoSamples.Sym StructInfoSamples.int64 "n";
              StructInfoSamples.Imm StructInfoSamples.int64 4]) 2 tt).
Proof.
  refine (proj1 (@ffi_ShapeStructInfo_ndim_ok StructInfoSamples.tir
                   StructInfoSamples.relax (Some StructInfoSamples.shape_n_4)
                   (-1) tt _ _ _)).
  - intros l [= <-]. vm_compute. reflexivity.
  - vm_compute. reflexivity.
Defined.

(** X28, on a tensor whose shape is the shape expression [(n, 4)]. *)
Lemma ffi_TensorStructInfo_ndim_ok_witness :
  @ndim_ok StructInfoSamples.tir StructInfoSamples.relax
    (@TensorStructInfoNode StructInfoSamples.tir StructInfoSamples.relax
       (Some StructInfoSamples.shape_expr) Float32 None 2 tt).
Proof.
  refine (proj1 (@ffi_TensorStructInfo_ndim_ok StructInfoSamples.tir
                   StructInfoSamples.relax (Some StructInfoSamples.shape_expr)
                   (Some Float32) (-1) None tt _ _ _)).
  - intros e s' [= <-] [= <-]. simpl. split; [lia|]. by intros l [= <-].
  - vm_compute. reflexivity.
Defined.

(** X29, on a variable without struct info: once it has one, giving it
    another fails. *)
Lemma UpdateStructInfo_once_witness :
  ∃ msg,
    @UpdateStructInfo StructInfoSamples.tir StructInfoSamples.relax
      (@mkRelaxExpr StructInfoSamples.tir StructInfoSamples.relax VarNode
         (Some (@ShapeStructInfoNode StructInfoSamples.tir StructInfoSamples.relax
                  None 3 tt)))
      (@ObjectStructInfoNode StructInfoSamples.tir StructInfoSamples.relax tt)
    = Fatal msg.
Proof.
  refine (proj1 (proj2 (proj2 (proj2
    (@UpdateStructInfo_once StructInfoSamples.tir StructInfoSamples.relax
       StructInfoSamples.fresh_var _
       (@ShapeStructInfoNode StructInfoSamples.tir StructInfoSamples.relax
          None 3 tt) _)))) _).
  reflexivity.
Defined.
